(** * ml::static_vector — a shallow embedding and its verification

    The development follows the three layers of the library:
    - [LazyStorage]     : include/ml/details/lazy_storage.hpp
    - [StorageIterator] : ml/details/storage_iterator.hpp
    - [StaticVector]    : ml/static_vector/static_vector.hpp

    Conventions.
    - [std::size_t] values are [N]; the only subtraction that can wrap
      ([size () - 1] in [back]) is written out modulo [2^64].
    - a [std::integral auto] argument is a [Z]; [std::cmp_less] and
      [std::cmp_less_equal] compare mathematical values, hence [Z.ltb]
      and [Z.leb].
    - a pointer into [m_storage] is its offset from [std::data (m_storage)].
    - a slot is a union without tag; the embedding keeps the liveness of
      each slot as ghost information ([None] = no object, [Some x] = an
      object of value [x]) and records every [construct]/[destroy] call
      in a trace, so that lifetime rules can be stated.
    - an exception is an explicit [Throw]; a call that never returns is
      [None] (loops run on fuel). *)

From stdpp Require Import base list.
From Stdlib Require Import ZArith Lia.
From Stdlib Require String.

Local Open Scope Z_scope.

(* ====================================================================== *)
(** * Integer helpers *)
(* ====================================================================== *)

Definition size_max : Z := 2 ^ 64.

(** [static_cast<std::size_t> (z)] *)
Definition to_size_type (z : Z) : N := Z.to_N (z mod size_max).

(** The values of the integer types, from [std::int64_t] to
    [std::uint64_t]. *)
Definition integral (z : Z) : bool := (- 2 ^ 63 <=? z) && (z <? size_max).

Definition cmp_less (a b : Z) : bool := a <? b.
Definition cmp_less_equal (a b : Z) : bool := a <=? b.

(** The [what ()] strings of the exceptions the container throws. *)
Module Messages.
Import String.
Local Open Scope string_scope.
Definition index_out_of_range : string := "static_vector index out of range.".
Definition emplace_back_on_full : string :=
  "invalid emplace_back on full static_vector.".
End Messages.

(** The half-open index range [\[a, b)] of a list. *)
Definition subrange {A} (a b : nat) (l : list A) : list A := drop a (take b l).

(* ====================================================================== *)
(** * lazy_storage *)
(* ====================================================================== *)

Module LazyStorage.
Section Slot.
Context {T E World Args : Type}.

(** The element type's constructors: a call consumes an argument pack,
    may read and change the ambient state, and either yields the new
    object or throws. *)
Variable construct_at : Args -> World -> (E + T) * World.

(** [union lazy_storage { ValueT m_value; }] with ghost liveness. *)
Definition lazy_storage : Type := option T.

(** [lazy_storage (Uninit)] *)
Definition uninit : lazy_storage := None.

Definition is_live (s : lazy_storage) : bool :=
  match s with Some _ => true | None => false end.

(** [value ()]: a reference to [m_value]; there is an object behind it
    only when the slot is live. *)
Definition value (s : lazy_storage) : option T := s.

(** [destroy ()]: [std::ranges::destroy_at (data ())]. *)
Definition destroy (s : lazy_storage) : lazy_storage := None.

(** [construct (args...)]:
    [return *std::ranges::construct_at (data (), args...)]. *)
Definition construct (args : Args) (s : lazy_storage) (w : World)
  : (E + T) * lazy_storage * World :=
  match construct_at args w with
  | (inr x, w') => (inr x, Some x, w')
  | (inl e, w') => (inl e, s, w')
  end.
End Slot.
End LazyStorage.

(* ====================================================================== *)
(** * storage_iterator *)
(* ====================================================================== *)

Module StorageIterator.

(** [StorageType* m_ptr], as an offset into the slot array. *)
Record storage_iterator : Type := Iter { m_ptr : Z }.

(** Every mutating member is a function from the iterator it is called
    on to the pair of the value it returns and the new state of
    [*this]. *)

(** [operator++ ()]: [++m_ptr; return *this;] *)
Definition pre_inc (self : storage_iterator)
  : storage_iterator * storage_iterator :=
  let self := Iter (m_ptr self + 1) in
  (self, self).

(** [operator++ (int)]: [auto copy = *this; ++*this; return copy;] *)
Definition post_inc (self : storage_iterator)
  : storage_iterator * storage_iterator :=
  let copy := self in
  let self := snd (pre_inc self) in
  (copy, self).

(** [operator-- ()]: [--m_ptr; return *this;] *)
Definition pre_dec (self : storage_iterator)
  : storage_iterator * storage_iterator :=
  let self := Iter (m_ptr self - 1) in
  (self, self).

(** [operator-- (int)]: [auto copy = *this; --*this; return *this;] *)
Definition post_dec (self : storage_iterator)
  : storage_iterator * storage_iterator :=
  let copy := self in
  let self := snd (pre_dec self) in
  (self, self).

(** [operator+= (delta)]: [m_ptr += delta; return *this;] *)
Definition add_assign (delta : Z) (self : storage_iterator)
  : storage_iterator * storage_iterator :=
  let self := Iter (m_ptr self + delta) in
  (self, self).

(** [operator-= (delta)]: [m_ptr -= delta; return *this;] *)
Definition sub_assign (delta : Z) (self : storage_iterator)
  : storage_iterator * storage_iterator :=
  let self := Iter (m_ptr self - delta) in
  (self, self).

(** [operator+ (iter, delta)]: [iter += delta; return iter;] *)
Definition plus (iter : storage_iterator) (delta : Z) : storage_iterator :=
  snd (add_assign delta iter).

(** [operator- (iter, delta)]: [iter -= delta; return iter;] *)
Definition minus (iter : storage_iterator) (delta : Z) : storage_iterator :=
  snd (sub_assign delta iter).

(** [operator- (lhs, rhs)]: [return lhs.m_ptr - rhs.m_ptr;] *)
Definition distance (lhs rhs : storage_iterator) : Z :=
  m_ptr lhs - m_ptr rhs.

(** [operator==], defaulted. *)
Definition eqb (lhs rhs : storage_iterator) : bool :=
  m_ptr lhs =? m_ptr rhs.

(** [operator+ (delta, iter)]: [iter += delta; return iter;] *)
Definition plus_left (delta : Z) (iter : storage_iterator) : storage_iterator :=
  snd (add_assign delta iter).

(** [operator- (delta, iter)]: [iter -= delta; return iter;] *)
Definition minus_left (delta : Z) (iter : storage_iterator) : storage_iterator :=
  snd (sub_assign delta iter).

(** [operator<=>], defaulted: the comparison of the two pointers. *)
Definition compare (lhs rhs : storage_iterator) : comparison :=
  Z.compare (m_ptr lhs) (m_ptr rhs).

End StorageIterator.

(* ====================================================================== *)
(** * static_vector *)
(* ====================================================================== *)

Module StaticVector.
Import LazyStorage StorageIterator.

(** What a call can throw: the two standard exceptions the container
    raises itself, and whatever the element type throws. *)
Inductive exn (E : Type) : Type :=
| logic_error (what : String.string)
| out_of_range (what : String.string)
| element_error (e : E).
Arguments logic_error {E} what.
Arguments out_of_range {E} what.
Arguments element_error {E} e.

Inductive outcome (E A : Type) : Type :=
| Return (a : A)
| Throw (e : exn E).
Arguments Return {E A} a.
Arguments Throw {E A} e.

(** Ghost trace of the slot-level lifetime calls: which slot, and whether
    it held an object at the time of the call. *)
Inductive event : Type :=
| EvConstruct (index : N) (was_live : bool)
| EvDestroy (index : N) (was_live : bool).

(** [construct] wants an empty slot, [destroy] a live one. *)
Definition legal (ev : event) : bool :=
  match ev with
  | EvConstruct _ was_live => negb was_live
  | EvDestroy _ was_live => was_live
  end.

Definition is_logic_error {E A} (r : outcome E A) : bool :=
  match r with Throw (logic_error _) => true | _ => false end.

Definition is_out_of_range {E A} (r : outcome E A) : bool :=
  match r with Throw (out_of_range _) => true | _ => false end.

Definition is_throw {E A} (r : outcome E A) : bool :=
  match r with Throw _ => true | Return _ => false end.

(** The call returned, or threw [std::logic_error]. *)
Definition benign {E A} (r : outcome E A) : bool :=
  match r with Return _ | Throw (logic_error _) => true | _ => false end.

Section Container.
Context {T E World Args : Type}.

(** [template<class ValueT, std::size_t StaticSize>] *)
Variable StaticSize : N.

(** The constructors of [value_type], and the argument packs the
    container itself builds: none (default construction), one
    [value_type const&] and one [value_type&&]. *)
Variable construct_at : Args -> World -> (E + T) * World.
Variable default_init : Args.
Variable copy_init : T -> Args.
Variable move_init : T -> Args.

(** The value move assignment leaves in its source. Move assignment,
    copy assignment and swap of [value_type] are taken not to throw. *)
Variable moved_from : T -> T.

Local Abbreviation slot := (@lazy_storage T).

(** [std::size_t m_size {}; storage_type m_storage[StaticSize];] *)
Record static_vector : Type := Vec {
  m_size : N;
  m_storage : list slot
}.

(** The object a member function runs on, the ambient state the element
    constructors see, and the ghost trace. *)
Record machine : Type := Machine {
  vec : static_vector;
  world : World;
  trace : list event
}.

Definition with_vec (v : static_vector) (m : machine) : machine :=
  Machine v (world m) (trace m).

Definition set_size (n : N) (m : machine) : machine :=
  with_vec (Vec n (m_storage (vec m))) m.

(** [m_storage\[i\]] *)
Definition slot_at (i : N) (m : machine) : slot :=
  default None (m_storage (vec m) !! N.to_nat i).

(** [m_storage\[i\].destroy ()] *)
Definition storage_destroy (i : N) (m : machine) : machine :=
  let s := slot_at i m in
  Machine (Vec (m_size (vec m))
               (<[N.to_nat i := destroy s]> (m_storage (vec m))))
          (world m)
          (trace m ++ [EvDestroy i (is_live s)]).

(** [m_storage\[i\].construct (args...)] *)
Definition storage_construct (i : N) (args : Args) (m : machine)
  : (E + T) * machine :=
  let s := slot_at i m in
  match construct construct_at args s (world m) with
  | (r, s', w') =>
      (r, Machine (Vec (m_size (vec m))
                       (<[N.to_nat i := s']> (m_storage (vec m))))
                  w'
                  (trace m ++ [EvConstruct i (is_live s)]))
  end.

(* -------------------------------------------------------------------- *)
(** ** Size inspection and iterator access *)

Definition size (m : machine) : N := m_size (vec m).
Definition max_size : N := StaticSize.
Definition capacity : N := StaticSize.
Definition empty (m : machine) : bool := (size m =? 0)%N.
Definition full (m : machine) : bool := (size m =? max_size)%N.

Definition begin_ (m : machine) : storage_iterator := Iter 0.
Definition end_ (m : machine) : storage_iterator := Iter (0 + Z.of_N (size m)).

(** [cbegin ()]: [return const_iterator (std::data (m_storage));] and
    [cend ()]: [return const_iterator (std::data (m_storage) + size ());].
    Iterators and constant iterators are both offsets into the array. *)
Definition cbegin (m : machine) : storage_iterator := Iter 0.
Definition cend (m : machine) : storage_iterator := Iter (0 + Z.of_N (size m)).

(** [index_of (const_iterator pos)]: [return pos - cbegin ();]. The
    overload that takes an [iterator] has the body [return pos - begin ();]
    in a [const] member, which subtracts a [const_iterator] from an
    [iterator]; no [operator-] takes the two, so that overload cannot be
    instantiated and is not embedded. *)
Definition index_of (pos : storage_iterator) (m : machine) : N :=
  to_size_type (distance pos (cbegin m)).

(* -------------------------------------------------------------------- *)
(** ** Single element access *)

(** [at (index)] *)
Definition at_ (index : Z) (m : machine) : outcome E (option T) * machine :=
  if cmp_less index 0 || cmp_less_equal (Z.of_N (size m)) index then
    (Throw (out_of_range Messages.index_out_of_range), m)
  else
    (Return (value (slot_at (to_size_type index) m)), m).

(** [front ()]: [return at (0u);] *)
Definition front (m : machine) : outcome E (option T) * machine :=
  at_ 0 m.

(** [back ()]: [return at (size () - 1);], the subtraction being one of
    [std::size_t]. *)
Definition back (m : machine) : outcome E (option T) * machine :=
  at_ ((Z.of_N (size m) - 1) mod size_max) m.

(** [operator\[\] (index)]: [return at (index);] *)
Definition subscript (index : Z) (m : machine)
  : outcome E (option T) * machine :=
  at_ index m.

(* -------------------------------------------------------------------- *)
(** ** Single element modifiers *)

(** [pop_back ()] *)
Definition pop_back (m : machine) : machine :=
  if negb (empty m) then
    let m := set_size (size m - 1) m in
    storage_destroy (size m) m
  else m.

(** [emplace_back (args...)]; the reference it returns is given as the
    index of the new element. *)
Definition emplace_back (args : Args) (m : machine) : outcome E N * machine :=
  if full m then
    (Throw (logic_error Messages.emplace_back_on_full), m)
  else
    let m := set_size (size m + 1) m in
    match storage_construct (size m - 1) args m with
    | (inr _, m) => (Return (size m - 1)%N, m)
    | (inl e, m) => (Throw (element_error e), pop_back m)
    end.

(** [push_back (value_type const&)] and [push_back (value_type&&)] *)
Definition push_back (init : T) (m : machine) : outcome E N * machine :=
  emplace_back (copy_init init) m.

Definition push_back_move (init : T) (m : machine) : outcome E N * machine :=
  emplace_back (move_init init) m.

(* -------------------------------------------------------------------- *)
(** ** The standard algorithms the container calls, on the slot array *)

(** [*dst = std::move ( *src)] *)
Definition move_assign (dst src : nat) (st : list slot) : list slot :=
  match st !! src with
  | Some s => <[src := moved_from <$> s]> (<[dst := s]> st)
  | None => st
  end.

(** [*dst = *src], the source being a value of another range *)
Definition copy_assign (dst : nat) (x : T) (st : list slot) : list slot :=
  <[dst := Some x]> st.

(** [std::ranges::move (first, last, result)]:
    [for (; first != last; ++first, ++result) *result = std::move ( *first);] *)
Fixpoint ranges_move_loop (n first result : nat) (st : list slot) : list slot :=
  match n with
  | O => st
  | S n => ranges_move_loop n (S first) (S result) (move_assign result first st)
  end.

(** The number of steps is [last - first]; for a reversed range, which
    the callers exclude ([valid_op]), the loop of the source does not
    stop at [last] and no number of steps describes it: the definition
    then moves nothing, and no theorem is stated there. *)
Definition ranges_move (first last result : storage_iterator) (m : machine)
  : machine :=
  with_vec (Vec (m_size (vec m))
                (ranges_move_loop (Z.to_nat (distance last first))
                                  (Z.to_nat (m_ptr first))
                                  (Z.to_nat (m_ptr result))
                                  (m_storage (vec m)))) m.

(** What the last slot of a range holds once the range has been moved
    one slot down over a slot holding [a]. *)
Definition shifted (a : slot) (mid : list slot) : slot :=
  match last mid with
  | Some s => moved_from <$> s
  | None => a
  end.

(** [std::ranges::copy (first, last, result)], the source range given by
    its values. *)
Fixpoint ranges_copy_loop (src : list T) (result : nat) (st : list slot)
  : list slot :=
  match src with
  | [] => st
  | x :: src => ranges_copy_loop src (S result) (copy_assign result x st)
  end.

Definition ranges_copy (src : list T) (result : storage_iterator) (m : machine)
  : machine :=
  with_vec (Vec (m_size (vec m))
                (ranges_copy_loop src (Z.to_nat (m_ptr result))
                                  (m_storage (vec m)))) m.

(** [std::ranges::rotate (first, middle, last)], by its contract in the
    C++ standard: the element at [middle] becomes the first one of
    [\[first, last)], the one before it the last. The ranges must be
    valid, [first <= middle <= last] inside the array; the standard
    specifies nothing otherwise, the definition then leaves the array as
    it is, and no theorem is stated there (see [valid_op]). *)
Definition rotate_slots (first middle last : nat) (st : list slot) : list slot :=
  if (first <=? middle)%nat && (middle <=? last)%nat && (last <=? length st)%nat
  then take first st ++ subrange middle last st ++ subrange first middle st
         ++ drop last st
  else st.

Definition ranges_rotate (first middle last : storage_iterator) (m : machine)
  : machine :=
  if (0 <=? m_ptr first) && (0 <=? m_ptr middle) && (0 <=? m_ptr last) then
    with_vec (Vec (m_size (vec m))
                  (rotate_slots (Z.to_nat (m_ptr first)) (Z.to_nat (m_ptr middle))
                                (Z.to_nat (m_ptr last)) (m_storage (vec m)))) m
  else m.

(* -------------------------------------------------------------------- *)
(** ** insert and erase of one element *)

(** [insert (pos, value_type const& init)] *)
Definition insert (pos : storage_iterator) (init : T) (m : machine)
  : outcome E storage_iterator * machine :=
  match emplace_back (copy_init init) m with
  | (Throw e, m) => (Throw e, m)
  | (Return _, m) =>
      let m := ranges_rotate pos (minus (end_ m) 1) (end_ m) m in
      (Return pos, m)
  end.

(** [insert (pos, value_type&& init)] *)
Definition insert_move (pos : storage_iterator) (init : T) (m : machine)
  : outcome E storage_iterator * machine :=
  match emplace_back (move_init init) m with
  | (Throw e, m) => (Throw e, m)
  | (Return _, m) =>
      let m := ranges_rotate pos (minus (end_ m) 1) (end_ m) m in
      (Return pos, m)
  end.

(** [erase (pos)]. The body has one [return] statement, inside the [if];
    when the condition is false control reaches the closing brace and no
    value is returned: [None]. *)
Definition erase (pos : storage_iterator) (m : machine)
  : option storage_iterator * machine :=
  if negb (eqb pos (end_ m)) then
    let m := ranges_move (plus pos 1) (end_ m) pos m in
    let m := pop_back m in
    (Some pos, m)
  else (None, m).

(* -------------------------------------------------------------------- *)
(** ** Multiple element modifiers *)

(** [k] calls of [pop_back] in a row. *)
Fixpoint pops (k : nat) (m : machine) : machine :=
  match k with
  | O => m
  | S k => pops k (pop_back m)
  end.

(** [shrink_by (count)]:
    [while (std::cmp_less (0, count) && !empty ()) { --count; pop_back (); }] *)
Fixpoint shrink_by_loop (fuel : nat) (count : Z) (m : machine) : option machine :=
  match fuel with
  | O => None
  | S fuel =>
      if cmp_less 0 count && negb (empty m) then
        let count := count - 1 in
        shrink_by_loop fuel count (pop_back m)
      else Some m
  end.

Definition shrink_by (count : Z) (m : machine) : option machine :=
  shrink_by_loop (S (N.to_nat (size m))) count m.

(** [shrink_to (count)]:
    [while (std::cmp_less (count, size ())) { pop_back (); }] *)
Fixpoint shrink_to_loop (fuel : nat) (count : Z) (m : machine) : option machine :=
  match fuel with
  | O => None
  | S fuel =>
      if cmp_less count (Z.of_N (size m)) then
        shrink_to_loop fuel count (pop_back m)
      else Some m
  end.

Definition shrink_to (count : Z) (m : machine) : option machine :=
  shrink_to_loop (S (N.to_nat (size m))) count m.

(** [clear ()]: [shrink_to (0);] *)
Definition clear (m : machine) : option machine := shrink_to 0 m.

(** The loop of [emplace_back_many]:
    [for (size_type i = 0; std::cmp_less (i, count); ++i) emplace_back (args...);] *)
Fixpoint emplace_back_many_loop (fuel : nat) (i : N) (count : Z) (args : Args)
    (m : machine) : option (outcome E unit * machine) :=
  match fuel with
  | O => None
  | S fuel =>
      if cmp_less (Z.of_N i) count then
        match emplace_back args m with
        | (Return _, m) => emplace_back_many_loop fuel (i + 1) count args m
        | (Throw e, m) => Some (Throw e, m)
        end
      else Some (Return (), m)
  end.

(** Every turn of a bulk loop that does not throw raises [m_size]; this
    many turns are enough to leave the loop. *)
Definition bulk_fuel (m : machine) : nat :=
  S (S (N.to_nat (StaticSize - size m))).

(** [catch (...) { shrink_to (previous_size); throw; }] *)
Definition rollback {A} (previous_size : N) (e : exn E) (m : machine)
  : option (outcome E A * machine) :=
  match shrink_to (Z.of_N previous_size) m with
  | Some m => Some (Throw e, m)
  | None => None
  end.

(** [emplace_back_many (count, args...)] *)
Definition emplace_back_many (count : Z) (args : Args) (m : machine)
  : option (outcome E unit * machine) :=
  let previous_size := size m in
  match emplace_back_many_loop (bulk_fuel m) 0 count args m with
  | Some (Return _, m) => Some (Return (), m)
  | Some (Throw e, m) => rollback previous_size e m
  | None => None
  end.

(** The loop of [emplace_back_range], the input range given by the
    values it yields:
    [for (; first != last; ++first) emplace_back ( *first);] *)
Fixpoint emplace_back_range_loop (input : list Args) (m : machine)
  : outcome E unit * machine :=
  match input with
  | [] => (Return (), m)
  | a :: input =>
      match emplace_back a m with
      | (Return _, m) => emplace_back_range_loop input m
      | (Throw e, m) => (Throw e, m)
      end
  end.

(** [emplace_back_range (first, last)] *)
Definition emplace_back_range (input : list Args) (m : machine)
  : option (outcome E N * machine) :=
  let previous_size := size m in
  match emplace_back_range_loop input m with
  | (Return _, m) =>
      Some (Return (to_size_type (Z.of_N (size m) - Z.of_N previous_size)), m)
  | (Throw e, m) => rollback previous_size e m
  end.

(** [resize (count)] *)
Definition resize (count : Z) (m : machine) : option (outcome E unit * machine) :=
  if cmp_less_equal count (Z.of_N (size m)) then
    match shrink_to count m with
    | Some m => Some (Return (), m)
    | None => None
    end
  else emplace_back_many count default_init m.

(** [resize (count, init)] *)
Definition resize_init (count : Z) (init : T) (m : machine)
  : option (outcome E unit * machine) :=
  if cmp_less_equal count (Z.of_N (size m)) then
    match shrink_to count m with
    | Some m => Some (Return (), m)
    | None => None
    end
  else
    emplace_back_many
      ((Z.of_N (to_size_type count) - Z.of_N (size m)) mod size_max)
      (copy_init init) m.

(** [erase (first, last)] *)
Definition erase_range (first last : storage_iterator) (m : machine)
  : option (storage_iterator * machine) :=
  let m := ranges_move last (end_ m) first m in
  match shrink_by (distance last first) m with
  | Some m => Some (first, m)
  | None => None
  end.

(** [insert (pos, count, init)] *)
Definition insert_count (pos : storage_iterator) (count : Z) (init : T)
    (m : machine) : option (outcome E storage_iterator * machine) :=
  match emplace_back_many count (copy_init init) m with
  | Some (Return _, m) =>
      let m := ranges_rotate pos (minus (end_ m) count) (end_ m) m in
      Some (Return pos, m)
  | Some (Throw e, m) => Some (Throw e, m)
  | None => None
  end.

(** [insert (pos, first, last)] *)
Definition insert_range (pos : storage_iterator) (input : list Args)
    (m : machine) : option (outcome E storage_iterator * machine) :=
  match emplace_back_range input m with
  | Some (Return inserted, m) =>
      let m := ranges_rotate pos (minus (end_ m) (Z.of_N inserted)) (end_ m) m in
      Some (Return pos, m)
  | Some (Throw e, m) => Some (Throw e, m)
  | None => None
  end.

(* -------------------------------------------------------------------- *)
(** ** Constructors *)

(** The members as their default initialisers leave them: [m_size {}],
    and [StaticSize] slots built by [lazy_storage (Uninit)]. *)
Definition empty_vector : static_vector :=
  Vec 0 (replicate (N.to_nat StaticSize) uninit).

Definition fresh (w : World) : machine := Machine empty_vector w [].

(** The values of the elements, in order. *)
Definition elements (v : static_vector) : list T :=
  omap value (take (N.to_nat (m_size v)) (m_storage v)).

(** [catch (...) { clear (); throw; }] *)
Definition catch_clear {A} (r : outcome E A * machine)
  : option (outcome E unit * machine) :=
  match r with
  | (Return _, m) => Some (Return (), m)
  | (Throw e, m) =>
      match clear m with
      | Some m => Some (Throw e, m)
      | None => None
      end
  end.

(** (1/8) [static_vector () = default;] *)
Definition ctor_default (w : World) : option (outcome E unit * machine) :=
  Some (Return (), fresh w).

(** (2/8) [static_vector (count)]: [emplace_back_many (count);] *)
Definition ctor_count (count : Z) (w : World)
  : option (outcome E unit * machine) :=
  emplace_back_many count default_init (fresh w).

(** (3/8) [static_vector (count, init)]: [emplace_back_many (count, init);] *)
Definition ctor_count_init (count : Z) (init : T) (w : World)
  : option (outcome E unit * machine) :=
  emplace_back_many count (copy_init init) (fresh w).

(** (4/8) [static_vector (std::in_place, args...)]: a fold of
    [emplace_back] over the arguments, under [try ... catch] unless all
    the constructions are [noexcept]; an exception leaving the
    [noexcept] variant ends the program. *)
Definition ctor_in_place (is_noexcept : bool) (args : list Args) (w : World)
  : option (outcome E unit * machine) :=
  if is_noexcept then
    match emplace_back_range_loop args (fresh w) with
    | (Return _, m) => Some (Return (), m)
    | (Throw _, _) => None
    end
  else catch_clear (emplace_back_range_loop args (fresh w)).

(** (5/8) [static_vector (count, std::in_place, args...)] *)
Definition ctor_count_in_place (count : Z) (args : list Args) (w : World)
  : option (outcome E unit * machine) :=
  match emplace_back_range_loop args (fresh w) with
  | (Throw e, m) => catch_clear (Throw (A:=unit) e, m)
  | (Return _, m) =>
      if cmp_less (Z.of_nat (length args)) count then
        match emplace_back_many
                ((Z.of_N (to_size_type count) - Z.of_nat (length args))
                   mod size_max) default_init m with
        | Some r => catch_clear r
        | None => None
        end
      else Some (Return (), m)
  end.

(** (6/8) [static_vector (first, last)]:
    [while (first != last) { emplace_back ( *first); ++first; }] under
    [try ... catch]. (7/8) and (8/8) delegate to it. *)
Definition ctor_range (input : list Args) (w : World)
  : option (outcome E unit * machine) :=
  catch_clear (emplace_back_range_loop input (fresh w)).

(** [static_vector (static_vector const& other)]:
    [static_vector (other.begin (), other.end ())]. (For a trivially
    copyable [value_type] the copy and move constructors are defaulted
    and copy the members.) *)
Definition ctor_copy (other : static_vector) (w : World)
  : option (outcome E unit * machine) :=
  ctor_range (copy_init <$> elements other) w.

(** [static_vector (static_vector&& other)], through move iterators:
    the branch for element types whose move construction does not throw
    or that cannot be copied; the other branch is the range constructor
    over [other] itself, as in [ctor_copy]. *)
Definition ctor_move (other : static_vector) (w : World)
  : option (outcome E unit * machine) :=
  ctor_range (move_init <$> elements other) w.

(* -------------------------------------------------------------------- *)
(** ** Assignment *)

(** [operator= (static_vector const& other)], the branch of its
    [if constexpr] for element types whose copy construction and copy
    assignment do not throw. The other branch begins
    [auto copy = *other;], and [static_vector] has no unary [operator*]:
    it cannot be instantiated, and there is nothing to embed for element
    types whose copies may throw (see [valid_op]). *)
Definition copy_assignment (other : static_vector) (m : machine)
  : option (outcome E unit * machine) :=
  let n := N.to_nat (size m) in
  if (size m <=? m_size other)%N then
    let m := ranges_copy (take n (elements other)) (begin_ m) m in
    match emplace_back_range (copy_init <$> drop n (elements other)) m with
    | Some (Return _, m) => Some (Return (), m)
    | Some (Throw e, m) => Some (Throw e, m)
    | None => None
    end
  else
    let m := ranges_copy (elements other) (begin_ m) m in
    match shrink_to (Z.of_N (m_size other)) m with
    | Some m => Some (Return (), m)
    | None => None
    end.

(** [operator= (static_vector&& other)]; what the moves leave in
    [other] is not followed. *)
Definition move_assignment (other : static_vector) (m : machine)
  : option (outcome E unit * machine) :=
  let n := N.to_nat (size m) in
  if (size m <=? m_size other)%N then
    let m := ranges_copy (take n (elements other)) (begin_ m) m in
    match emplace_back_range (move_init <$> drop n (elements other)) m with
    | Some (Return _, m) => Some (Return (), m)
    | Some (Throw e, m) => Some (Throw e, m)
    | None => None
    end
  else
    let m := ranges_copy (elements other) (begin_ m) m in
    match shrink_to (Z.of_N (m_size other)) m with
    | Some m => Some (Return (), m)
    | None => None
    end.

(* -------------------------------------------------------------------- *)
(** ** The public operations as data *)

Inductive ctor : Type :=
| CtorDefault
| CtorCount (count : Z)
| CtorCountInit (count : Z) (init : T)
| CtorInPlace (is_noexcept : bool) (args : list Args)
| CtorCountInPlace (count : Z) (args : list Args)
| CtorRange (input : list Args)
| CtorCopy (other : static_vector)
| CtorMove (other : static_vector).

Inductive op : Type :=
| OpAt (index : Z)
| OpFront
| OpBack
| OpPushBack (init : T)
| OpPushBackMove (init : T)
| OpEmplaceBack (args : Args)
| OpPopBack
| OpInsert (pos : storage_iterator) (init : T)
| OpInsertMove (pos : storage_iterator) (init : T)
| OpErase (pos : storage_iterator)
| OpClear
| OpShrinkBy (count : Z)
| OpShrinkTo (count : Z)
| OpResize (count : Z)
| OpResizeInit (count : Z) (init : T)
| OpEraseRange (first last : storage_iterator)
| OpInsertCount (pos : storage_iterator) (count : Z) (init : T)
| OpInsertRange (pos : storage_iterator) (input : list Args)
| OpEmplaceBackMany (count : Z) (args : Args)
| OpEmplaceBackRange (input : list Args)
| OpCopyAssign (other : static_vector)
| OpMoveAssign (other : static_vector).

(** Single-element operations, as opposed to bulk ones. *)
Definition single_element (o : op) : bool :=
  match o with
  | OpPushBack _ | OpPushBackMove _ | OpEmplaceBack _
  | OpInsert _ _ | OpInsertMove _ _ => true
  | _ => false
  end.

Definition forget {A} (r : outcome E A) : outcome E unit :=
  match r with Return _ => Return () | Throw e => Throw e end.

Definition total {A} (r : outcome E A * machine)
  : option (outcome E unit * machine) :=
  Some (forget (fst r), snd r).

Definition returning (r : option machine) : option (outcome E unit * machine) :=
  match r with Some m => Some (Return (), m) | None => None end.

Definition forgetting {A} (r : option (outcome E A * machine))
  : option (outcome E unit * machine) :=
  match r with Some (r, m) => Some (forget r, m) | None => None end.

Definition run_ctor (c : ctor) (w : World) : option (outcome E unit * machine) :=
  match c with
  | CtorDefault => ctor_default w
  | CtorCount count => ctor_count count w
  | CtorCountInit count init => ctor_count_init count init w
  | CtorInPlace is_noexcept args => ctor_in_place is_noexcept args w
  | CtorCountInPlace count args => ctor_count_in_place count args w
  | CtorRange input => ctor_range input w
  | CtorCopy other => ctor_copy other w
  | CtorMove other => ctor_move other w
  end.

(** One call on the container, as the caller sees it: what it returned
    or threw, forgotten up to that, and the state it left; [None] when
    the call gives the caller nothing to observe. [erase (pos)] returns
    a value only through the [return] inside its [if], so for
    [pos == end ()] there is none. The positions, ranges and counts are
    passed on as they are: what the source requires of them is
    [valid_op], stated further down, and the theorems about [run_op]
    assume it. *)
Definition run_op (o : op) (m : machine) : option (outcome E unit * machine) :=
  match o with
  | OpAt index => total (at_ index m)
  | OpFront => total (front m)
  | OpBack => total (back m)
  | OpPushBack init => total (push_back init m)
  | OpPushBackMove init => total (push_back_move init m)
  | OpEmplaceBack args => total (emplace_back args m)
  | OpPopBack => Some (Return (), pop_back m)
  | OpInsert pos init => total (insert pos init m)
  | OpInsertMove pos init => total (insert_move pos init m)
  | OpErase pos =>
      match fst (erase pos m) with
      | Some _ => Some (Return (), snd (erase pos m))
      | None => None
      end
  | OpClear => returning (clear m)
  | OpShrinkBy count => returning (shrink_by count m)
  | OpShrinkTo count => returning (shrink_to count m)
  | OpResize count => resize count m
  | OpResizeInit count init => resize_init count init m
  | OpEraseRange first last =>
      returning (snd <$> erase_range first last m)
  | OpInsertCount pos count init => forgetting (insert_count pos count init m)
  | OpInsertRange pos input => forgetting (insert_range pos input m)
  | OpEmplaceBackMany count args => emplace_back_many count args m
  | OpEmplaceBackRange input => forgetting (emplace_back_range input m)
  | OpCopyAssign other => copy_assignment other m
  | OpMoveAssign other => move_assignment other m
  end.

(** A program on one container: a constructor, then operations; the
    caller catches what an operation throws and goes on. The result is
    the list of the states the caller observes, or [None] when a call
    gives the caller nothing to observe: it does not return, or, for
    [erase (end ())], control leaves the function without a [return]
    statement. An object whose constructor throws never exists. *)
Fixpoint run_ops (ops : list op) (m : machine) : option (list machine) :=
  match ops with
  | [] => Some []
  | o :: ops =>
      match run_op o m with
      | Some (_, m) =>
          match run_ops ops m with
          | Some ms => Some (m :: ms)
          | None => None
          end
      | None => None
      end
  end.

Definition run_program (c : ctor) (ops : list op) (w : World)
  : option (list machine) :=
  match run_ctor c w with
  | Some (Return _, m) =>
      match run_ops ops m with
      | Some ms => Some (m :: ms)
      | None => None
      end
  | Some (Throw _, _) => Some []
  | None => None
  end.

(** How many elements an operation is asked to add to the [size ()] it
    finds; zero for those that add none. *)
Definition demand (o : op) (m : machine) : Z :=
  match o with
  | OpPushBack _ | OpPushBackMove _ | OpEmplaceBack _
  | OpInsert _ _ | OpInsertMove _ _ => 1
  | OpResize count | OpResizeInit count _ =>
      Z.max 0 (count - Z.of_N (size m))
  | OpInsertCount _ count _ | OpEmplaceBackMany count _ => Z.max 0 count
  | OpInsertRange _ input | OpEmplaceBackRange input => Z.of_nat (length input)
  | OpCopyAssign other | OpMoveAssign other =>
      Z.of_nat (length (drop (N.to_nat (size m)) (elements other)))
  | _ => 0
  end.

(** How many elements a constructor is asked to build. *)
Definition ctor_demand (c : ctor) : Z :=
  match c with
  | CtorDefault => 0
  | CtorCount count | CtorCountInit count _ => Z.max 0 count
  | CtorInPlace _ args => Z.of_nat (length args)
  | CtorCountInPlace count args => Z.max (Z.of_nat (length args)) count
  | CtorRange input => Z.of_nat (length input)
  | CtorCopy other | CtorMove other => Z.of_nat (length (elements other))
  end.

(** The [std::integral auto] argument of an operation, if it has one. *)
Definition op_count (o : op) : option Z :=
  match o with
  | OpAt count | OpShrinkBy count | OpShrinkTo count | OpResize count
  | OpResizeInit count _ | OpInsertCount _ count _
  | OpEmplaceBackMany count _ => Some count
  | _ => None
  end.

Definition ctor_count_arg (c : ctor) : option Z :=
  match c with
  | CtorCount count | CtorCountInit count _ | CtorCountInPlace count _ =>
      Some count
  | _ => None
  end.

(** An integral argument is a value of some integer type. *)
Definition well_typed (o : op) : bool :=
  match op_count o with Some count => integral count | None => true end.

Definition well_typed_ctor (c : ctor) : bool :=
  match ctor_count_arg c with Some count => integral count | None => true end.

(** The calls that do not return: [shrink_to] with a negative target,
    directly or through [resize]. *)
Definition hangs (o : op) : bool :=
  match o with
  | OpShrinkTo count | OpResize count | OpResizeInit count _ => count <? 0
  | _ => false
  end.

(** No constructor of the element type throws. *)
Definition nothrow_constructible : Prop :=
  forall (args : Args) (w : World), exists x w', construct_at args w = (inr x, w').

(** What a loop of [emplace_back] that may add [added] elements leaves
    behind: the size has not gone down and stays within the capacity; if
    the loop ran to its end it has added exactly [added] elements; and it
    throws nothing but [std::logic_error] unless an element constructor
    threw. *)
Definition advances {A} (added : Z) (m : machine) (res : outcome E A * machine)
  : Prop :=
  (size m <= size (snd res) <= StaticSize)%N
  /\ (is_throw (fst res) = false ->
      Z.of_N (size (snd res)) = Z.of_N (size m) + added)
  /\ (nothrow_constructible -> benign (fst res) = true)
  /\ is_out_of_range (fst res) = false.

(** A finished call moreover leaves the size it found when it throws. *)
Definition grows_by {A} (added : Z) (m : machine) (res : outcome E A * machine)
  : Prop :=
  advances added m res
  /\ (is_throw (fst res) = true -> size (snd res) = size m).

(** The capacity rule for one call asked to add [asked] elements. *)
Definition respects_capacity {A} (asked : Z) (m : machine)
    (res : outcome E A * machine) : Prop :=
  (size (snd res) <= StaticSize)%N
  /\ (is_throw (fst res) = true -> size (snd res) = size m)
  /\ (Z.of_N (size m) + asked > Z.of_N StaticSize ->
      is_throw (fst res) = true
      /\ (nothrow_constructible -> is_logic_error (fst res) = true)).

(* -------------------------------------------------------------------- *)
(** ** Representation *)

(** The container that holds exactly the values [xs]. *)
Definition of_list (xs : list T) : static_vector :=
  Vec (N.of_nat (length xs))
      ((Some <$> xs) ++ replicate (N.to_nat StaticSize - length xs) uninit).

(** Slots [\[0, size)] are live, slots [\[size, capacity)] are not, and
    [size <= capacity]. *)
Definition wf (v : static_vector) : Prop :=
  exists xs : list T, (length xs <= N.to_nat StaticSize)%nat /\ v = of_list xs.

(** [m'] holds the elements of [m] followed by some more. *)
Definition extends (m m' : machine) : Prop :=
  exists xs ys : list T,
    (length (xs ++ ys) <= N.to_nat StaticSize)%nat
    /\ vec m = of_list xs /\ vec m' = of_list (xs ++ ys).

(** [*it] of [storage_iterator]: [return m_ptr->value ();], for a
    pointer into [m_storage]. *)
Definition deref (it : storage_iterator) (m : machine) : option T :=
  if m_ptr it <? 0 then None else value (slot_at (Z.to_N (m_ptr it)) m).

(** [it\[index\]] of [storage_iterator]:
    [return m_ptr\[index\].value ();] *)
Definition iter_subscript (it : storage_iterator) (index : Z) (m : machine)
  : option T :=
  if m_ptr it + index <? 0 then None
  else value (slot_at (Z.to_N (m_ptr it + index)) m).

(** Constructing from [args] always succeeds and gives the value [x]. *)
Definition constructs (args : Args) (x : T) : Prop :=
  forall w : World, exists w' : World, construct_at args w = (inr x, w').

(** A position of the container: [begin () <= pos <= end ()]. *)
Definition valid_pos (pos : storage_iterator) (m : machine) : Prop :=
  m_ptr (begin_ m) <= m_ptr pos <= m_ptr (end_ m).

(** [std::is_nothrow_copy_constructible_v<value_type>]: no copy
    construction throws. *)
Definition nothrow_copy_constructible : Prop :=
  forall (x : T) (w : World),
    exists y w', construct_at (copy_init x) w = (inr y, w').

(** What the operations require of their arguments: positions of the
    container, for [erase (pos)] one that designates an element; ranges
    the right way round; a count that is not negative where it is
    subtracted from [end ()]; for the assignments another container of
    the same type in its invariant, and for copy assignment an element
    type whose copies do not throw, the only one for which its body can
    be instantiated. *)
Definition valid_op (o : op) (m : machine) : Prop :=
  match o with
  | OpInsert pos _ | OpInsertMove pos _
  | OpInsertRange pos _ => valid_pos pos m
  | OpErase pos => m_ptr (begin_ m) <= m_ptr pos < m_ptr (end_ m)
  | OpInsertCount pos count _ => valid_pos pos m /\ 0 <= count
  | OpEraseRange first last =>
      valid_pos first m /\ valid_pos last m /\ m_ptr first <= m_ptr last
  | OpCopyAssign other => wf other /\ nothrow_copy_constructible
  | OpMoveAssign other => wf other
  | _ => True
  end.

(** What the constructors require: another container in its invariant
    to copy or move from, and for the variadic constructor with a target
    size [sizeof... (Args) <= StaticSize], which it declares in its
    [requires] clause. *)
Definition valid_ctor (c : ctor) : Prop :=
  match c with
  | CtorCopy other | CtorMove other => wf other
  | CtorCountInPlace _ args => (length args <= N.to_nat StaticSize)%nat
  | _ => True
  end.

(** Every operation of a sequence is called within its requirements, in
    the state the operations before it have left. *)
Fixpoint valid_ops (ops : list op) (m : machine) : Prop :=
  match ops with
  | [] => True
  | o :: ops =>
      valid_op o m
      /\ match run_op o m with
         | Some (_, m') => valid_ops ops m'
         | None => True
         end
  end.

Definition valid_program (c : ctor) (ops : list op) (w : World) : Prop :=
  valid_ctor c
  /\ match run_ctor c w with
     | Some (Return _, m) => valid_ops ops m
     | _ => True
     end.

(** What a caller sees of a program: the elements after each call. *)
Definition observed (r : option (list machine)) : option (list (list T)) :=
  match r with
  | Some ms => Some (elements ∘ vec <$> ms)
  | None => None
  end.

End Container.
End StaticVector.

(* ====================================================================== *)
(** * A concrete element type *)
(* ====================================================================== *)

(** [static_vector<int, 5>] with an element type whose constructors
    count: the ambient state is the number of constructions that will
    still succeed; once it is used up a construction throws. An empty
    argument pack value-initialises, one argument copies or moves it; a
    moved-from element reads [-1]. *)
Module Sample.
Import StorageIterator StaticVector.

Definition construct_at (args : option Z) (budget : nat) : (unit + Z) * nat :=
  match budget with
  | O => (inl (), O)
  | S budget => (inr (default 0 args), budget)
  end.

(** The same element type with constructors that never throw; the
    ambient state counts the constructions. *)
Definition construct_always (args : option Z) (count : nat)
  : (unit + Z) * nat :=
  (inr (default 0 args), S count).

Definition default_init : option Z := None.
Definition copy_init (x : Z) : option Z := Some x.
Definition move_init (x : Z) : option Z := Some x.
Definition moved_from (x : Z) : Z := -1.

Definition StaticSize : N := 5.

Definition holding (xs : list Z) (budget : nat) : machine :=
  Machine (of_list StaticSize xs) budget [].

End Sample.

(* ====================================================================== *)
(** * Verification *)
(* ====================================================================== *)

Import LazyStorage StorageIterator StaticVector.

(* ---------------------------------------------------------------------- *)
(** ** storage_iterator *)

Lemma pre_inc_spec (it : storage_iterator) :
  pre_inc it = (Iter (m_ptr it + 1), Iter (m_ptr it + 1)).
Proof. reflexivity. Qed.

Lemma pre_dec_spec (it : storage_iterator) :
  pre_dec it = (Iter (m_ptr it - 1), Iter (m_ptr it - 1)).
Proof. reflexivity. Qed.

(** Postfix increment has the standard meaning: the iterator advances by
    one and the call yields the position it had before. *)
Lemma post_inc_spec (it : storage_iterator) :
  post_inc it = (it, Iter (m_ptr it + 1)).
Proof. reflexivity. Qed.

(** C8 — postfix decrement moves the iterator back by one but answers
    with the iterator as it is after the move ([return *this;]), not
    with the copy taken before: whatever the position, the value
    returned differs from the one held before the call, which is what
    postfix increment returns. *)
Theorem post_dec_returns_updated_iterator (it : storage_iterator) :
  post_dec it = (Iter (m_ptr it - 1), Iter (m_ptr it - 1))
  /\ fst (post_dec it) <> it
  /\ fst (post_inc it) = it.
Proof.
  split; [reflexivity|]. split; [|reflexivity].
  destruct it as [p]. cbn. intros [=]. lia.
Qed.

(** At the third slot, [it--] yields the second slot. *)
Example post_dec_at_2 : fst (post_dec (Iter 2)) = Iter 1.
Proof. reflexivity. Qed.

(* ---------------------------------------------------------------------- *)
(** ** static_vector: sizes *)

Section Sizes.
Context {T E World Args : Type}.
Variable StaticSize : N.
Variable construct_at : Args -> World -> (E + T) * World.
Variable moved_from : T -> T.

Implicit Types (m : @machine T World) (count : Z) (fuel : nat).

Lemma size_pop_back m : size (pop_back m) = N.pred (size m).
Proof.
  unfold pop_back, empty.
  destruct (N.eqb_spec (size m) 0) as [Hz|Hz]; cbn.
  - rewrite Hz. reflexivity.
  - unfold size; cbn. lia.
Qed.

Lemma size_pops k m : size (pops k m) = (size m - N.of_nat k)%N.
Proof.
  revert m. induction k as [|k IH]; intros m; cbn [pops].
  - lia.
  - rewrite IH, size_pop_back. lia.
Qed.

Lemma pop_back_empty m : size m = 0%N -> pop_back m = m.
Proof. intros Hz. unfold pop_back, empty. rewrite Hz. reflexivity. Qed.

Lemma pops_empty k m : size m = 0%N -> pops k m = m.
Proof.
  intros Hz. induction k as [|k IH]; cbn [pops]; [reflexivity|].
  rewrite pop_back_empty by assumption. exact IH.
Qed.

Lemma world_pop_back m : world (pop_back m) = world m.
Proof. unfold pop_back. destruct (negb (empty m)); reflexivity. Qed.

(** With a negative target the loop of [shrink_to] is still running
    when the fuel is gone, however much there was. *)
Lemma shrink_to_loop_negative fuel count m :
  count < 0 -> shrink_to_loop fuel count m = None.
Proof.
  intros Hneg. revert m. induction fuel as [|fuel IH]; intros m; cbn.
  - reflexivity.
  - unfold cmp_less. destruct (Z.ltb_spec count (Z.of_N (size m))); [|lia].
    apply IH.
Qed.

(** With a target that is not negative it stops, having popped the
    elements above the target. *)
Lemma shrink_to_loop_pops fuel count m :
  0 <= count -> (N.to_nat (size m) < fuel)%nat ->
  shrink_to_loop fuel count m
  = Some (pops (N.to_nat (size m - Z.to_N count)) m).
Proof.
  intros Hc. revert m. induction fuel as [|fuel IH]; intros m Hfuel; [lia|].
  cbn [shrink_to_loop]. unfold cmp_less.
  destruct (Z.ltb_spec count (Z.of_N (size m))) as [Hlt|Hge].
  - rewrite IH by (rewrite size_pop_back; lia).
    rewrite size_pop_back.
    replace (N.to_nat (size m - Z.to_N count))
      with (S (N.to_nat (N.pred (size m) - Z.to_N count))) by lia.
    reflexivity.
  - replace (N.to_nat (size m - Z.to_N count)) with O by lia. reflexivity.
Qed.

Lemma shrink_to_pops count m :
  0 <= count ->
  shrink_to count m = Some (pops (N.to_nat (size m - Z.to_N count)) m).
Proof. intros Hc. apply shrink_to_loop_pops; [assumption|lia]. Qed.

Lemma shrink_to_negative count m : count < 0 -> shrink_to count m = None.
Proof. apply shrink_to_loop_negative. Qed.

(** Whatever the fuel, a loop that stopped had a target that is not
    negative and returned the same state. *)
Lemma shrink_to_loop_some fuel count m m' :
  shrink_to_loop fuel count m = Some m' ->
  0 <= count /\ m' = pops (N.to_nat (size m - Z.to_N count)) m.
Proof.
  intros Hrun. destruct (Z.lt_ge_cases count 0) as [Hneg|Hc].
  { rewrite shrink_to_loop_negative in Hrun by assumption. discriminate. }
  split; [assumption|].
  revert m Hrun. induction fuel as [|fuel IH]; intros m Hrun; [discriminate|].
  cbn [shrink_to_loop] in Hrun. unfold cmp_less in Hrun.
  destruct (Z.ltb_spec count (Z.of_N (size m))) as [Hlt|Hge].
  - apply IH in Hrun. rewrite size_pop_back in Hrun.
    replace (N.to_nat (size m - Z.to_N count))
      with (S (N.to_nat (N.pred (size m) - Z.to_N count))) by lia.
    exact Hrun.
  - replace (N.to_nat (size m - Z.to_N count)) with O by lia.
    injection Hrun as <-. reflexivity.
Qed.

(** [shrink_by] always stops: it pops [count] elements, all of them when
    there are fewer, none when [count] is negative. *)
Lemma shrink_by_loop_pops fuel count m :
  (N.to_nat (size m) < fuel)%nat ->
  shrink_by_loop fuel count m
  = Some (pops (N.to_nat (N.min (Z.to_N count) (size m))) m).
Proof.
  revert count m. induction fuel as [|fuel IH]; intros count m Hfuel; [lia|].
  cbn [shrink_by_loop]. unfold cmp_less, empty.
  destruct (Z.ltb_spec 0 count) as [Hpos|Hneg];
    destruct (N.eqb_spec (size m) 0) as [Hz|Hnz]; cbn [andb negb].
  - rewrite Hz. replace (N.to_nat (N.min (Z.to_N count) 0)) with O by lia.
    reflexivity.
  - rewrite IH by (rewrite size_pop_back; lia).
    rewrite size_pop_back.
    replace (N.to_nat (N.min (Z.to_N count) (size m)))
      with (S (N.to_nat (N.min (Z.to_N (count - 1)) (N.pred (size m))))) by lia.
    reflexivity.
  - replace (N.to_nat (N.min (Z.to_N count) (size m))) with O by lia.
    reflexivity.
  - replace (N.to_nat (N.min (Z.to_N count) (size m))) with O by lia.
    reflexivity.
Qed.

Lemma shrink_by_pops count m :
  shrink_by count m = Some (pops (N.to_nat (N.min (Z.to_N count) (size m))) m).
Proof. apply shrink_by_loop_pops. lia. Qed.

End Sizes.

(* ---------------------------------------------------------------------- *)
(** ** static_vector: emplace_back and the bulk loops *)

(** Writing back what a slot holds changes nothing. *)
Lemma insert_slot_id {A} (i : nat) (st : list (option A)) :
  <[i := default None (st !! i)]> st = st.
Proof.
  destruct (st !! i) as [s|] eqn:Hl; cbn.
  - apply list_insert_id. exact Hl.
  - apply list_insert_ge. apply lookup_ge_None. exact Hl.
Qed.

Section Growth.
Context {T E World Args : Type}.
Variable StaticSize : N.
Variable construct_at : Args -> World -> (E + T) * World.

Implicit Types (m : @machine T World) (count : Z) (fuel : nat) (args : Args).

Local Abbreviation emplace_back := (emplace_back StaticSize construct_at).
Local Abbreviation nothrow := (nothrow_constructible construct_at).

(** The three ways through [emplace_back]: the container is full; the
    construction succeeds; the construction throws and the handler pops
    the slot again. *)
Lemma emplace_back_cases args m :
  (full StaticSize m = true
   /\ emplace_back args m
      = (Throw (logic_error Messages.emplace_back_on_full), m))
  \/ (full StaticSize m = false
      /\ exists x w',
        construct_at args (world m) = (inr x, w')
        /\ emplace_back args m
           = (Return (size m),
              Machine (Vec (size m + 1)
                           (<[N.to_nat (size m) := Some x]> (m_storage (vec m))))
                      w'
                      (trace m ++ [EvConstruct (size m)
                                     (is_live (slot_at (size m) m))])))
  \/ (full StaticSize m = false
      /\ exists e w',
        construct_at args (world m) = (inl e, w')
        /\ emplace_back args m
           = (Throw (element_error e),
              Machine (Vec (size m)
                           (<[N.to_nat (size m) := None]> (m_storage (vec m))))
                      w'
                      ((trace m ++ [EvConstruct (size m)
                                      (is_live (slot_at (size m) m))])
                         ++ [EvDestroy (size m)
                               (is_live (slot_at (size m) m))]))).
Proof.
  unfold StaticVector.emplace_back.
  destruct (full StaticSize m) eqn:Hfull; [left; split; reflexivity|].
  right. destruct m as [[n st] w tr].
  cbv beta iota zeta delta
    [set_size with_vec size vec m_size m_storage world trace
     storage_construct construct slot_at].
  replace (n + 1 - 1)%N with n by lia.
  destruct (construct_at args w) as [[e|x] w'] eqn:Hc.
  - right. split; [reflexivity|]. exists e, w'. split; [reflexivity|].
    f_equal.
    cbv beta iota zeta delta
      [pop_back empty set_size with_vec size vec m_size m_storage world trace
       storage_destroy destroy slot_at].
    destruct (N.eqb_spec (n + 1) 0) as [Hz|_]; [lia|].
    cbv beta iota delta [negb].
    replace (n + 1 - 1)%N with n by lia.
    rewrite insert_slot_id. reflexivity.
  - left. split; [reflexivity|]. exists x, w'. split; [reflexivity|].
    replace (n + 1 - 1)%N with n by lia. reflexivity.
Qed.

Local Abbreviation advances := (advances StaticSize construct_at).
Local Abbreviation grows_by := (grows_by StaticSize construct_at).

Lemma benign_throw_logic_error {A} (r : outcome E A) :
  benign r = true -> is_throw r = true -> is_logic_error r = true.
Proof. destruct r as [a|[msg|msg|e]]; cbn; congruence. Qed.

Lemma full_false m :
  (size m <= StaticSize)%N -> full StaticSize m = false ->
  (size m < StaticSize)%N.
Proof.
  unfold full, max_size. intros Hle Hf.
  destruct (N.eqb_spec (size m) StaticSize); [discriminate|lia].
Qed.

Lemma emplace_back_grows args m :
  (size m <= StaticSize)%N -> grows_by 1 m (emplace_back args m).
Proof.
  intros Hle. unfold StaticVector.grows_by, StaticVector.advances.
  destruct (emplace_back_cases args m)
    as [[Hfull ->]|[(Hfull & x & w' & Hc & ->)|(Hfull & e & w' & Hc & ->)]];
    cbn [fst snd is_throw benign is_out_of_range size vec m_size].
  - repeat split; try lia; try congruence.
  - apply full_false in Hfull; [|assumption]. unfold size in *.
    repeat split; try lia; try congruence.
  - apply full_false in Hfull; [|assumption]. unfold size in *.
    repeat split; try lia; try congruence.
    intros Hnt. destruct (Hnt args (world m)) as (x & w'' & Hx). congruence.
Qed.

(** [emplace_back] throws [std::logic_error] exactly when the container
    is full. *)
Lemma emplace_back_logic_error args m :
  is_logic_error (fst (emplace_back args m)) = full StaticSize m.
Proof.
  destruct (emplace_back_cases args m)
    as [[Hfull ->]|[(Hfull & x & w' & Hc & ->)|(Hfull & e & w' & Hc & ->)]];
    rewrite Hfull; reflexivity.
Qed.

Lemma emplace_back_range_loop_advances input m :
  (size m <= StaticSize)%N ->
  advances (Z.of_nat (length input)) m
           (emplace_back_range_loop StaticSize construct_at input m).
Proof.
  revert m. induction input as [|a input IH]; intros m Hle.
  - cbn. unfold StaticVector.advances. cbn. repeat split; try lia; congruence.
  - cbn [emplace_back_range_loop].
    pose proof (emplace_back_grows a m Hle) as Hg.
    destruct (emplace_back a m) as [[i|e] m1].
    + destruct Hg as (((Hlo & Hhi) & Hret & _) & _). cbn [fst snd] in *.
      specialize (Hret eq_refl).
      destruct (IH m1 Hhi) as ((Hlo' & Hhi') & Hret' & Hnt & Hoor).
      unfold StaticVector.advances. repeat split; try assumption; try lia.
      intros Ht. specialize (Hret' Ht). cbn [length]. lia.
    + destruct Hg as ((Hsz & _ & Hnt & Hoor) & _). cbn [fst snd] in *.
      unfold StaticVector.advances. cbn [fst snd].
      repeat split; try assumption; try lia. cbn. congruence.
Qed.

Lemma emplace_back_many_loop_advances fuel i count args m :
  (size m <= StaticSize)%N ->
  (S (N.to_nat (StaticSize - size m)) < fuel)%nat ->
  exists res,
    emplace_back_many_loop StaticSize construct_at fuel i count args m = Some res
    /\ advances (Z.max 0 (count - Z.of_N i)) m res.
Proof.
  revert i m. induction fuel as [|fuel IH]; intros i m Hle Hfuel; [lia|].
  cbn [emplace_back_many_loop]. unfold cmp_less.
  destruct (Z.ltb_spec (Z.of_N i) count) as [Hlt|Hge].
  - pose proof (emplace_back_grows args m Hle) as Hg.
    destruct (emplace_back args m) as [[j|e] m1].
    + destruct Hg as (((Hlo & Hhi) & Hret & _) & _). cbn [fst snd] in *.
      specialize (Hret eq_refl).
      destruct (IH (i + 1)%N m1 Hhi) as (res & Hrun & Hadv); [lia|].
      exists res. split; [exact Hrun|].
      destruct Hadv as ((Hlo' & Hhi') & Hret' & Hnt & Hoor).
      unfold StaticVector.advances. repeat split; try assumption; try lia.
      intros Ht. specialize (Hret' Ht). lia.
    + eexists. split; [reflexivity|].
      destruct Hg as ((Hsz & _ & Hnt & Hoor) & _). cbn [fst snd] in *.
      unfold StaticVector.advances. cbn [fst snd].
      repeat split; try assumption; try lia. cbn. congruence.
  - eexists. split; [reflexivity|].
    unfold StaticVector.advances. cbn. repeat split; try lia; congruence.
Qed.

(** The handler of a bulk call pops what the loop had added. *)
Lemma rollback_pops {A} (previous_size : N) (e : exn E) m :
  rollback (A:=A) previous_size e m
  = Some (Throw e, pops (N.to_nat (size m - previous_size)) m).
Proof.
  unfold rollback. rewrite shrink_to_pops by lia.
  rewrite N2Z.id. reflexivity.
Qed.

Lemma rollback_grows {A B} added (previous : @machine T World)
    (r : outcome E B) (e : exn E) m :
  advances added previous (r, m) -> r = Throw e ->
  exists res,
    rollback (A:=A) (size previous) e m = Some res
    /\ grows_by added previous res.
Proof.
  intros ((Hlo & Hhi) & _ & Hnt & Hoor) ->. cbn [fst snd] in *.
  rewrite rollback_pops. eexists. split; [reflexivity|].
  unfold StaticVector.grows_by, StaticVector.advances. cbn [fst snd].
  rewrite size_pops. repeat split; try lia; try (cbn; congruence).
  - intros Hn. specialize (Hnt Hn). exact Hnt.
  - destruct e; cbn in *; congruence.
Qed.

Lemma emplace_back_many_grows count args m :
  (size m <= StaticSize)%N ->
  exists res,
    emplace_back_many StaticSize construct_at count args m = Some res
    /\ grows_by (Z.max 0 count) m res.
Proof.
  intros Hle. unfold emplace_back_many.
  destruct (emplace_back_many_loop_advances (bulk_fuel StaticSize m) 0 count
              args m Hle) as ([r m1] & -> & Hadv); [unfold bulk_fuel; lia|].
  replace (count - Z.of_N 0) with count in Hadv by lia.
  destruct r as [[]|e].
  - eexists. split; [reflexivity|]. split; [exact Hadv|]. cbn. congruence.
  - eapply rollback_grows; [exact Hadv|reflexivity].
Qed.

Lemma emplace_back_range_grows input m :
  (size m <= StaticSize)%N ->
  exists res,
    emplace_back_range StaticSize construct_at input m = Some res
    /\ grows_by (Z.of_nat (length input)) m res.
Proof.
  intros Hle. unfold emplace_back_range.
  pose proof (emplace_back_range_loop_advances input m Hle) as Hadv.
  destruct (emplace_back_range_loop StaticSize construct_at input m) as [r m1].
  destruct r as [[]|e].
  - eexists. split; [reflexivity|]. split; [exact Hadv|]. cbn. congruence.
  - eapply rollback_grows; [exact Hadv|reflexivity].
Qed.

(** When the loop ran to its end, [emplace_back_range] returns the number
    of elements it added. *)
Lemma emplace_back_range_returns input m n m' :
  (size m <= StaticSize)%N ->
  emplace_back_range StaticSize construct_at input m = Some (Return n, m') ->
  Z.of_N n = (Z.of_nat (length input)) mod size_max
  /\ Z.of_N (size m') = Z.of_N (size m) + Z.of_nat (length input).
Proof.
  intros Hle. unfold emplace_back_range.
  pose proof (emplace_back_range_loop_advances input m Hle) as Hadv.
  destruct (emplace_back_range_loop StaticSize construct_at input m) as [r m1].
  destruct r as [[]|e].
  - intros [= <- <-]. destruct Hadv as (_ & Hret & _). cbn [fst snd] in Hret.
    specialize (Hret eq_refl). split; [|exact Hret].
    unfold to_size_type. rewrite Z2N.id.
    + f_equal. lia.
    + apply Z.mod_pos_bound. reflexivity.
  - rewrite rollback_pops. discriminate.
Qed.

End Growth.

(* ---------------------------------------------------------------------- *)
(** ** static_vector: contents *)

Section Contents.
Context {T E World Args : Type}.
Variable StaticSize : N.
Variable construct_at : Args -> World -> (E + T) * World.
Variable moved_from : T -> T.

Implicit Types (m : @machine T World) (xs ys : list T) (x y : T)
  (w : World) (tr : list event).

Local Abbreviation cap := (N.to_nat StaticSize).
Local Abbreviation of_list := (@of_list T StaticSize).
Local Abbreviation emplace_back := (emplace_back StaticSize construct_at).

Lemma size_of_list xs : m_size (of_list xs) = N.of_nat (length xs).
Proof. reflexivity. Qed.

Lemma length_storage_of_list xs :
  (length xs <= cap)%nat -> length (m_storage (of_list xs)) = cap.
Proof.
  intros Hle. cbn. rewrite length_app, length_fmap, length_replicate. lia.
Qed.

Lemma lookup_of_list_live xs i x :
  xs !! i = Some x -> m_storage (of_list xs) !! i = Some (Some x).
Proof.
  intros Hl. cbn. rewrite lookup_app_l.
  - rewrite list_lookup_fmap, Hl. reflexivity.
  - rewrite length_fmap. eapply lookup_lt_Some. exact Hl.
Qed.

Lemma lookup_of_list_dead xs i :
  (length xs <= i)%nat -> default None (m_storage (of_list xs) !! i) = None.
Proof.
  intros Hle. cbn. rewrite lookup_app_r by (rewrite length_fmap; exact Hle).
  destruct (replicate _ _ !! _) as [s|] eqn:Hl; [|reflexivity].
  apply lookup_replicate in Hl as [-> _]. reflexivity.
Qed.

Lemma elements_of_list xs : elements (of_list xs) = xs.
Proof.
  unfold elements, StaticVector.of_list. cbn [m_size m_storage].
  rewrite Nat2N.id.
  rewrite take_app_length' by (rewrite length_fmap; reflexivity).
  induction xs as [|x xs IH]; [reflexivity|]. cbn. rewrite IH. reflexivity.
Qed.

Lemma of_list_inj xs ys : of_list xs = of_list ys -> xs = ys.
Proof. intros H. rewrite <- (elements_of_list xs), H. apply elements_of_list. Qed.

(** Killing the slot just above the elements of [xs]. *)
Lemma kill_last xs x :
  (length xs < cap)%nat ->
  <[length xs := None]> (m_storage (of_list (xs ++ [x])))
  = m_storage (of_list xs).
Proof.
  intros Hlt. unfold StaticVector.of_list. cbn [m_storage].
  rewrite fmap_app, <- app_assoc, length_app. cbn [length fmap list_fmap app].
  rewrite insert_app_r_alt by (rewrite length_fmap; lia).
  rewrite length_fmap, Nat.sub_diag. cbn [insert list_insert].
  replace (cap - length xs)%nat with (S (cap - (length xs + 1))) by lia.
  reflexivity.
Qed.

(** Killing a slot that holds nothing. *)
Lemma kill_dead xs :
  <[length xs := None]> (m_storage (of_list xs)) = m_storage (of_list xs).
Proof.
  rewrite <- (lookup_of_list_dead xs (length xs)) at 1 by lia.
  apply insert_slot_id.
Qed.

(** Filling the slot just above the elements of [xs]. *)
Lemma fill_next xs x :
  (length xs < cap)%nat ->
  <[length xs := Some x]> (m_storage (of_list xs))
  = m_storage (of_list (xs ++ [x])).
Proof.
  intros Hlt. unfold StaticVector.of_list. cbn [m_storage].
  rewrite fmap_app, <- app_assoc, length_app. cbn [length fmap list_fmap app].
  rewrite insert_app_r_alt by (rewrite length_fmap; lia).
  rewrite length_fmap, Nat.sub_diag.
  replace (cap - length xs)%nat with (S (cap - (length xs + 1))) by lia.
  reflexivity.
Qed.

Lemma pop_back_of_list xs x w tr :
  (length xs < cap)%nat ->
  pop_back (Machine (of_list (xs ++ [x])) w tr)
  = Machine (of_list xs) w (tr ++ [EvDestroy (N.of_nat (length xs)) true]).
Proof.
  intros Hlt. unfold pop_back, empty, size. cbn [vec].
  rewrite size_of_list, length_app. cbn [length].
  destruct (N.eqb_spec (N.of_nat (length xs + 1)) 0) as [Hz|_]; [lia|].
  cbv beta iota zeta delta
    [negb set_size with_vec storage_destroy destroy slot_at size vec m_size
     world trace].
  replace (N.of_nat (length xs + 1) - 1)%N with (N.of_nat (length xs)) by lia.
  rewrite Nat2N.id. cbn [m_storage]. rewrite kill_last by assumption.
  rewrite (lookup_of_list_live (xs ++ [x]) (length xs) x)
    by (rewrite lookup_app_r, Nat.sub_diag by lia; reflexivity).
  reflexivity.
Qed.

Lemma pop_back_nil w tr :
  pop_back (Machine (of_list []) w tr) = Machine (of_list []) w tr.
Proof. reflexivity. Qed.

(** [pop_back] and [pops] keep a prefix of the elements. *)
Lemma pops_of_list k xs w tr :
  (length xs <= cap)%nat ->
  vec (pops k (Machine (of_list xs) w tr)) = of_list (take (length xs - k) xs)
  /\ world (pops k (Machine (of_list xs) w tr)) = w.
Proof.
  revert xs tr. induction k as [|k IH]; intros xs tr Hle; cbn [pops].
  - rewrite Nat.sub_0_r, firstn_all. split; reflexivity.
  - destruct xs as [|x xs _] using rev_ind.
    + rewrite pop_back_nil. apply IH. assumption.
    + rewrite length_app in Hle. cbn in Hle.
      rewrite pop_back_of_list by lia.
      destruct (IH xs (tr ++ [EvDestroy (N.of_nat (length xs)) true]))
        as [Hv Hw]; [lia|].
      rewrite Hv, Hw. split; [|reflexivity]. f_equal.
      rewrite length_app. cbn [length].
      replace (length xs + 1 - S k)%nat with (length xs - k)%nat by lia.
      rewrite take_app_le by lia. reflexivity.
Qed.

(** [emplace_back] on a container in its representation invariant. *)
Lemma emplace_back_of_list args xs w tr :
  (length xs <= cap)%nat ->
  emplace_back args (Machine (of_list xs) w tr)
  = if (length xs =? cap)%nat then
      (Throw (logic_error Messages.emplace_back_on_full),
       Machine (of_list xs) w tr)
    else
      match construct_at args w with
      | (inr x, w') =>
          (Return (N.of_nat (length xs)),
           Machine (of_list (xs ++ [x])) w'
                   (tr ++ [EvConstruct (N.of_nat (length xs)) false]))
      | (inl e, w') =>
          (Throw (element_error e),
           Machine (of_list xs) w'
                   ((tr ++ [EvConstruct (N.of_nat (length xs)) false])
                      ++ [EvDestroy (N.of_nat (length xs)) false]))
      end.
Proof.
  intros Hle.
  destruct (emplace_back_cases StaticSize construct_at args
              (Machine (of_list xs) w tr))
    as [[Hfull ->]|[(Hfull & x & w' & Hc & ->)|(Hfull & e & w' & Hc & ->)]];
    unfold full, max_size, size in Hfull; cbn [vec world] in *;
    rewrite size_of_list in Hfull;
    destruct (N.eqb_spec (N.of_nat (length xs)) StaticSize) as [Heq|Hne];
    try discriminate.
  - replace (length xs =? cap)%nat with true
      by (symmetry; apply Nat.eqb_eq; lia).
    reflexivity.
  - replace (length xs =? cap)%nat with false
      by (symmetry; apply Nat.eqb_neq; lia).
    rewrite Hc. unfold size, slot_at. cbn [vec trace].
    rewrite size_of_list, Nat2N.id, lookup_of_list_dead by lia.
    rewrite fill_next by lia.
    replace (N.of_nat (length xs) + 1)%N with (N.of_nat (length (xs ++ [x])))
      by (rewrite length_app; cbn [length]; lia).
    reflexivity.
  - replace (length xs =? cap)%nat with false
      by (symmetry; apply Nat.eqb_neq; lia).
    rewrite Hc. unfold size, slot_at. cbn [vec trace].
    rewrite size_of_list, Nat2N.id, lookup_of_list_dead by lia.
    rewrite kill_dead. reflexivity.
Qed.

(** Rotating the block [C] in front of the block [B]. *)
Lemma rotate_slots_blocks (a b c d : list (@lazy_storage T)) :
  rotate_slots (length a) (length (a ++ b)) (length (a ++ b ++ c))
               (a ++ b ++ c ++ d)
  = a ++ c ++ b ++ d.
Proof.
  unfold rotate_slots, subrange.
  assert (H1 : (length a <=? length (a ++ b))%nat = true)
    by (apply Nat.leb_le; rewrite length_app; lia).
  assert (H2 : (length (a ++ b) <=? length (a ++ b ++ c))%nat = true)
    by (apply Nat.leb_le; rewrite !length_app; lia).
  assert (H3 : (length (a ++ b ++ c) <=? length (a ++ b ++ c ++ d))%nat = true)
    by (apply Nat.leb_le; rewrite !length_app; lia).
  rewrite H1, H2, H3. cbn [andb].
  assert (T1 : take (length (a ++ b ++ c)) (a ++ b ++ c ++ d) = a ++ b ++ c).
  { rewrite !(app_assoc a), (app_assoc (a ++ b)). apply take_app_length. }
  assert (T2 : take (length (a ++ b)) (a ++ b ++ c ++ d) = a ++ b).
  { rewrite (app_assoc a). apply take_app_length. }
  assert (D1 : drop (length (a ++ b ++ c)) (a ++ b ++ c ++ d) = d).
  { rewrite !(app_assoc a), (app_assoc (a ++ b)). apply drop_app_length. }
  assert (D2 : drop (length (a ++ b)) (a ++ b ++ c) = c).
  { rewrite (app_assoc a). apply drop_app_length. }
  rewrite take_app_length, T1, T2, D1, D2, drop_app_length. reflexivity.
Qed.

(** Moving the range [mid] one slot down, over [a]. *)
Lemma ranges_move_loop_down (pre mid post : list (@lazy_storage T))
    (a : @lazy_storage T) :
  ranges_move_loop moved_from (length mid) (S (length pre)) (length pre)
                   (pre ++ a :: mid ++ post)
  = pre ++ mid ++ [shifted moved_from a mid] ++ post.
Proof.
  revert pre a. induction mid as [|b mid IH]; intros pre a.
  - reflexivity.
  - cbn [length ranges_move_loop]. unfold move_assign.
    assert (Hb : (pre ++ a :: (b :: mid) ++ post) !! S (length pre) = Some b).
    { rewrite lookup_app_r by lia.
      replace (S (length pre) - length pre)%nat with 1%nat by lia.
      reflexivity. }
    rewrite Hb.
    assert (Hst : <[S (length pre) := moved_from <$> b]>
                    (<[length pre := b]> (pre ++ a :: (b :: mid) ++ post))
                  = (pre ++ [b]) ++ (moved_from <$> b) :: mid ++ post).
    { rewrite (insert_app_r_alt pre) by lia. rewrite Nat.sub_diag.
      cbn [insert list_insert app].
      rewrite (insert_app_r_alt pre) by lia.
      replace (S (length pre) - length pre)%nat with 1%nat by lia.
      cbn [insert list_insert app]. rewrite <- app_assoc. reflexivity. }
    rewrite Hst.
    replace (S (length pre)) with (length (pre ++ [b]))
      by (rewrite length_app; cbn; lia).
    rewrite IH, <- !app_assoc. cbn [app]. do 3 f_equal.
    unfold shifted.
    destruct mid as [|c mid]; [reflexivity|].
    change (last (b :: c :: mid)) with (last (c :: mid)).
    destruct (last (c :: mid)) eqn:Hl; [reflexivity|].
    apply last_None in Hl. discriminate.
Qed.

(** Rotating the appended block [ys] to position [p]. *)
Lemma ranges_rotate_of_list xs ys (p : nat) w tr (first middle last : storage_iterator) :
  (p <= length xs)%nat -> (length (xs ++ ys) <= cap)%nat ->
  m_ptr first = Z.of_nat p ->
  m_ptr middle = Z.of_nat (length xs) ->
  m_ptr last = Z.of_nat (length (xs ++ ys)) ->
  ranges_rotate first middle last (Machine (of_list (xs ++ ys)) w tr)
  = Machine (of_list (take p xs ++ ys ++ drop p xs)) w tr.
Proof.
  intros Hp Hcap Hf Hm Hl. unfold ranges_rotate. rewrite Hf, Hm, Hl.
  replace (0 <=? Z.of_nat p) with true by (symmetry; apply Z.leb_le; lia).
  replace (0 <=? Z.of_nat (length xs)) with true
    by (symmetry; apply Z.leb_le; lia).
  replace (0 <=? Z.of_nat (length (xs ++ ys))) with true
    by (symmetry; apply Z.leb_le; lia).
  cbn [andb]. rewrite !Nat2Z.id. unfold with_vec. cbn [vec world trace].
  f_equal. unfold StaticVector.of_list. cbn [m_size m_storage].
  assert (Hlen : length (take p xs ++ ys ++ drop p xs) = length (xs ++ ys)).
  { rewrite !length_app, length_take, length_drop. lia. }
  rewrite Hlen. f_equal.
  assert (Hsplit : Some <$> (xs ++ ys)
                   = (Some <$> take p xs) ++ (Some <$> drop p xs)
                       ++ (Some <$> ys) :> list (@lazy_storage T)).
  { rewrite <- !fmap_app, app_assoc, take_drop. reflexivity. }
  rewrite Hsplit, !fmap_app, <- !app_assoc.
  pose proof (rotate_slots_blocks (Some <$> take p xs) (Some <$> drop p xs)
                (Some <$> ys)
                (replicate (cap - length (xs ++ ys)) uninit)) as Hrot.
  rewrite <- !fmap_app, !length_fmap in Hrot.
  rewrite (take_drop p xs) in Hrot.
  rewrite length_take, Nat.min_l in Hrot by exact Hp.
  replace (length (take p xs ++ drop p xs ++ ys)) with (length (xs ++ ys))
    in Hrot by (rewrite app_assoc, take_drop; reflexivity).
  exact Hrot.
Qed.

(** Moving the tail of the elements one slot down, over the element at
    position [length pre]. *)
Lemma ranges_move_of_list pre a ys w tr (from upto dest : storage_iterator) :
  (length (pre ++ a :: ys) <= cap)%nat ->
  m_ptr dest = Z.of_nat (length pre) ->
  m_ptr from = Z.of_nat (length pre) + 1 ->
  m_ptr upto = Z.of_nat (length (pre ++ a :: ys)) ->
  ranges_move moved_from from upto dest
              (Machine (of_list (pre ++ a :: ys)) w tr)
  = Machine (of_list ((pre ++ ys)
                        ++ [default a (moved_from <$> last ys)])) w tr.
Proof.
  intros Hcap Hr Hf Hl. unfold ranges_move, distance, with_vec.
  rewrite Hr, Hf, Hl. cbn [vec world trace]. f_equal.
  unfold StaticVector.of_list. cbn [m_size m_storage].
  assert (Hlen : length ((pre ++ ys) ++ [default a (moved_from <$> last ys)])
                 = length (pre ++ a :: ys)).
  { rewrite !length_app. cbn [length]. lia. }
  rewrite Hlen. f_equal.
  replace (Z.to_nat (Z.of_nat (length (pre ++ a :: ys))
                     - (Z.of_nat (length pre) + 1)))
    with (length (Some <$> ys : list (@lazy_storage T)))
    by (rewrite length_fmap, length_app; cbn [length]; lia).
  replace (Z.to_nat (Z.of_nat (length pre) + 1))
    with (S (length (Some <$> pre : list (@lazy_storage T))))
    by (rewrite length_fmap; lia).
  replace (Z.to_nat (Z.of_nat (length pre)))
    with (length (Some <$> pre : list (@lazy_storage T)))
    by (rewrite length_fmap; lia).
  rewrite fmap_app, <- app_assoc. cbn [fmap list_fmap app].
  change (list_fmap T (option T) Some) with (fmap (M:=list) (@Some T)).
  rewrite ranges_move_loop_down.
  rewrite !fmap_app, <- !app_assoc. cbn [fmap list_fmap app].
  do 2 f_equal. unfold shifted. rewrite fmap_last.
  destruct (last ys); reflexivity.
Qed.

(** [erase] of the element at position [length pre]. *)
Lemma erase_of_list pre a ys w tr (pos : storage_iterator) :
  (length (pre ++ a :: ys) <= cap)%nat ->
  m_ptr pos = Z.of_nat (length pre) ->
  erase moved_from pos (Machine (of_list (pre ++ a :: ys)) w tr)
  = (Some pos,
     Machine (of_list (pre ++ ys)) w
             (tr ++ [EvDestroy (N.of_nat (length (pre ++ ys))) true])).
Proof.
  intros Hcap Hpos. unfold erase, eqb, end_, size. cbn [vec m_ptr].
  rewrite size_of_list, Hpos.
  assert (Hlen : length (pre ++ a :: ys) = S (length (pre ++ ys))).
  { rewrite !length_app. cbn [length]. lia. }
  destruct (Z.eqb_spec (Z.of_nat (length pre))
              (0 + Z.of_N (N.of_nat (length (pre ++ a :: ys))))) as [Heq|_].
  { rewrite length_app in Heq. cbn [length] in Heq. lia. }
  cbn [negb].
  rewrite (ranges_move_of_list pre a ys w tr); cbn [plus add_assign snd m_ptr];
    try assumption; try lia.
  rewrite pop_back_of_list by lia. reflexivity.
Qed.

(** Where [pos] is [end ()], [erase] leaves the function without a value
    to return and without touching the container. *)
Lemma erase_at_end m (pos : storage_iterator) :
  m_ptr pos = m_ptr (end_ m) -> erase moved_from pos m = (None, m).
Proof.
  intros Hpos. unfold erase, eqb. rewrite Hpos, Z.eqb_refl. reflexivity.
Qed.

End Contents.

(* ====================================================================== *)
(** * The properties of the container *)
(* ====================================================================== *)

Section Properties.
Context {T E World Args : Type}.
Variable StaticSize : N.
Variable construct_at : Args -> World -> (E + T) * World.
Variable default_init : Args.
Variable copy_init move_init : T -> Args.
Variable moved_from : T -> T.

Implicit Types (m : @machine T World) (xs ys : list T) (x y : T)
  (w : World) (tr : list event) (pos : storage_iterator).

Local Abbreviation cap := (N.to_nat StaticSize).
Local Abbreviation of_list := (@of_list T StaticSize).
Local Abbreviation wf := (@wf T StaticSize).
Local Abbreviation full := (@full T World StaticSize).
Local Abbreviation emplace_back := (emplace_back StaticSize construct_at).
Local Abbreviation push_back := (push_back StaticSize construct_at copy_init).
Local Abbreviation push_back_move :=
  (push_back_move StaticSize construct_at move_init).
Local Abbreviation insert := (insert StaticSize construct_at copy_init).
Local Abbreviation insert_move :=
  (insert_move StaticSize construct_at move_init).
Local Abbreviation erase := (erase moved_from).

Lemma wf_size m : wf (vec m) -> (size m <= StaticSize)%N.
Proof. intros (xs & Hle & Hv). unfold size. rewrite Hv. cbn. lia. Qed.

Lemma full_iff_size m : full m = true <-> size m = capacity StaticSize.
Proof. unfold StaticVector.full, max_size, capacity. apply N.eqb_eq. Qed.

(** C4 — [push_back] and [emplace_back] throw [std::logic_error], the
    full-container error, exactly when [full ()] holds at the call, that
    is when [size () == capacity ()]; and whenever the call throws, be it
    that error or an exception of the element's constructor, the size
    and the slots of the container are what they were before the call. *)
Theorem emplace_back_throws_iff_full_and_has_no_effect args init m :
  wf (vec m) ->
  (is_logic_error (fst (emplace_back args m)) = true <-> full m = true)
  /\ (full m = true <-> size m = capacity StaticSize)
  /\ (is_throw (fst (emplace_back args m)) = true ->
      vec (snd (emplace_back args m)) = vec m
      /\ size (snd (emplace_back args m)) = size m)
  /\ push_back init m = emplace_back (copy_init init) m
  /\ push_back_move init m = emplace_back (move_init init) m.
Proof.
  intros Hwf. split; [|split; [|split; [|split]]]; try reflexivity.
  - rewrite emplace_back_logic_error. reflexivity.
  - apply full_iff_size.
  - destruct m as [v w tr]. destruct Hwf as (xs & Hle & Hv).
    cbn [vec] in Hv. subst v.
    rewrite (emplace_back_of_list StaticSize construct_at) by exact Hle.
    destruct (length xs =? cap)%nat.
    + intros _. split; reflexivity.
    + destruct (construct_at args w) as [[e|x] w']; cbn [fst snd is_throw].
      * intros _. split; reflexivity.
      * discriminate.
Qed.

Lemma at_out_of_range index m :
  is_out_of_range (fst (at_ (E:=E) index m)) = true
  <-> ~ (0 <= index < Z.of_N (size m)).
Proof.
  unfold at_, cmp_less, cmp_less_equal.
  destruct (Z.ltb_spec index 0); destruct (Z.leb_spec (Z.of_N (size m)) index);
    cbn; split; intros; try lia; try reflexivity; try discriminate.
Qed.

Lemma at_unchanged index m : snd (at_ (E:=E) index m) = m.
Proof.
  unfold at_.
  destruct (cmp_less index 0 || cmp_less_equal (Z.of_N (size m)) index);
    reflexivity.
Qed.

Lemma at_in_range index m :
  wf (vec m) -> Z.of_N StaticSize < size_max ->
  0 <= index < Z.of_N (size m) ->
  exists x, elements (vec m) !! Z.to_nat index = Some x
            /\ fst (at_ (E:=E) index m) = Return (Some x).
Proof.
  intros (xs & Hle & Hv) H64 Hin. destruct m as [v w tr]. cbn [vec] in *.
  subst v. unfold size in Hin. cbn [vec] in Hin. rewrite size_of_list in Hin.
  destruct (lookup_lt_is_Some_2 xs (Z.to_nat index)) as [x Hx]; [lia|].
  exists x. rewrite elements_of_list. split; [exact Hx|].
  unfold at_, cmp_less, cmp_less_equal, size. cbn [vec].
  rewrite size_of_list.
  destruct (Z.ltb_spec index 0); [lia|].
  destruct (Z.leb_spec (Z.of_N (N.of_nat (length xs))) index); [lia|].
  cbn [orb fst]. unfold slot_at, value, to_size_type. cbn [vec].
  rewrite Z.mod_small by lia.
  rewrite Z_N_nat, (lookup_of_list_live StaticSize xs _ x Hx). reflexivity.
Qed.

Lemma back_nonempty m :
  Z.of_N StaticSize < size_max -> (size m <= StaticSize)%N -> size m <> 0%N ->
  back (E:=E) m = at_ (Z.of_N (size m) - 1) m.
Proof.
  intros H64 Hle Hnz. unfold back. rewrite Z.mod_small by lia. reflexivity.
Qed.

Lemma back_empty m :
  size m = 0%N -> is_out_of_range (fst (back (E:=E) m)) = true.
Proof. intros Hz. unfold back, at_. rewrite Hz. reflexivity. Qed.

Lemma front_empty m :
  size m = 0%N -> is_out_of_range (fst (front (E:=E) m)) = true.
Proof. intros Hz. unfold front, at_. rewrite Hz. reflexivity. Qed.

(** C9 — [at (i)] and [operator[] (i)] throw [std::out_of_range] exactly
    when [i] is outside [\[0, size ())], negative indices included, and
    otherwise give the element at position [i]; [front ()] is [at (0u)]
    and [back ()] is [at (size () - 1)], so both throw on an empty
    container; no access, failed or not, changes the container. *)
Theorem checked_access_throws_iff_out_of_range index m :
  wf (vec m) -> Z.of_N StaticSize < size_max ->
  (is_out_of_range (fst (at_ (E:=E) index m)) = true
   <-> ~ (0 <= index < Z.of_N (size m)))
  /\ (0 <= index < Z.of_N (size m) ->
      exists x, elements (vec m) !! Z.to_nat index = Some x
                /\ fst (at_ (E:=E) index m) = Return (Some x))
  /\ subscript (E:=E) index m = at_ index m
  /\ front (E:=E) m = at_ 0 m
  /\ (size m <> 0%N -> back (E:=E) m = at_ (Z.of_N (size m) - 1) m)
  /\ (size m = 0%N ->
      is_out_of_range (fst (front (E:=E) m)) = true
      /\ is_out_of_range (fst (back (E:=E) m)) = true)
  /\ snd (at_ (E:=E) index m) = m
  /\ snd (subscript (E:=E) index m) = m
  /\ snd (front (E:=E) m) = m
  /\ snd (back (E:=E) m) = m.
Proof.
  intros Hwf H64.
  split; [apply at_out_of_range|].
  split; [apply at_in_range; assumption|].
  split; [reflexivity|]. split; [reflexivity|].
  split; [apply back_nonempty; [assumption|apply wf_size; assumption]|].
  split; [intros Hz; split; [apply front_empty|apply back_empty]; exact Hz|].
  repeat split; apply at_unchanged.
Qed.

(** Appending one element and rotating it to position [p]: the body
    shared by the two overloads of [insert]. *)
Lemma append_and_rotate args xs (p : nat) w tr pos :
  (length xs < cap)%nat -> (p <= length xs)%nat -> m_ptr pos = Z.of_nat p ->
  match emplace_back args (Machine (of_list xs) w tr) with
  | (Throw e, m) => (Throw e, m)
  | (Return _, m) =>
      (Return pos, ranges_rotate pos (minus (end_ m) 1) (end_ m) m)
  end
  = match construct_at args w with
    | (inr x, w') =>
        (Return pos,
         Machine (of_list (take p xs ++ x :: drop p xs)) w'
                 (tr ++ [EvConstruct (N.of_nat (length xs)) false]))
    | (inl e, w') =>
        (Throw (element_error e),
         Machine (of_list xs) w'
                 ((tr ++ [EvConstruct (N.of_nat (length xs)) false])
                    ++ [EvDestroy (N.of_nat (length xs)) false]))
    end.
Proof.
  intros Hlt Hp Hpos.
  rewrite (emplace_back_of_list StaticSize construct_at) by lia.
  replace (length xs =? cap)%nat with false
    by (symmetry; apply Nat.eqb_neq; lia).
  destruct (construct_at args w) as [[e|x] w']; [reflexivity|].
  f_equal.
  apply (ranges_rotate_of_list StaticSize xs [x] p); try assumption.
  - rewrite length_app. cbn [length]. lia.
  - cbn. rewrite length_app. cbn [length]. lia.
  - cbn. lia.
Qed.

(** C7 — on a container that is not full and for a position in
    [\[begin (), end ()\]], [insert (pos, x)] either returns [pos],
    having put a new element at [pos] in front of the elements that were
    at and after it, and then [erase (pos)] returns [pos] and leaves a
    container with the size and slots of the original one; or the copy
    constructor of the element threw and the container is as it was. *)
Theorem insert_then_erase_restores pos init m :
  wf (vec m) -> full m = false ->
  m_ptr (begin_ m) <= m_ptr pos <= m_ptr (end_ m) ->
  match insert pos init m with
  | (Return it, m1) =>
      it = pos
      /\ (exists x,
            elements (vec m1)
            = take (Z.to_nat (m_ptr pos)) (elements (vec m))
                ++ x :: drop (Z.to_nat (m_ptr pos)) (elements (vec m)))
      /\ fst (erase pos m1) = Some pos
      /\ vec (snd (erase pos m1)) = vec m
      /\ elements (vec (snd (erase pos m1))) = elements (vec m)
  | (Throw e, m1) =>
      (exists e', e = element_error e') /\ vec m1 = vec m
  end.
Proof.
  intros (xs & Hle & Hv) Hfull Hpos. destruct m as [v w tr].
  cbn [vec] in Hv. subst v.
  unfold StaticVector.full, max_size, size in Hfull. cbn [vec] in Hfull.
  rewrite size_of_list in Hfull.
  destruct (N.eqb_spec (N.of_nat (length xs)) StaticSize) as [|Hne];
    [discriminate|].
  unfold begin_, end_, size in Hpos. cbn [vec m_ptr] in Hpos.
  rewrite size_of_list in Hpos.
  unfold StaticVector.insert.
  rewrite (append_and_rotate _ xs (Z.to_nat (m_ptr pos))) by lia.
  destruct (construct_at (copy_init init) w) as [[e|x] w'].
  - split; [exists e; reflexivity|reflexivity].
  - cbn [vec]. rewrite !elements_of_list.
    assert (Hlen : length (take (Z.to_nat (m_ptr pos)) xs)
                   = Z.to_nat (m_ptr pos))
      by (rewrite length_take; lia).
    rewrite (erase_of_list StaticSize moved_from
               (take (Z.to_nat (m_ptr pos)) xs) x
               (drop (Z.to_nat (m_ptr pos)) xs)).
    + cbn [fst snd vec]. rewrite take_drop, elements_of_list.
      repeat split. exists x. reflexivity.
    + rewrite length_app. cbn [length]. rewrite Hlen, length_drop. lia.
    + rewrite Hlen. lia.
Qed.

(** C3 — called with [end ()], [erase (pos)] leaves the container as it
    is, but it does not return [end ()]: the only [return] statement of
    the function is inside the [if (pos != end ())], so the call ends
    without a returned value. *)
Theorem erase_at_end_returns_no_iterator m :
  erase (end_ m) m = (None, m)
  /\ fst (erase (end_ m) m) <> Some (end_ m).
Proof.
  rewrite (erase_at_end moved_from m (end_ m) eq_refl).
  split; [reflexivity|discriminate].
Qed.

(** Before [end ()], [erase (pos)] moves the elements after [pos] one
    slot down, pops the last slot and returns [pos], which is then the
    position of the element that followed the erased one. *)
Lemma erase_before_end pos m :
  wf (vec m) -> m_ptr (begin_ m) <= m_ptr pos < m_ptr (end_ m) ->
  fst (erase pos m) = Some pos
  /\ elements (vec (snd (erase pos m)))
     = take (Z.to_nat (m_ptr pos)) (elements (vec m))
         ++ drop (S (Z.to_nat (m_ptr pos))) (elements (vec m))
  /\ wf (vec (snd (erase pos m)))
  /\ (size (snd (erase pos m)) = size m - 1)%N.
Proof.
  intros (xs & Hle & Hv) Hpos. destruct m as [v w tr].
  cbn [vec] in Hv. subst v.
  unfold begin_, end_, size in Hpos. cbn [vec m_ptr] in Hpos.
  rewrite size_of_list in Hpos.
  destruct (lookup_lt_is_Some_2 xs (Z.to_nat (m_ptr pos))) as [a Ha]; [lia|].
  pose proof (take_drop_middle xs _ a Ha) as Hsplit.
  assert (Hlen : length (take (Z.to_nat (m_ptr pos)) xs)
                 = Z.to_nat (m_ptr pos))
    by (rewrite length_take; lia).
  assert (He : erase pos (Machine (of_list xs) w tr)
               = (Some pos,
                  Machine (of_list (take (Z.to_nat (m_ptr pos)) xs
                                      ++ drop (S (Z.to_nat (m_ptr pos))) xs))
                          w
                          (tr ++ [EvDestroy
                                    (N.of_nat
                                       (length
                                          (take (Z.to_nat (m_ptr pos)) xs
                                             ++ drop (S (Z.to_nat (m_ptr pos)))
                                                  xs))) true]))).
  { rewrite <- Hsplit at 1.
    apply (erase_of_list StaticSize moved_from).
    - rewrite Hsplit. exact Hle.
    - rewrite Hlen. lia. }
  rewrite He. cbn [fst snd vec]. unfold size. cbn [vec].
  rewrite !elements_of_list, !size_of_list.
  assert (Hlen' : length (take (Z.to_nat (m_ptr pos)) xs
                            ++ drop (S (Z.to_nat (m_ptr pos))) xs)
                  = (length xs - 1)%nat)
    by (rewrite length_app, length_take, length_drop; lia).
  repeat split.
  - eexists. split; [|reflexivity]. rewrite Hlen'. lia.
  - rewrite Hlen'. lia.
Qed.

Local Abbreviation emplace_back_many :=
  (emplace_back_many StaticSize construct_at).
Local Abbreviation ctor_count :=
  (ctor_count StaticSize construct_at default_init).
Local Abbreviation ctor_count_init :=
  (ctor_count_init StaticSize construct_at copy_init).
Local Abbreviation resize := (resize StaticSize construct_at default_init).
Local Abbreviation resize_init :=
  (resize_init StaticSize construct_at copy_init).
Local Abbreviation fresh := (@fresh T World StaticSize).

Lemma emplace_back_many_nonpositive count args m :
  count <= 0 -> emplace_back_many count args m = Some (Return (), m).
Proof.
  intros Hc. unfold StaticVector.emplace_back_many, bulk_fuel.
  cbn [emplace_back_many_loop]. unfold cmp_less.
  destruct (Z.ltb_spec (Z.of_N 0) count); [lia|reflexivity].
Qed.

(** C10 — with a negative [count] the size constructor and the
    size-and-value constructor return without throwing and leave the
    members as their initialisers made them, an empty container; and
    [emplace_back_many (count, args...)] returns with the container, the
    state seen by the constructors and the trace of slot calls all
    unchanged: nothing was constructed. *)
Theorem negative_count_constructs_nothing count args init w m :
  count < 0 ->
  ctor_count count w = Some (Return (), fresh w)
  /\ ctor_count_init count init w = Some (Return (), fresh w)
  /\ size (fresh w) = 0%N
  /\ elements (vec (fresh w)) = []
  /\ trace (fresh w) = []
  /\ emplace_back_many count args m = Some (Return (), m).
Proof.
  intros Hneg.
  unfold StaticVector.ctor_count, StaticVector.ctor_count_init.
  rewrite !emplace_back_many_nonpositive by lia.
  repeat split.
Qed.

(** [shrink_by] returns for every argument, having popped
    [min (max (count, 0), size ())] elements from the end. *)
Lemma shrink_by_returns count m :
  wf (vec m) ->
  exists m',
    shrink_by count m = Some m'
    /\ Z.of_N (size m')
       = Z.of_N (size m) - Z.min (Z.max count 0) (Z.of_N (size m))
    /\ elements (vec m')
       = take (N.to_nat (size m')) (elements (vec m))
    /\ wf (vec m').
Proof.
  intros (xs & Hle & Hv). destruct m as [v w tr]. cbn [vec] in Hv. subst v.
  rewrite shrink_by_pops. eexists. split; [reflexivity|].
  rewrite size_pops.
  destruct (pops_of_list StaticSize
              (N.to_nat (N.min (Z.to_N count)
                               (size (Machine (of_list xs) w tr))))
              xs w tr Hle) as [Hv _].
  rewrite Hv. unfold size. cbn [vec].
  rewrite !elements_of_list, !size_of_list.
  split; [lia|]. split.
  - f_equal. lia.
  - eexists. split; [|reflexivity]. rewrite length_take. lia.
Qed.

(** [shrink_to] returns when its argument is not negative, having
    popped the elements above the target. *)
Lemma shrink_to_returns count m :
  wf (vec m) -> 0 <= count ->
  exists m',
    shrink_to count m = Some m'
    /\ Z.of_N (size m') = Z.min (Z.of_N (size m)) count
    /\ elements (vec m')
       = take (N.to_nat (size m')) (elements (vec m))
    /\ wf (vec m').
Proof.
  intros (xs & Hle & Hv) Hc. destruct m as [v w tr]. cbn [vec] in Hv. subst v.
  rewrite shrink_to_pops by exact Hc. eexists. split; [reflexivity|].
  rewrite size_pops.
  destruct (pops_of_list StaticSize
              (N.to_nat (size (Machine (of_list xs) w tr) - Z.to_N count))
              xs w tr Hle) as [Hv _].
  rewrite Hv. unfold size. cbn [vec].
  rewrite !elements_of_list, !size_of_list.
  split; [lia|]. split.
  - f_equal. lia.
  - eexists. split; [|reflexivity]. rewrite length_take. lia.
Qed.

(** C2 — [shrink_by] returns for every argument (see
    [shrink_by_returns]), and so does [shrink_to] for a target that is
    not negative (see [shrink_to_returns]); but for a negative target the
    condition of the loop of [shrink_to], [count < size ()], holds for
    ever, also once the container is empty and [pop_back] has nothing
    left to do: whatever the fuel, the loop has not returned, where
    [shrink_by] with the same argument returns at once. *)
Theorem shrink_to_negative_never_returns fuel (p : positive) m :
  shrink_to_loop fuel (Z.neg p) m = None
  /\ shrink_to (Z.neg p) m = None
  /\ shrink_by (Z.neg p) m = Some m.
Proof.
  split; [|split].
  - apply shrink_to_loop_negative. lia.
  - apply shrink_to_negative. lia.
  - rewrite shrink_by_pops.
    replace (N.to_nat (N.min (Z.to_N (Z.neg p)) (size m))) with O by lia.
    reflexivity.
Qed.

(** What the one-argument [resize] does when it grows the container: it
    calls [emplace_back_many (count)], so that a call that returns has
    added [count] elements, not [count - size ()]. *)
Lemma resize_grows_by_count count m :
  (size m <= StaticSize)%N -> Z.of_N (size m) < count ->
  exists res,
    resize count m = Some res
    /\ grows_by StaticSize construct_at count m res.
Proof.
  intros Hle Hgt. unfold StaticVector.resize, cmp_less_equal.
  destruct (Z.leb_spec count (Z.of_N (size m))); [lia|].
  destruct (emplace_back_many_grows StaticSize construct_at count
              default_init m Hle) as (res & Hrun & Hg).
  exists res. split; [exact Hrun|].
  replace (Z.max 0 count) with count in Hg by lia. exact Hg.
Qed.

(** The two-argument [resize] passes [count - size ()] on. *)
Lemma resize_init_grows_to_count count init m :
  (size m <= StaticSize)%N -> Z.of_N (size m) < count < size_max ->
  exists res,
    resize_init count init m = Some res
    /\ grows_by StaticSize construct_at (count - Z.of_N (size m)) m res.
Proof.
  intros Hle Hgt. unfold StaticVector.resize_init, cmp_less_equal.
  destruct (Z.leb_spec count (Z.of_N (size m))); [lia|].
  unfold to_size_type. rewrite (Z.mod_small count) by lia.
  rewrite Z2N.id by lia. rewrite Z.mod_small by lia.
  destruct (emplace_back_many_grows StaticSize construct_at
              (count - Z.of_N (size m)) (copy_init init) m Hle)
    as (res & Hrun & Hg).
  exists res. split; [exact Hrun|].
  replace (Z.max 0 (count - Z.of_N (size m))) with (count - Z.of_N (size m))
    in Hg by lia.
  exact Hg.
Qed.

(* ---------------------------------------------------------------------- *)
(** ** The capacity rule, operation by operation *)

Local Abbreviation respects_capacity :=
  (respects_capacity StaticSize construct_at).
Local Abbreviation grows_by := (grows_by StaticSize construct_at).
Local Abbreviation advances := (advances StaticSize construct_at).
Local Abbreviation nothrow := (nothrow_constructible construct_at).
Local Abbreviation run_op :=
  (run_op StaticSize construct_at default_init copy_init move_init moved_from).
Local Abbreviation run_ops :=
  (run_ops StaticSize construct_at default_init copy_init move_init moved_from).
Local Abbreviation run_ctor :=
  (run_ctor StaticSize construct_at default_init copy_init move_init).
Local Abbreviation run_program :=
  (run_program StaticSize construct_at default_init copy_init move_init
               moved_from).
Local Abbreviation valid_op := (valid_op StaticSize construct_at copy_init).
Local Abbreviation valid_ctor := (@valid_ctor T Args StaticSize).
Local Abbreviation valid_ops :=
  (valid_ops StaticSize construct_at default_init copy_init move_init
             moved_from).
Local Abbreviation valid_program :=
  (valid_program StaticSize construct_at default_init copy_init move_init
                 moved_from).

Lemma is_throw_forget {A} (r : outcome E A) : is_throw (forget r) = is_throw r.
Proof. destruct r; reflexivity. Qed.

Lemma is_logic_error_forget {A} (r : outcome E A) :
  is_logic_error (forget r) = is_logic_error r.
Proof. destruct r as [a|[]]; reflexivity. Qed.

Lemma respects_forget {A} asked m (r : outcome E A) m' :
  respects_capacity asked m (r, m') ->
  respects_capacity asked m (forget r, m').
Proof.
  unfold StaticVector.respects_capacity. cbn [fst snd].
  rewrite is_throw_forget, is_logic_error_forget. trivial.
Qed.

Lemma respects_unchanged {A} asked m (r : outcome E A) :
  (size m <= StaticSize)%N -> asked <= 0 -> respects_capacity asked m (r, m).
Proof.
  intros Hle Ha. unfold StaticVector.respects_capacity. cbn [fst snd].
  repeat split; try assumption; try lia.
Qed.

Lemma respects_shrunk {A} asked m (a : A) m' :
  (size m' <= size m)%N -> (size m <= StaticSize)%N -> asked <= 0 ->
  respects_capacity asked m (Return (E:=E) a, m').
Proof.
  intros Hs Hle Ha. unfold StaticVector.respects_capacity. cbn [fst snd].
  repeat split; try lia; try discriminate.
Qed.

Lemma respects_grown {A} added asked m (res : outcome E A * machine) :
  grows_by added m res -> asked <= added -> respects_capacity asked m res.
Proof.
  intros (((Hlo & Hhi) & Hret & Hnt & Hoor) & Hthrow) Ha.
  unfold StaticVector.respects_capacity.
  split; [exact Hhi|]. split; [exact Hthrow|].
  intros Hover.
  destruct (is_throw (fst res)) eqn:Ht.
  - split; [reflexivity|]. intros Hn.
    apply benign_throw_logic_error; [apply Hnt; exact Hn|exact Ht].
  - specialize (Hret eq_refl). lia.
Qed.

Lemma respects_thrown {A} added asked m (res : outcome E A * machine) :
  grows_by added m res -> is_throw (fst res) = true ->
  respects_capacity asked m res.
Proof.
  intros (((Hlo & Hhi) & Hret & Hnt & Hoor) & Hthrow) Ht.
  unfold StaticVector.respects_capacity.
  split; [exact Hhi|]. split; [exact Hthrow|].
  intros _. split; [exact Ht|]. intros Hn.
  apply benign_throw_logic_error; [apply Hnt; exact Hn|exact Ht].
Qed.

Lemma size_ranges_rotate (a b c : storage_iterator) m :
  size (ranges_rotate a b c m) = size m.
Proof.
  unfold ranges_rotate.
  destruct ((0 <=? m_ptr a) && (0 <=? m_ptr b) && (0 <=? m_ptr c));
    reflexivity.
Qed.

Lemma size_ranges_move (a b c : storage_iterator) m :
  size (ranges_move moved_from a b c m) = size m.
Proof. reflexivity. Qed.

Lemma size_ranges_copy (src : list T) (c : storage_iterator) m :
  size (ranges_copy src c m) = size m.
Proof. reflexivity. Qed.

Lemma size_erase pos m : (size (snd (erase pos m)) <= size m)%N.
Proof.
  unfold StaticVector.erase. destruct (negb (eqb pos (end_ m))); cbn [snd].
  - rewrite size_pop_back, size_ranges_move. lia.
  - lia.
Qed.

Lemma length_omap_le {A B} (f : A -> option B) (l : list A) :
  (length (omap f l) <= length l)%nat.
Proof.
  induction l as [|a l IH]; cbn; [lia|].
  destruct (f a); cbn; lia.
Qed.

Lemma length_elements (v : @static_vector T) :
  (length (elements v) <= N.to_nat (m_size v))%nat.
Proof.
  unfold elements. etransitivity; [apply length_omap_le|].
  rewrite length_take. lia.
Qed.

(** Before [end ()], [erase] returns its argument. *)
Lemma erase_returns_pos pos m :
  m_ptr pos <> m_ptr (end_ m) -> fst (erase pos m) = Some pos.
Proof.
  intros Hne. unfold StaticVector.erase, eqb.
  destruct (Z.eqb_spec (m_ptr pos) (m_ptr (end_ m))); [contradiction|].
  reflexivity.
Qed.

(** Appending then rotating, in the three forms [insert] has. *)
Lemma rotated_grows {A} added m (res : outcome E A * machine)
    (rot : A -> machine -> storage_iterator * storage_iterator * storage_iterator)
    pos :
  grows_by added m res ->
  grows_by added m
    (match res with
     | (Return a, m1) =>
         (Return pos,
          ranges_rotate (fst (fst (rot a m1))) (snd (fst (rot a m1)))
                        (snd (rot a m1)) m1)
     | (Throw e, m1) => (Throw e, m1)
     end).
Proof.
  destruct res as [[a|e] m1]; [|trivial].
  intros (((Hlo & Hhi) & Hret & Hnt & Hoor) & Hthrow).
  unfold StaticVector.grows_by, StaticVector.advances. cbn [fst snd] in *.
  rewrite size_ranges_rotate. repeat split; assumption.
Qed.

Lemma run_op_respects_capacity (o : op) m :
  (size m <= StaticSize)%N -> valid_op o m ->
  match run_op o m with
  | Some res =>
      respects_capacity (if well_typed o then demand o m else 0) m res
  | None => hangs o = true
  end.
Proof.
  intros Hle Hvalid.
  destruct o; cbn [StaticVector.run_op total returning forgetting well_typed
                   op_count demand hangs fst snd].
  - (* at *)
    apply respects_forget. rewrite (surjective_pairing (at_ index m)).
    rewrite at_unchanged. apply respects_unchanged; [exact Hle|].
    destruct (integral index); lia.
  - apply respects_forget. unfold front.
    rewrite (surjective_pairing (at_ 0 m)), at_unchanged.
    apply respects_unchanged; [exact Hle|lia].
  - apply respects_forget. unfold back.
    rewrite (surjective_pairing (at_ _ m)), at_unchanged.
    apply respects_unchanged; [exact Hle|lia].
  - (* push_back *)
    apply respects_forget. rewrite <- surjective_pairing.
    eapply respects_grown; [apply emplace_back_grows; exact Hle|lia].
  - apply respects_forget. rewrite <- surjective_pairing.
    eapply respects_grown; [apply emplace_back_grows; exact Hle|lia].
  - apply respects_forget. rewrite <- surjective_pairing.
    eapply respects_grown; [apply emplace_back_grows; exact Hle|lia].
  - (* pop_back *)
    apply respects_shrunk; [rewrite size_pop_back; lia|exact Hle|lia].
  - (* insert *)
    apply respects_forget. rewrite <- surjective_pairing.
    eapply respects_grown; [|reflexivity].
    apply (rotated_grows 1 m (emplace_back (copy_init init) m)
             (fun _ m1 => (pos, minus (end_ m1) 1, end_ m1)) pos).
    apply emplace_back_grows. exact Hle.
  - apply respects_forget. rewrite <- surjective_pairing.
    eapply respects_grown; [|reflexivity].
    apply (rotated_grows 1 m (emplace_back (move_init init) m)
             (fun _ m1 => (pos, minus (end_ m1) 1, end_ m1)) pos).
    apply emplace_back_grows. exact Hle.
  - (* erase *)
    cbn [StaticVector.valid_op] in Hvalid.
    rewrite erase_returns_pos by lia.
    apply respects_shrunk; [apply size_erase|exact Hle|lia].
  - (* clear *)
    unfold clear. rewrite shrink_to_pops by lia.
    apply respects_shrunk; [rewrite size_pops; lia|exact Hle|lia].
  - (* shrink_by *)
    rewrite shrink_by_pops.
    apply respects_shrunk; [rewrite size_pops; lia|exact Hle|].
    destruct (integral count); lia.
  - (* shrink_to *)
    destruct (Z.ltb_spec count 0) as [Hneg|Hc].
    + rewrite shrink_to_negative by exact Hneg. reflexivity.
    + rewrite shrink_to_pops by exact Hc.
      apply respects_shrunk; [rewrite size_pops; lia|exact Hle|].
      destruct (integral count); lia.
  - (* resize *)
    unfold StaticVector.resize, cmp_less_equal.
    destruct (Z.leb_spec count (Z.of_N (size m))) as [Hsmall|Hbig].
    + destruct (Z.ltb_spec count 0) as [Hneg|Hc].
      * rewrite shrink_to_negative by exact Hneg. reflexivity.
      * rewrite shrink_to_pops by exact Hc.
        apply respects_shrunk; [rewrite size_pops; lia|exact Hle|].
        destruct (integral count); lia.
    + destruct (emplace_back_many_grows StaticSize construct_at count
                  default_init m Hle) as (res & -> & Hg).
      eapply respects_grown; [exact Hg|].
      destruct (integral count); lia.
  - (* resize with a value *)
    unfold StaticVector.resize_init, cmp_less_equal.
    destruct (Z.leb_spec count (Z.of_N (size m))) as [Hsmall|Hbig].
    + destruct (Z.ltb_spec count 0) as [Hneg|Hc].
      * rewrite shrink_to_negative by exact Hneg. reflexivity.
      * rewrite shrink_to_pops by exact Hc.
        apply respects_shrunk; [rewrite size_pops; lia|exact Hle|].
        destruct (integral count); lia.
    + match goal with
      | |- context [StaticVector.emplace_back_many _ _ ?c ?a m] =>
          destruct (emplace_back_many_grows StaticSize construct_at c a m Hle)
            as (res & -> & Hg)
      end.
      eapply respects_grown; [exact Hg|].
      unfold integral. destruct (Z.leb_spec (- 2 ^ 63) count);
        destruct (Z.ltb_spec count size_max); cbn [andb]; try lia.
      unfold to_size_type. rewrite (Z.mod_small count) by lia.
      rewrite Z2N.id by lia. rewrite Z.mod_small by lia. lia.
  - (* erase of a range *)
    unfold erase_range. rewrite shrink_by_pops. cbn [fmap option_fmap option_map snd].
    apply respects_shrunk;
      [rewrite size_pops, size_ranges_move; lia|exact Hle|lia].
  - (* insert of count copies *)
    unfold insert_count.
    destruct (emplace_back_many_grows StaticSize construct_at count
                (copy_init init) m Hle) as (res & -> & Hg).
    pose proof (rotated_grows _ m res
                  (fun _ m1 => (pos, minus (end_ m1) count, end_ m1)) pos Hg)
      as Hrot.
    destruct res as [[[]|e] m1]; apply respects_forget;
      (eapply respects_grown; [exact Hrot|]); destruct (integral count); lia.
  - (* insert of a range *)
    unfold insert_range.
    destruct (emplace_back_range_grows StaticSize construct_at input m Hle)
      as (res & -> & Hg).
    pose proof (rotated_grows _ m res
                  (fun n m1 => (pos, minus (end_ m1) (Z.of_N n), end_ m1))
                  pos Hg) as Hrot.
    destruct res as [[n|e] m1]; apply respects_forget;
      (eapply respects_grown; [exact Hrot|lia]).
  - (* emplace_back_many *)
    destruct (emplace_back_many_grows StaticSize construct_at count args m Hle)
      as (res & -> & Hg).
    eapply respects_grown; [exact Hg|]. destruct (integral count); lia.
  - (* emplace_back_range *)
    destruct (emplace_back_range_grows StaticSize construct_at input m Hle)
      as ([r m1] & -> & Hg).
    apply respects_forget. eapply respects_grown; [exact Hg|lia].
  - (* copy assignment *)
    unfold copy_assignment.
    destruct (N.leb_spec (size m) (m_size other)) as [Hsmall|Hbig].
    + match goal with
      | |- context [StaticVector.emplace_back_range _ _ ?i ?m1] =>
          destruct (emplace_back_range_grows StaticSize construct_at i m1 Hle)
            as ([r m2] & -> & Hg)
      end.
      rewrite length_fmap in Hg.
      destruct r as [k|e].
      * apply (respects_forget _ m (Return k) m2).
        eapply respects_grown; [exact Hg|lia].
      * apply (respects_forget _ m (Throw (A:=N) e) m2).
        eapply respects_grown; [exact Hg|lia].
    + rewrite shrink_to_pops by lia.
      apply respects_shrunk;
        [rewrite size_pops, size_ranges_copy; lia|exact Hle|].
      pose proof (length_elements other) as Hlen.
      rewrite length_drop. lia.
  - (* move assignment *)
    unfold move_assignment.
    destruct (N.leb_spec (size m) (m_size other)) as [Hsmall|Hbig].
    + match goal with
      | |- context [StaticVector.emplace_back_range _ _ ?i ?m1] =>
          destruct (emplace_back_range_grows StaticSize construct_at i m1 Hle)
            as ([r m2] & -> & Hg)
      end.
      rewrite length_fmap in Hg.
      destruct r as [k|e].
      * apply (respects_forget _ m (Return k) m2).
        eapply respects_grown; [exact Hg|lia].
      * apply (respects_forget _ m (Throw (A:=N) e) m2).
        eapply respects_grown; [exact Hg|lia].
    + rewrite shrink_to_pops by lia.
      apply respects_shrunk;
        [rewrite size_pops, size_ranges_copy; lia|exact Hle|].
      pose proof (length_elements other) as Hlen.
      rewrite length_drop. lia.
Qed.

Lemma hangs_never_returns (o : op) m : hangs o = true -> run_op o m = None.
Proof.
  destruct o; cbn [hangs]; try discriminate; intros Hneg;
    apply Z.ltb_lt in Hneg; cbn [StaticVector.run_op returning].
  - rewrite shrink_to_negative by exact Hneg. reflexivity.
  - unfold StaticVector.resize, cmp_less_equal.
    destruct (Z.leb_spec count (Z.of_N (size m))); [|lia].
    rewrite shrink_to_negative by exact Hneg. reflexivity.
  - unfold StaticVector.resize_init, cmp_less_equal.
    destruct (Z.leb_spec count (Z.of_N (size m))); [|lia].
    rewrite shrink_to_negative by exact Hneg. reflexivity.
Qed.

(** The handler of the constructors empties the container. *)
Lemma catch_clear_grows {A} added (m0 : machine) (res : outcome E A * machine) :
  size m0 = 0%N -> advances added m0 res ->
  exists res',
    catch_clear res = Some res' /\ grows_by added m0 res'.
Proof.
  intros Hz Hadv. destruct res as [[a|e] m1]; cbn [catch_clear].
  - eexists. split; [reflexivity|]. split; [exact Hadv|discriminate].
  - unfold clear. rewrite shrink_to_pops by lia. eexists.
    split; [reflexivity|].
    destruct Hadv as ((Hlo & Hhi) & Hret & Hnt & Hoor). cbn [fst snd] in *.
    unfold StaticVector.grows_by, StaticVector.advances. cbn [fst snd].
    rewrite size_pops. repeat split; try assumption; try lia.
    discriminate.
Qed.

Lemma size_fresh w : size (fresh w) = 0%N.
Proof. reflexivity. Qed.

Lemma run_ctor_respects_capacity (c : ctor) w :
  match run_ctor c w with
  | Some res =>
      respects_capacity (if well_typed_ctor c then ctor_demand c else 0)
                        (fresh w) res
  | None => match c with CtorInPlace true _ => True | _ => False end
  end.
Proof.
  assert (H0 : (size (fresh w) <= StaticSize)%N) by (rewrite size_fresh; lia).
  destruct c; cbn [StaticVector.run_ctor well_typed_ctor ctor_count_arg
                   ctor_demand].
  - (* default *)
    unfold ctor_default. apply respects_unchanged; [exact H0|lia].
  - unfold StaticVector.ctor_count.
    destruct (emplace_back_many_grows StaticSize construct_at count
                default_init (fresh w) H0) as (res & -> & Hg).
    eapply respects_grown; [exact Hg|]. destruct (integral count); lia.
  - unfold StaticVector.ctor_count_init.
    destruct (emplace_back_many_grows StaticSize construct_at count
                (copy_init init) (fresh w) H0) as (res & -> & Hg).
    eapply respects_grown; [exact Hg|]. destruct (integral count); lia.
  - (* in place *)
    unfold ctor_in_place.
    pose proof (emplace_back_range_loop_advances StaticSize construct_at args
                  (fresh w) H0) as Hadv.
    destruct is_noexcept.
    + destruct (emplace_back_range_loop StaticSize construct_at args (fresh w))
        as [[[]|e] m1]; [|exact I].
      eapply respects_grown; [|reflexivity].
      split; [exact Hadv|discriminate].
    + destruct (catch_clear_grows _ (fresh w) _ (size_fresh w) Hadv)
        as (res & -> & Hg).
      eapply respects_grown; [exact Hg|reflexivity].
  - (* count, in place *)
    unfold ctor_count_in_place.
    pose proof (emplace_back_range_loop_advances StaticSize construct_at args
                  (fresh w) H0) as Hadv.
    destruct (emplace_back_range_loop StaticSize construct_at args (fresh w))
      as [[[]|e] m1].
    + destruct Hadv as ((Hlo & Hhi) & Hret & Hnt & Hoor). cbn [fst snd] in *.
      specialize (Hret eq_refl). rewrite size_fresh in Hret.
      unfold cmp_less.
      destruct (Z.ltb_spec (Z.of_nat (length args)) count) as [Hlt|Hge].
      * match goal with
        | |- context [StaticVector.emplace_back_many _ _ ?k ?a m1] =>
            destruct (emplace_back_many_grows StaticSize construct_at k a m1
                        Hhi) as (res & -> & Hg); set (added := k) in *
        end.
        assert (Hadv' : advances (Z.of_nat (length args) + Z.max 0 added)
                                 (fresh w) res).
        { destruct Hg as (((Hlo' & Hhi') & Hret' & Hnt' & Hoor') & _).
          unfold StaticVector.advances. rewrite size_fresh.
          repeat split; try assumption; try lia.
          intros Ht. specialize (Hret' Ht). lia. }
        destruct (catch_clear_grows _ (fresh w) _ (size_fresh w) Hadv')
          as (res' & -> & Hg').
        eapply respects_grown; [exact Hg'|].
        unfold integral. destruct (Z.leb_spec (- 2 ^ 63) count);
          destruct (Z.ltb_spec count size_max); cbn [andb]; try lia.
        subst added. unfold to_size_type.
        rewrite (Z.mod_small count) by lia.
        rewrite Z2N.id by lia. rewrite Z.mod_small by lia. lia.
      * eapply (respects_grown (Z.of_nat (length args)));
          [|destruct (integral count); lia].
        unfold StaticVector.grows_by, StaticVector.advances. cbn [fst snd].
        rewrite size_fresh.
        repeat split; try assumption; try lia; try discriminate.
    + destruct (catch_clear_grows (A:=unit) _ (fresh w) (Throw e, m1)
                  (size_fresh w) Hadv) as (res & Hrun & Hg).
      rewrite Hrun. eapply respects_thrown; [exact Hg|].
      cbn [catch_clear] in Hrun. unfold clear in Hrun.
      rewrite shrink_to_pops in Hrun by lia. injection Hrun as <-.
      reflexivity.
  - (* range *)
    unfold ctor_range.
    pose proof (emplace_back_range_loop_advances StaticSize construct_at input
                  (fresh w) H0) as Hadv.
    destruct (catch_clear_grows _ (fresh w) _ (size_fresh w) Hadv)
      as (res & -> & Hg).
    eapply respects_grown; [exact Hg|reflexivity].
  - (* copy *)
    unfold ctor_copy, ctor_range.
    pose proof (emplace_back_range_loop_advances StaticSize construct_at
                  (copy_init <$> elements other) (fresh w) H0) as Hadv.
    destruct (catch_clear_grows _ (fresh w) _ (size_fresh w) Hadv)
      as (res & -> & Hg).
    rewrite length_fmap in Hg.
    eapply respects_grown; [exact Hg|reflexivity].
  - (* move *)
    unfold ctor_move, ctor_range.
    pose proof (emplace_back_range_loop_advances StaticSize construct_at
                  (move_init <$> elements other) (fresh w) H0) as Hadv.
    destruct (catch_clear_grows _ (fresh w) _ (size_fresh w) Hadv)
      as (res & -> & Hg).
    rewrite length_fmap in Hg.
    eapply respects_grown; [exact Hg|reflexivity].
Qed.

Lemma run_ops_sizes (ops : list op) m ms :
  (size m <= StaticSize)%N -> valid_ops ops m -> run_ops ops m = Some ms ->
  Forall (fun m' => (size m' <= StaticSize)%N) ms.
Proof.
  revert m ms. induction ops as [|o ops IH]; intros m ms Hle Hvalid Hrun.
  - injection Hrun as <-. constructor.
  - cbn [StaticVector.run_ops] in Hrun.
    cbn [StaticVector.valid_ops] in Hvalid. destruct Hvalid as (Hv & Hvs).
    pose proof (run_op_respects_capacity o m Hle Hv) as Hop.
    destruct (run_op o m) as [[r m1]|]; [|discriminate].
    destruct Hop as (Hle1 & _). cbn [snd] in Hle1.
    destruct (run_ops ops m1) as [ms1|] eqn:Hrest; [|discriminate].
    injection Hrun as <-. constructor; [exact Hle1|].
    eapply IH; [exact Hle1|exact Hvs|exact Hrest].
Qed.

Lemma run_ops_returns (ops : list op) m :
  (size m <= StaticSize)%N -> valid_ops ops m ->
  Forall (fun o => hangs o = false) ops ->
  exists ms, run_ops ops m = Some ms.
Proof.
  revert m. induction ops as [|o ops IH]; intros m Hle Hvalid Hops.
  - exists []. reflexivity.
  - inversion Hops as [|? ? Ho Hrest]; subst.
    cbn [StaticVector.run_ops].
    cbn [StaticVector.valid_ops] in Hvalid. destruct Hvalid as (Hv & Hvs).
    pose proof (run_op_respects_capacity o m Hle Hv) as Hop.
    destruct (run_op o m) as [[r m1]|]; [|congruence].
    destruct Hop as (Hle1 & _). cbn [snd] in Hle1.
    destruct (IH m1 Hle1 Hvs Hrest) as (ms & ->). eexists. reflexivity.
Qed.

(** C6 — for constructors and operations called within their
    requirements ([valid_ctor], [valid_op]: positions of the container,
    for [erase (pos)] one before [end ()], ranges the right way round, a
    count to insert that is not negative, containers to copy from in
    their invariant): [size () <= capacity ()] at every point a caller
    can observe, after a constructor that returned and after every
    operation of any sequence that follows it, whether the operation
    returned or threw. A constructor or an operation asked for more
    elements than fit throws, and throws [std::logic_error] unless a
    constructor of the element type threw first; an operation that
    throws, single-element or bulk, leaves [size ()] as it found it, and
    a constructor that throws leaves no element. Every such operation
    returns or throws, except [shrink_to] and [resize] with a negative
    argument, and so does every program without such a call (the
    variadic constructor declared [noexcept] ends the program when an
    exception leaves it). *)
Theorem size_never_exceeds_capacity :
  (forall (c : ctor) (ops : list op) w ms,
      valid_program c ops w ->
      run_program c ops w = Some ms ->
      Forall (fun m => (size m <= capacity StaticSize)%N) ms)
  /\ (forall (c : ctor) w,
         valid_ctor c -> well_typed_ctor c = true ->
         match run_ctor c w with
         | Some (r, m) =>
             (size m <= capacity StaticSize)%N
             /\ (is_throw r = true -> size m = 0%N)
             /\ (ctor_demand c > Z.of_N (capacity StaticSize) ->
                 is_throw r = true
                 /\ (nothrow -> is_logic_error r = true))
         | None => match c with CtorInPlace true _ => True | _ => False end
         end)
  /\ (forall (o : op) m,
         wf (vec m) -> valid_op o m -> well_typed o = true ->
         match run_op o m with
         | Some (r, m') =>
             (size m' <= capacity StaticSize)%N
             /\ (is_throw r = true -> size m' = size m)
             /\ (Z.of_N (size m) + demand o m > Z.of_N (capacity StaticSize) ->
                 is_throw r = true
                 /\ (nothrow -> is_logic_error r = true))
         | None => hangs o = true
         end)
  /\ (forall (c : ctor) (ops : list op) w,
         valid_program c ops w ->
         match c with CtorInPlace true _ => False | _ => True end ->
         Forall (fun o => hangs o = false) ops ->
         exists ms, run_program c ops w = Some ms).
Proof.
  unfold capacity. split; [|split; [|split]].
  - intros c ops w ms (_ & Hvalid) Hrun.
    unfold StaticVector.run_program in Hrun.
    pose proof (run_ctor_respects_capacity c w) as Hc.
    destruct (run_ctor c w) as [[[[]|e] m]|]; [| |discriminate].
    + destruct Hc as (Hle & _). cbn [snd] in Hle.
      destruct (run_ops ops m) as [ms1|] eqn:Hrest; [|discriminate].
      injection Hrun as <-. constructor; [exact Hle|].
      eapply run_ops_sizes; [exact Hle|exact Hvalid|exact Hrest].
    + injection Hrun as <-. constructor.
  - intros c w _ Hty. pose proof (run_ctor_respects_capacity c w) as Hc.
    rewrite Hty in Hc.
    destruct (run_ctor c w) as [[r m]|]; [|exact Hc].
    exact Hc.
  - intros o m Hwf Hvalid Hty.
    pose proof (run_op_respects_capacity o m (wf_size m Hwf) Hvalid) as Hop.
    rewrite Hty in Hop.
    destruct (run_op o m) as [[r m']|]; exact Hop.
  - intros c ops w (_ & Hvalid) Hc Hops. unfold StaticVector.run_program.
    pose proof (run_ctor_respects_capacity c w) as Hrun.
    destruct (run_ctor c w) as [[[[]|e] m]|].
    + destruct Hrun as (Hle & _). cbn [snd] in Hle.
      destruct (run_ops_returns ops m Hle Hvalid Hops) as (ms & ->).
      eexists. reflexivity.
    + eexists. reflexivity.
    + destruct c as [| | |[] ?| | | |]; contradiction.
Qed.

(** The slot calls of [emplace_back] on a container that is not full and
    respects the representation invariant: one [construct] on the dead
    slot at index [size ()], and, when the constructor throws, one
    [destroy] on that same slot, which holds no object. *)
Lemma emplace_back_slot_calls args m :
  wf (vec m) -> full m = false ->
  exists r w',
    construct_at args (world m) = (r, w')
    /\ trace (snd (emplace_back args m))
       = trace m
           ++ EvConstruct (size m) false
              :: match r with
                 | inl _ => [EvDestroy (size m) false]
                 | inr _ => []
                 end.
Proof.
  intros (xs & Hle & Hv) Hfull. destruct m as [v w tr].
  cbn [vec] in Hv. subst v.
  unfold StaticVector.full, max_size, size in Hfull. cbn [vec] in Hfull.
  rewrite size_of_list in Hfull.
  destruct (N.eqb_spec (N.of_nat (length xs)) StaticSize) as [|Hne];
    [discriminate|].
  rewrite (emplace_back_of_list StaticSize construct_at) by exact Hle.
  replace (length xs =? cap)%nat with false
    by (symmetry; apply Nat.eqb_neq; lia).
  cbn [world trace]. unfold size. cbn [vec]. rewrite size_of_list.
  destruct (construct_at args w) as [[e|x] w']; eexists _, _;
    (split; [reflexivity|]); cbn [snd trace].
  - rewrite <- app_assoc. reflexivity.
  - reflexivity.
Qed.

End Properties.

(* ---------------------------------------------------------------------- *)
(** ** The representation invariant through the bulk operations *)

Section Bulk.
Context {T E World Args : Type}.
Variable StaticSize : N.
Variable construct_at : Args -> World -> (E + T) * World.
Variable moved_from : T -> T.

Implicit Types (m : @machine T World) (xs ys : list T)
  (w : World) (tr : list event).

Local Abbreviation cap := (N.to_nat StaticSize).
Local Abbreviation of_list := (@of_list T StaticSize).
Local Abbreviation wf := (@wf T StaticSize).

Local Abbreviation extends := (@extends T World StaticSize).

Lemma extends_refl m : wf (vec m) -> extends m m.
Proof.
  intros (xs & Hle & Hv). exists xs, []. rewrite app_nil_r.
  repeat split; assumption.
Qed.

Lemma extends_trans m1 m2 m3 : extends m1 m2 -> extends m2 m3 -> extends m1 m3.
Proof.
  intros (xs & ys & Hle & H1 & H2) (xs' & zs & Hle' & H2' & H3).
  rewrite H2 in H2'. apply of_list_inj in H2'. subst xs'.
  exists xs, (ys ++ zs). rewrite app_assoc. repeat split; assumption.
Qed.

Lemma extends_wf m m' : extends m m' -> wf (vec m').
Proof. intros (xs & ys & Hle & _ & Hv). exists (xs ++ ys). split; assumption. Qed.

Lemma emplace_back_extends args m :
  wf (vec m) -> extends m (snd (emplace_back StaticSize construct_at args m)).
Proof.
  intros (xs & Hle & Hv). destruct m as [v w tr]. cbn [vec] in Hv. subst v.
  rewrite (emplace_back_of_list StaticSize construct_at) by exact Hle.
  destruct (Nat.eqb_spec (length xs) cap) as [Heq|Hne].
  - apply extends_refl. exists xs. split; [exact Hle|reflexivity].
  - destruct (construct_at args w) as [[e|x] w']; cbn [snd].
    + exists xs, []. rewrite app_nil_r. repeat split. exact Hle.
    + exists xs, [x]. repeat split. rewrite length_app. cbn [length]. lia.
Qed.

Lemma emplace_back_range_loop_extends (input : list Args) m :
  wf (vec m) ->
  extends m (snd (emplace_back_range_loop StaticSize construct_at input m)).
Proof.
  revert m. induction input as [|a input IH]; intros m Hwf.
  - apply extends_refl. exact Hwf.
  - cbn [emplace_back_range_loop].
    pose proof (emplace_back_extends a m Hwf) as Hext.
    destruct (emplace_back StaticSize construct_at a m) as [[i|e] m1];
      cbn [snd] in *.
    + eapply extends_trans; [exact Hext|]. apply IH.
      eapply extends_wf. exact Hext.
    + exact Hext.
Qed.

Lemma emplace_back_many_loop_extends fuel (i : N) (count : Z) args m r m' :
  wf (vec m) ->
  emplace_back_many_loop StaticSize construct_at fuel i count args m
  = Some (r, m') ->
  extends m m'.
Proof.
  revert i m. induction fuel as [|fuel IH]; intros i m Hwf Hrun;
    [discriminate|].
  cbn [emplace_back_many_loop] in Hrun.
  destruct (cmp_less (Z.of_N i) count).
  - pose proof (emplace_back_extends args m Hwf) as Hext.
    destruct (emplace_back StaticSize construct_at args m) as [[j|e] m1];
      cbn [snd] in *.
    + eapply extends_trans; [exact Hext|].
      eapply IH; [eapply extends_wf; exact Hext|exact Hrun].
    + injection Hrun as _ <-. exact Hext.
  - injection Hrun as _ <-. apply extends_refl. exact Hwf.
Qed.

(** Rolling back to the size of [m] gives the slots of [m] back. *)
Lemma rollback_restores {A} (e : exn E) m m1 :
  extends m m1 ->
  exists m',
    rollback (A:=A) (size m) e m1 = Some (Throw e, m') /\ vec m' = vec m.
Proof.
  intros (xs & ys & Hle & Hv & Hv1). rewrite rollback_pops.
  eexists. split; [reflexivity|].
  destruct m1 as [v1 w1 tr1]. cbn [vec] in Hv1. subst v1.
  destruct (pops_of_list StaticSize
              (N.to_nat (size (Machine (of_list (xs ++ ys)) w1 tr1) - size m))
              (xs ++ ys) w1 tr1 Hle) as [Hpop _].
  rewrite Hpop, Hv. f_equal. unfold size. rewrite Hv. cbn [vec].
  rewrite !size_of_list, length_app.
  replace (length xs + length ys
           - N.to_nat (N.of_nat (length xs + length ys)
                       - N.of_nat (length xs)))%nat
    with (length xs) by lia.
  apply take_app_length.
Qed.

(** The bulk appends keep the representation invariant, and when they
    throw they leave every slot as it was at entry. *)
Lemma emplace_back_many_restores count args m r m' :
  wf (vec m) ->
  emplace_back_many StaticSize construct_at count args m = Some (r, m') ->
  wf (vec m') /\ (is_throw r = true -> vec m' = vec m).
Proof.
  intros Hwf Hrun. unfold emplace_back_many in Hrun.
  destruct (emplace_back_many_loop StaticSize construct_at
              (bulk_fuel StaticSize m) 0 count args m)
    as [[[[]|e] m1]|] eqn:Hloop; [| |discriminate].
  - injection Hrun as <- <-. split; [|discriminate].
    eapply extends_wf. eapply emplace_back_many_loop_extends; eassumption.
  - destruct (rollback_restores (A:=unit) e m m1) as (m2 & Hroll & Hv).
    { eapply emplace_back_many_loop_extends; eassumption. }
    rewrite Hroll in Hrun. injection Hrun as <- <-.
    split; [rewrite Hv; exact Hwf|intros _; exact Hv].
Qed.

Lemma emplace_back_range_restores (input : list Args) m r m' :
  wf (vec m) ->
  emplace_back_range StaticSize construct_at input m = Some (r, m') ->
  wf (vec m') /\ (is_throw r = true -> vec m' = vec m).
Proof.
  intros Hwf Hrun. unfold emplace_back_range in Hrun.
  pose proof (emplace_back_range_loop_extends input m Hwf) as Hext.
  destruct (emplace_back_range_loop StaticSize construct_at input m)
    as [[[]|e] m1]; cbn [snd] in Hext.
  - injection Hrun as <- <-. split; [|discriminate].
    eapply extends_wf. exact Hext.
  - destruct (rollback_restores (A:=N) e m m1 Hext) as (m2 & Hroll & Hv).
    rewrite Hroll in Hrun. injection Hrun as <- <-.
    split; [rewrite Hv; exact Hwf|intros _; exact Hv].
Qed.

End Bulk.

(* ====================================================================== *)
(** * The properties at [static_vector<int, 5>] *)
(* ====================================================================== *)

Section AtSample.
Import Sample.

Local Abbreviation holding := Sample.holding.
Local Abbreviation StaticSize := Sample.StaticSize.

Lemma holding_wf (xs : list Z) (budget : nat) :
  (length xs <= 5)%nat -> wf StaticSize (vec (holding xs budget)).
Proof. intros Hle. exists xs. split; [exact Hle|reflexivity]. Qed.

Lemma construct_always_nothrow : nothrow_constructible construct_always.
Proof. intros args w. eexists _, _. reflexivity. Qed.

(** C1 — growing with the one-argument [resize] appends [count]
    elements, not [count - size ()]: on [{7}], [resize (3)] returns with
    four elements; on [{7, 8, 9}] in a capacity of five, [resize (4)]
    throws [std::logic_error] although four elements fit, and rolls the
    size back to three. The two-argument [resize (3, 100)] on [{7}]
    returns with three elements, as documented for both. *)
Theorem resize_appends_count_elements :
  (exists m',
      resize StaticSize construct_at default_init 3 (holding [7] 10)
      = Some (Return (), m')
      /\ size m' = 4%N /\ elements (vec m') = [7; 0; 0; 0])
  /\ (exists m',
         resize StaticSize construct_at default_init 4 (holding [7; 8; 9] 10)
         = Some (Throw (logic_error Messages.emplace_back_on_full), m')
         /\ vec m' = vec (holding [7; 8; 9] 10))
  /\ (exists m',
         resize_init StaticSize construct_at copy_init 3 100 (holding [7] 10)
         = Some (Return (), m')
         /\ size m' = 3%N /\ elements (vec m') = [7; 100; 100]).
Proof.
  split; [|split]; eexists; (split; [vm_compute; reflexivity|]);
    repeat split; reflexivity.
Qed.

(** C5 — when the constructor of the element throws inside
    [emplace_back], the handler calls [pop_back], which calls
    [destroy ()] on the slot whose construction has just failed: on
    [{7, 8, 9}] the slot calls are [construct] on the dead slot 3, then
    [destroy] on the still dead slot 3. Between operations the slots
    below [size ()], and only they, are live. *)
Theorem emplace_back_destroys_a_dead_slot_when_the_constructor_throws :
  fst (emplace_back StaticSize construct_at (Some 4) (holding [7; 8; 9] 0))
  = Throw (element_error ())
  /\ trace (snd (emplace_back StaticSize construct_at (Some 4)
                              (holding [7; 8; 9] 0)))
     = [EvConstruct 3 false; EvDestroy 3 false]
  /\ forallb legal
       (trace (snd (emplace_back StaticSize construct_at (Some 4)
                                 (holding [7; 8; 9] 0))))
     = false
  /\ m_storage (vec (snd (emplace_back StaticSize construct_at (Some 4)
                                       (holding [7; 8; 9] 0))))
     = [Some 7; Some 8; Some 9; None; None].
Proof. repeat split. Qed.

(** [shrink_to (-1)] on [{7, 8, 9}]: a thousand turns of the loop are not
    enough, and [resize (-1)] goes the same way. *)
Example shrink_to_minus_one :
  shrink_to_loop 1000 (-1) (holding [7; 8; 9] 0) = None
  /\ resize StaticSize construct_at default_init (-1) (holding [7; 8; 9] 0)
     = None.
Proof. split; vm_compute; reflexivity. Qed.

(** [erase (end ())] on [{7, 8, 9}] returns nothing; [erase (begin () + 1)]
    returns its argument. *)
Example erase_on_sample :
  erase moved_from (Iter 3) (holding [7; 8; 9] 0)
  = (None, holding [7; 8; 9] 0)
  /\ fst (erase moved_from (Iter 1) (holding [7; 8; 9] 0)) = Some (Iter 1)
  /\ elements (vec (snd (erase moved_from (Iter 1) (holding [7; 8; 9] 0))))
     = [7; 9].
Proof. repeat split. Qed.

(** The scenarios of the test suite and of the specification, run on
    the embedding. *)
Local Abbreviation program n :=
  (fun c ops =>
     observed (run_program n construct_at default_init copy_init move_init
                           moved_from c ops 100%nat)).

Example scenario_push_back_until_full :
  program 5%N (CtorRange [Some 1; Some 2; Some 3])
          [OpPushBack 4; OpPushBack 5; OpPushBack 6]
  = Some [[1; 2; 3]; [1; 2; 3; 4]; [1; 2; 3; 4; 5]; [1; 2; 3; 4; 5]].
Proof. vm_compute. reflexivity. Qed.

Example scenario_insert :
  program 8%N (CtorRange [Some 1; Some 2; Some 3])
          [OpInsert (Iter 0) 100; OpInsert (Iter 4) 100; OpInsert (Iter 2) 50;
           OpInsert (Iter 2) 4; OpInsert (Iter 2) 5]
  = Some [[1; 2; 3]; [100; 1; 2; 3]; [100; 1; 2; 3; 100];
          [100; 1; 50; 2; 3; 100]; [100; 1; 4; 50; 2; 3; 100];
          [100; 1; 5; 4; 50; 2; 3; 100]].
Proof. vm_compute. reflexivity. Qed.

Example scenario_erase_range :
  program 6%N (CtorRange (Some <$> [1; 2; 3; 4; 5; 6]))
          [OpEraseRange (Iter 1) (Iter 3)]
  = Some [[1; 2; 3; 4; 5; 6]; [1; 4; 5; 6]].
Proof. vm_compute. reflexivity. Qed.

Example scenario_size_constructor :
  program 5%N (CtorCount 3) [] = Some [[0; 0; 0]]
  /\ program 5%N (CtorCount 6) [] = Some []
  /\ (exists m,
         ctor_count 5%N construct_at default_init 6 100%nat
         = Some (Throw (logic_error Messages.emplace_back_on_full), m)
         /\ elements (vec m) = []).
Proof.
  split; [vm_compute; reflexivity|]. split; [vm_compute; reflexivity|].
  eexists. split; [vm_compute; reflexivity|reflexivity].
Qed.

Example scenario_copy_assignment :
  program 5%N (CtorRange (Some <$> [1; 2; 3; 4; 5]))
          [OpCopyAssign (of_list 5%N [1; 2; 3])]
  = Some [[1; 2; 3; 4; 5]; [1; 2; 3]].
Proof. vm_compute. reflexivity. Qed.

Example scenario_bulk_append :
  program 7%N CtorDefault
          [OpEmplaceBackMany 2 (Some 1); OpEmplaceBackRange [Some 1; Some 2];
           OpEmplaceBackRange [Some 3; Some 4]]
  = Some [[]; [1; 1]; [1; 1; 1; 2]; [1; 1; 1; 2; 3; 4]].
Proof. vm_compute. reflexivity. Qed.

Example scenario_resize :
  program 6%N (CtorRange (Some <$> [1; 2; 3]))
          [OpResizeInit 5 100; OpResize 1]
  = Some [[1; 2; 3]; [1; 2; 3; 100; 100]; [1]].
Proof. vm_compute. reflexivity. Qed.

End AtSample.

(* ---------------------------------------------------------------------- *)
(** ** Instances of the general theorems *)

(** On the full [{1, 2, 3, 4, 5}], [emplace_back (6)] throws
    [std::logic_error] and changes nothing. *)
Lemma emplace_back_throws_iff_full_and_has_no_effect_witness :
  wf Sample.StaticSize (vec (Sample.holding [1; 2; 3; 4; 5] 3))
  /\ is_logic_error
       (fst (emplace_back Sample.StaticSize Sample.construct_at (Some 6)
                          (Sample.holding [1; 2; 3; 4; 5] 3))) = true
  /\ vec (snd (emplace_back Sample.StaticSize Sample.construct_at (Some 6)
                            (Sample.holding [1; 2; 3; 4; 5] 3)))
     = vec (Sample.holding [1; 2; 3; 4; 5] 3).
Proof.
  assert (Hwf : wf Sample.StaticSize (vec (Sample.holding [1; 2; 3; 4; 5] 3))).
  { exists [1; 2; 3; 4; 5]. split; [vm_compute; lia|reflexivity]. }
  split; [exact Hwf|].
  destruct (emplace_back_throws_iff_full_and_has_no_effect
              Sample.StaticSize Sample.construct_at Sample.copy_init
              Sample.move_init (Some 6) 6
              (Sample.holding [1; 2; 3; 4; 5] 3) Hwf)
    as (Hiff & _ & Heffect & _).
  split.
  - apply Hiff. reflexivity.
  - apply Heffect. reflexivity.
Defined.

(** On [{10, 20, 30}], [at (1)] is the second element, and [at (3)] and
    [at (-1)] throw. *)
Lemma checked_access_throws_iff_out_of_range_witness :
  wf Sample.StaticSize (vec (Sample.holding [10; 20; 30] 0))
  /\ Z.of_N Sample.StaticSize < size_max
  /\ is_out_of_range
       (fst (at_ (E:=unit) 3 (Sample.holding [10; 20; 30] 0))) = true
  /\ (exists x,
         elements (vec (Sample.holding [10; 20; 30] 0)) !! Z.to_nat 1 = Some x
         /\ fst (at_ (E:=unit) 1 (Sample.holding [10; 20; 30] 0))
            = Return (Some x)).
Proof.
  assert (Hwf : wf Sample.StaticSize (vec (Sample.holding [10; 20; 30] 0))).
  { exists [10; 20; 30]. split; [vm_compute; lia|reflexivity]. }
  assert (H64 : Z.of_N Sample.StaticSize < size_max) by reflexivity.
  split; [exact Hwf|]. split; [exact H64|].
  split.
  - apply (checked_access_throws_iff_out_of_range (E:=unit) Sample.StaticSize
             3 (Sample.holding [10; 20; 30] 0) Hwf H64).
    simpl. lia.
  - apply (checked_access_throws_iff_out_of_range (E:=unit) Sample.StaticSize
             1 (Sample.holding [10; 20; 30] 0) Hwf H64).
    simpl. lia.
Defined.

(** On [{7, 8, 9}], inserting 42 at position 1 and erasing there gives
    [{7, 8, 9}] back. *)
Lemma insert_then_erase_restores_witness :
  wf Sample.StaticSize (vec (Sample.holding [7; 8; 9] 5))
  /\ full Sample.StaticSize (Sample.holding [7; 8; 9] 5) = false
  /\ m_ptr (begin_ (Sample.holding [7; 8; 9] 5)) <= m_ptr (Iter 1)
     <= m_ptr (end_ (Sample.holding [7; 8; 9] 5))
  /\ match insert Sample.StaticSize Sample.construct_at Sample.copy_init
                  (Iter 1) 42 (Sample.holding [7; 8; 9] 5) with
     | (Return it, m1) =>
         elements (vec m1) = [7; 42; 8; 9]
         /\ vec (snd (erase Sample.moved_from (Iter 1) m1))
            = vec (Sample.holding [7; 8; 9] 5)
     | (Throw _, _) => False
     end.
Proof.
  assert (Hwf : wf Sample.StaticSize (vec (Sample.holding [7; 8; 9] 5))).
  { exists [7; 8; 9]. split; [vm_compute; lia|reflexivity]. }
  assert (Hfull : full Sample.StaticSize (Sample.holding [7; 8; 9] 5) = false)
    by reflexivity.
  assert (Hpos : m_ptr (begin_ (Sample.holding [7; 8; 9] 5)) <= m_ptr (Iter 1)
                 <= m_ptr (end_ (Sample.holding [7; 8; 9] 5)))
    by (simpl; lia).
  split; [exact Hwf|]. split; [exact Hfull|]. split; [exact Hpos|].
  pose proof (insert_then_erase_restores Sample.StaticSize Sample.construct_at
                Sample.copy_init Sample.moved_from (Iter 1) 42
                (Sample.holding [7; 8; 9] 5) Hwf Hfull Hpos) as W.
  destruct (insert Sample.StaticSize Sample.construct_at Sample.copy_init
                   (Iter 1) 42 (Sample.holding [7; 8; 9] 5))
    as [[it|e] m1] eqn:Hins.
  - destruct W as (_ & _ & _ & Hvec & _).
    split; [|exact Hvec].
    vm_compute in Hins. injection Hins as _ <-. reflexivity.
  - vm_compute in Hins. discriminate Hins.
Defined.

(** With [count = -3] nothing is constructed. *)
Lemma negative_count_constructs_nothing_witness :
  -3 < 0
  /\ ctor_count Sample.StaticSize Sample.construct_at Sample.default_init
                (-3) 10%nat
     = Some (Return (), fresh Sample.StaticSize 10%nat)
  /\ emplace_back_many Sample.StaticSize Sample.construct_at (-3) (Some 1)
                       (Sample.holding [1; 2] 10)
     = Some (Return (), Sample.holding [1; 2] 10).
Proof.
  assert (Hneg : -3 < 0) by lia.
  split; [exact Hneg|].
  destruct (negative_count_constructs_nothing Sample.StaticSize
              Sample.construct_at Sample.default_init Sample.copy_init
              (-3) (Some 1) 0 10%nat (Sample.holding [1; 2] 10) Hneg)
    as (Hctor & _ & _ & _ & _ & Hmany).
  split; [exact Hctor|exact Hmany].
Defined.

(** With constructors that never throw, inserting four elements at
    position 1 of [{7, 8, 9}] in a capacity of five throws
    [std::logic_error] and leaves three elements. *)
Lemma size_never_exceeds_capacity_witness :
  wf Sample.StaticSize (vec (Sample.holding [7; 8; 9] 0))
  /\ valid_op Sample.StaticSize Sample.construct_always Sample.copy_init
              (OpInsertCount (Iter 1) 4 1) (Sample.holding [7; 8; 9] 0)
  /\ well_typed (OpInsertCount (T:=Z) (Args:=option Z) (Iter 1) 4 1) = true
  /\ match run_op Sample.StaticSize Sample.construct_always
                  Sample.default_init Sample.copy_init Sample.move_init
                  Sample.moved_from (OpInsertCount (Iter 1) 4 1)
                  (Sample.holding [7; 8; 9] 0) with
     | Some (r, m') => is_logic_error r = true /\ size m' = 3%N
     | None => False
     end.
Proof.
  assert (Hwf : wf Sample.StaticSize (vec (Sample.holding [7; 8; 9] 0))).
  { exists [7; 8; 9]. split; [vm_compute; lia|reflexivity]. }
  assert (Hvalid : valid_op Sample.StaticSize Sample.construct_always
                            Sample.copy_init (OpInsertCount (Iter 1) 4 1)
                            (Sample.holding [7; 8; 9] 0)).
  { split; [unfold valid_pos; simpl; lia|lia]. }
  assert (Hty : well_typed (OpInsertCount (T:=Z) (Args:=option Z) (Iter 1) 4 1)
                = true)
    by reflexivity.
  split; [exact Hwf|]. split; [exact Hvalid|]. split; [exact Hty|].
  pose proof (proj1 (proj2 (proj2 (size_never_exceeds_capacity
                                     Sample.StaticSize
                                     Sample.construct_always
                                     Sample.default_init Sample.copy_init
                                     Sample.move_init Sample.moved_from)))
                (OpInsertCount (Iter 1) 4 1) (Sample.holding [7; 8; 9] 0)
                Hwf Hvalid Hty) as W.
  destruct (run_op Sample.StaticSize Sample.construct_always
                   Sample.default_init Sample.copy_init Sample.move_init
                   Sample.moved_from (OpInsertCount (Iter 1) 4 1)
                   (Sample.holding [7; 8; 9] 0)) as [[r m']|] eqn:Hrun.
  - destruct W as (_ & Hsame & Hover).
    destruct Hover as (Hthrow & Hlogic); [vm_compute; reflexivity|].
    split.
    + apply Hlogic. exact construct_always_nothrow.
    + rewrite (Hsame Hthrow). reflexivity.
  - vm_compute in Hrun. discriminate Hrun.
Defined.

(* ====================================================================== *)
(** * Further properties: the iterator *)
(* ====================================================================== *)

(** X1 — iterator arithmetic: adding an offset and subtracting it again
    gives the iterator back, either way round; the distance from [it] to
    [it + n] is [n], and [it + (other - it)] is [other]; two additions
    add up; prefix increment and decrement undo each other; [n + it] is
    [it + n], and the overload [n - it] gives [it - n]. *)
Theorem iterator_arithmetic_round_trips (it other : storage_iterator) (a b : Z) :
  minus (plus it a) a = it
  /\ plus (minus it a) a = it
  /\ distance (plus it a) it = a
  /\ plus it (distance other it) = other
  /\ plus (plus it a) b = plus it (a + b)
  /\ snd (pre_dec (snd (pre_inc it))) = it
  /\ snd (pre_inc (snd (pre_dec it))) = it
  /\ snd (pre_dec (snd (post_inc it))) = it
  /\ plus_left a it = plus it a
  /\ minus_left a it = minus it a.
Proof.
  destruct it as [p], other as [q].
  cbv beta iota zeta delta
    [minus plus plus_left minus_left distance sub_assign add_assign
     pre_dec pre_inc post_inc snd m_ptr].
  repeat split; try reflexivity; try lia; f_equal; lia.
Qed.

(** X2 — the comparisons of two iterators agree with their distance:
    they are equal exactly when the distance is zero, which is when they
    are the same iterator, and [lhs <=> rhs] is the sign of [lhs - rhs];
    in particular [it + n] is after [it] exactly when [n] is positive. *)
Theorem iterator_comparisons_follow_distance (lhs rhs : storage_iterator) (n : Z) :
  (eqb lhs rhs = true <-> distance lhs rhs = 0)
  /\ (eqb lhs rhs = true <-> lhs = rhs)
  /\ compare lhs rhs = Z.compare (distance lhs rhs) 0
  /\ (compare lhs (plus lhs n) = Lt <-> 0 < n)
  /\ (compare lhs rhs = Lt <-> compare rhs lhs = Gt).
Proof.
  destruct lhs as [p], rhs as [q].
  unfold eqb, distance, compare, plus, add_assign. cbn [snd m_ptr].
  split; [|split; [|split; [|split]]].
  - rewrite Z.eqb_eq. lia.
  - rewrite Z.eqb_eq. split; [intros ->; reflexivity|intros [= ->]; reflexivity].
  - destruct (Z.compare_spec p q), (Z.compare_spec (p - q) 0);
      try reflexivity; lia.
  - rewrite Z.compare_lt_iff. lia.
  - rewrite Z.compare_lt_iff, Z.compare_gt_iff. reflexivity.
Qed.


(* ====================================================================== *)
(** * Further properties: the container *)
(* ====================================================================== *)

Section Further.
Context {T E World Args : Type}.
Variable StaticSize : N.
Variable construct_at : Args -> World -> (E + T) * World.
Variable default_init : Args.
Variable copy_init move_init : T -> Args.
Variable moved_from : T -> T.

Implicit Types (m : @machine T World) (xs ys zs : list T) (x y : T)
  (w : World) (tr : list event) (pos : storage_iterator).

Local Abbreviation cap := (N.to_nat StaticSize).
Local Abbreviation of_list := (@of_list T StaticSize).
Local Abbreviation wf := (@wf T StaticSize).
Local Abbreviation full := (@full T World StaticSize).
Local Abbreviation emplace_back := (emplace_back StaticSize construct_at).
Local Abbreviation constructs := (constructs construct_at).
Local Abbreviation extends := (@extends T World StaticSize).

(** The [destroy] calls on the slots [\[from, from + k)], last first. *)
Local Abbreviation destroyed_down from k :=
  ((fun i : nat => EvDestroy (N.of_nat i) true) <$> reverse (seq from k)).

Lemma wf_of_list xs : (length xs <= cap)%nat -> wf (of_list xs).
Proof. intros Hle. exists xs. split; [exact Hle|reflexivity]. Qed.

Lemma of_list_nil : of_list [] = empty_vector StaticSize.
Proof.
  unfold StaticVector.of_list, empty_vector. cbn [length fmap list_fmap app].
  rewrite Nat.sub_0_r. reflexivity.
Qed.

(** X4 — [\*(begin () + i)] and [begin ()\[i\]] are the element that
    [at (i)] returns, for every index [i] below [size ()];
    [index_of (cbegin () + i)], the overload for constant iterators, is
    [i]; [end () - begin ()] is [size ()]; and [end ()] designates no
    element. *)
Theorem iterators_designate_the_elements (i : Z) m :
  wf (vec m) -> Z.of_N StaticSize < size_max ->
  0 <= i < Z.of_N (size m) ->
  Return (E:=E) (deref (plus (begin_ m) i) m) = fst (at_ i m)
  /\ deref (plus (begin_ m) i) m = elements (vec m) !! Z.to_nat i
  /\ iter_subscript (begin_ m) i m = deref (plus (begin_ m) i) m
  /\ index_of (plus (cbegin m) i) m = Z.to_N i
  /\ distance (end_ m) (begin_ m) = Z.of_N (size m)
  /\ deref (end_ m) m = None.
Proof.
  intros Hwf H64 Hi.
  destruct (at_in_range (E:=E) StaticSize i m Hwf H64 Hi) as (x & Hx & Hat).
  assert (Hderef : deref (plus (begin_ m) i) m = Some x).
  { destruct Hwf as (xs & Hle & Hv). destruct m as [v w tr].
    cbn [vec] in *. subst v. rewrite elements_of_list in Hx.
    unfold deref, plus, add_assign, begin_, slot_at, value. cbn [snd m_ptr vec].
    destruct (Z.ltb_spec (0 + i) 0); [lia|].
    replace (N.to_nat (Z.to_N (0 + i))) with (Z.to_nat i) by lia.
    rewrite (lookup_of_list_live StaticSize xs _ x Hx). reflexivity. }
  split; [rewrite Hderef, Hat; reflexivity|].
  split; [rewrite Hderef, Hx; reflexivity|].
  split; [reflexivity|].
  split.
  { unfold index_of, to_size_type, distance, plus, add_assign, cbegin.
    cbn [snd m_ptr]. rewrite Z.mod_small; [f_equal; lia|].
    pose proof (wf_size StaticSize m Hwf). lia. }
  split; [unfold distance, end_, begin_; cbn [m_ptr]; lia|].
  destruct Hwf as (xs & Hle & Hv). destruct m as [v w tr].
  cbn [vec] in *. subst v.
  unfold deref, end_, size, slot_at, value. cbn [m_ptr vec].
  rewrite size_of_list.
  destruct (Z.ltb_spec (0 + Z.of_N (N.of_nat (length xs))) 0); [lia|].
  apply lookup_of_list_dead. lia.
Qed.

Lemma pops_trace k xs w tr :
  (k <= length xs)%nat -> (length xs <= cap)%nat ->
  trace (pops k (Machine (of_list xs) w tr))
  = tr ++ destroyed_down (length xs - k)%nat k.
Proof.
  revert xs tr. induction k as [|k IH]; intros xs tr Hk Hle; cbn [pops].
  - cbn. rewrite app_nil_r. reflexivity.
  - destruct xs as [|y ys _] using rev_ind; [cbn in Hk; lia|].
    rewrite length_app in Hk, Hle. cbn [length] in Hk, Hle.
    rewrite pop_back_of_list by lia.
    rewrite IH by lia. rewrite <- app_assoc. f_equal.
    rewrite length_app. cbn [length].
    replace (length ys + 1 - S k)%nat with (length ys - k)%nat by lia.
    rewrite seq_S, reverse_app. cbn [reverse app fmap list_fmap].
    replace (length ys - k + k)%nat with (length ys) by lia.
    reflexivity.
Qed.

(** X5 — [pop_back ()] on an empty container does nothing at all; on
    any other it removes the last element and only that one, calling
    [destroy] once, on the live slot [size () - 1]; it never touches what
    the element constructors see, and keeps the invariant. *)
Theorem pop_back_removes_the_last_element m :
  wf (vec m) ->
  (size m = 0%N -> pop_back m = m)
  /\ (size m <> 0%N ->
      elements (vec (pop_back m))
      = take (length (elements (vec m)) - 1) (elements (vec m))
      /\ trace (pop_back m) = trace m ++ [EvDestroy (size m - 1) true])
  /\ size (pop_back m) = N.pred (size m)
  /\ world (pop_back m) = world m
  /\ wf (vec (pop_back m)).
Proof.
  intros (xs & Hle & Hv). destruct m as [v w tr]. cbn [vec] in Hv. subst v.
  split; [apply pop_back_empty|]. split; [|split; [|split]].
  - unfold size. cbn [vec]. rewrite size_of_list. intros Hnz.
    destruct xs as [|y ys _] using rev_ind; [cbn in Hnz; lia|].
    rewrite length_app in Hle. cbn [length] in Hle.
    rewrite pop_back_of_list by lia. cbn [vec trace].
    rewrite !elements_of_list, length_app. cbn [length].
    replace (length ys + 1 - 1)%nat with (length ys) by lia.
    rewrite take_app_length. split; [reflexivity|].
    do 3 f_equal. lia.
  - apply size_pop_back.
  - apply world_pop_back.
  - destruct (pops_of_list StaticSize 1 xs w tr Hle) as [Hp _].
    cbn [pops] in Hp. rewrite Hp. apply wf_of_list.
    rewrite length_take. lia.
Qed.

(** X6 — when the container is not full and the constructor returns
    [x], [emplace_back] returns the index [size ()] of the new element,
    whose value is [x] and which comes after the elements there were;
    the only slot call is one [construct] on the dead slot at that
    index; and a [pop_back ()] after it gives the slots and the size of
    before. *)
Theorem emplace_back_appends_and_pop_back_undoes args x w' m :
  wf (vec m) -> full m = false ->
  construct_at args (world m) = (inr x, w') ->
  fst (emplace_back args m) = Return (size m)
  /\ elements (vec (snd (emplace_back args m))) = elements (vec m) ++ [x]
  /\ size (snd (emplace_back args m)) = (size m + 1)%N
  /\ world (snd (emplace_back args m)) = w'
  /\ trace (snd (emplace_back args m))
     = trace m ++ [EvConstruct (size m) false]
  /\ wf (vec (snd (emplace_back args m)))
  /\ vec (pop_back (snd (emplace_back args m))) = vec m.
Proof.
  intros (xs & Hle & Hv) Hfull Hc. destruct m as [v w tr].
  cbn [vec world] in *. subst v.
  unfold StaticVector.full, max_size, size in Hfull. cbn [vec] in Hfull.
  rewrite size_of_list in Hfull.
  destruct (N.eqb_spec (N.of_nat (length xs)) StaticSize) as [|Hne];
    [discriminate|].
  rewrite (emplace_back_of_list StaticSize construct_at) by exact Hle.
  replace (length xs =? cap)%nat with false
    by (symmetry; apply Nat.eqb_neq; lia).
  rewrite Hc. cbn [fst snd vec world trace]. unfold size. cbn [vec].
  rewrite !elements_of_list, !size_of_list.
  rewrite pop_back_of_list by lia. cbn [vec].
  repeat split.
  - rewrite length_app. cbn [length]. lia.
  - apply wf_of_list. rewrite length_app. cbn [length]. lia.
Qed.

(** X7 — [clear ()] always returns; it leaves the members as the default
    constructor makes them, having called [destroy] exactly once on each
    live slot, from the last one down to slot 0, and on no other; the
    state seen by the element constructors is untouched; and a second
    [clear ()] changes nothing and calls nothing. *)
Theorem clear_destroys_every_element_once m :
  wf (vec m) ->
  exists m',
    clear m = Some m'
    /\ vec m' = empty_vector StaticSize
    /\ size m' = 0%N
    /\ world m' = world m
    /\ trace m' = trace m ++ destroyed_down 0%nat (N.to_nat (size m))
    /\ clear m' = Some m'.
Proof.
  intros (xs & Hle & Hv). destruct m as [v w tr]. cbn [vec] in Hv. subst v.
  assert (Hsz : size (Machine (of_list xs) w tr) = N.of_nat (length xs))
    by reflexivity.
  unfold clear. rewrite shrink_to_pops by lia. rewrite Hsz.
  replace (N.to_nat (N.of_nat (length xs) - Z.to_N 0)) with (length xs) by lia.
  eexists. split; [reflexivity|]. cbn [world trace].
  destruct (pops_of_list StaticSize (length xs) xs w tr Hle) as [Hv Hw].
  assert (Hvec : vec (pops (length xs) (Machine (of_list xs) w tr))
                 = empty_vector StaticSize).
  { rewrite Hv, Nat.sub_diag. cbn [take]. apply of_list_nil. }
  split; [exact Hvec|].
  assert (Hz : size (pops (length xs) (Machine (of_list xs) w tr)) = 0%N).
  { unfold size. rewrite Hvec. reflexivity. }
  split; [exact Hz|]. split; [exact Hw|]. split.
  - rewrite pops_trace by lia. rewrite Nat.sub_diag, Nat2N.id. reflexivity.
  - rewrite shrink_to_pops by lia. rewrite Hz. reflexivity.
Qed.

(** X8 — [shrink_by (count)] returns for every [count], negative ones
    included; it removes [min (max (count, 0), size ())] elements, all
    from the end, so that what is left is a prefix of what there was. *)
Theorem shrink_by_leaves_a_prefix (count : Z) m :
  wf (vec m) ->
  exists m',
    shrink_by count m = Some m'
    /\ Z.of_N (size m')
       = Z.of_N (size m) - Z.min (Z.max count 0) (Z.of_N (size m))
    /\ elements (vec m') = take (N.to_nat (size m')) (elements (vec m))
    /\ wf (vec m').
Proof. apply shrink_by_returns. Qed.

(** X9 — [shrink_to (count)] with a [count] that is not negative
    returns, leaving the first [min (size (), count)] elements: nothing
    is removed when [count >= size ()]. *)
Theorem shrink_to_leaves_a_prefix (count : Z) m :
  wf (vec m) -> 0 <= count ->
  exists m',
    shrink_to count m = Some m'
    /\ Z.of_N (size m') = Z.min (Z.of_N (size m)) count
    /\ elements (vec m') = take (N.to_nat (size m')) (elements (vec m))
    /\ wf (vec m')
    /\ (Z.of_N (size m) <= count -> m' = m).
Proof.
  intros Hwf Hc.
  destruct (shrink_to_returns StaticSize count m Hwf Hc)
    as (m' & Hrun & Hsize & Helts & Hwf').
  exists m'. repeat split; try assumption.
  intros Hbig. rewrite shrink_to_pops in Hrun by exact Hc.
  replace (N.to_nat (size m - Z.to_N count)) with O in Hrun by lia.
  injection Hrun as <-. reflexivity.
Qed.

(** X10 — for a position before [end ()], [erase (pos)] removes the
    element at [pos] and no other, keeps the order of the rest, and
    returns [pos], which then designates the element that followed the
    erased one. *)
Theorem erase_removes_the_element_at_pos pos m :
  wf (vec m) -> m_ptr (begin_ m) <= m_ptr pos < m_ptr (end_ m) ->
  fst (erase moved_from pos m) = Some pos
  /\ elements (vec (snd (erase moved_from pos m)))
     = take (Z.to_nat (m_ptr pos)) (elements (vec m))
         ++ drop (S (Z.to_nat (m_ptr pos))) (elements (vec m))
  /\ elements (vec (snd (erase moved_from pos m))) !! Z.to_nat (m_ptr pos)
     = elements (vec m) !! S (Z.to_nat (m_ptr pos))
  /\ (size (snd (erase moved_from pos m)) = size m - 1)%N
  /\ wf (vec (snd (erase moved_from pos m))).
Proof.
  intros Hwf Hpos.
  destruct (erase_before_end StaticSize moved_from pos m Hwf Hpos)
    as (Hret & Helts & Hwf' & Hsize).
  repeat split; try assumption.
  rewrite Helts.
  assert (Hlen : (Z.to_nat (m_ptr pos) <= length (elements (vec m)))%nat).
  { destruct Hwf as (xs & Hle & Hv). rewrite Hv, elements_of_list.
    unfold begin_, end_, size in Hpos. rewrite Hv in Hpos.
    cbn [m_ptr] in Hpos. rewrite size_of_list in Hpos. lia. }
  rewrite lookup_app_r by (rewrite length_take; lia).
  rewrite length_take, Nat.min_l by exact Hlen.
  rewrite Nat.sub_diag, lookup_drop. f_equal. lia.
Qed.

(** Moving the range [tail] down over the non-empty range [gap]: the
    slots read have not been written yet, and what is left above the
    moved elements is the end of [gap] followed by moved-from slots. *)
Lemma ranges_move_loop_gap (pre gap tail post : list (@lazy_storage T)) :
  gap <> [] ->
  ranges_move_loop moved_from (length tail) (length pre + length gap)
                   (length pre) (pre ++ gap ++ tail ++ post)
  = pre ++ tail
        ++ drop (length tail) (gap ++ (fmap moved_from <$> tail)) ++ post.
Proof.
  revert pre gap. induction tail as [|t0 tail IH]; intros pre gap Hgap.
  - cbn [length ranges_move_loop drop fmap list_fmap app].
    rewrite app_nil_r. reflexivity.
  - destruct gap as [|g0 gap]; [congruence|].
    cbn [length ranges_move_loop]. unfold move_assign.
    assert (Hsrc : (pre ++ (g0 :: gap) ++ (t0 :: tail) ++ post)
                     !! (length pre + S (length gap))%nat = Some t0).
    { rewrite lookup_app_r by lia.
      replace (length pre + S (length gap) - length pre)%nat
        with (length (g0 :: gap)) by (cbn; lia).
      rewrite lookup_app_r by lia. rewrite Nat.sub_diag. reflexivity. }
    rewrite Hsrc.
    assert (Hst : <[(length pre + S (length gap))%nat := moved_from <$> t0]>
                    (<[length pre := t0]>
                       (pre ++ (g0 :: gap) ++ (t0 :: tail) ++ post))
                  = (pre ++ [t0]) ++ (gap ++ [moved_from <$> t0])
                      ++ tail ++ post).
    { rewrite (insert_app_r_alt pre) by lia. rewrite Nat.sub_diag.
      rewrite (insert_app_r_alt pre) by lia.
      replace (length pre + S (length gap) - length pre)%nat
        with (S (length gap)) by lia.
      change (<[S (length gap) := moved_from <$> t0]>
                (<[0%nat := t0]> ((g0 :: gap) ++ (t0 :: tail) ++ post)))
        with (t0 :: <[length gap := moved_from <$> t0]>
                      (gap ++ (t0 :: tail) ++ post)).
      rewrite (insert_app_r_alt gap) by lia. rewrite Nat.sub_diag.
      change (<[0%nat := moved_from <$> t0]> ((t0 :: tail) ++ post))
        with ((moved_from <$> t0) :: tail ++ post).
      rewrite <- !app_assoc. reflexivity. }
    rewrite Hst.
    replace (S (length pre)) with (length (pre ++ [t0]))
      by (rewrite length_app; cbn; lia).
    replace (length pre + S (length gap))%nat
      with (length pre + length (gap ++ [moved_from <$> t0]))%nat
      by (rewrite length_app; cbn; lia).
    replace (S (length pre + length (gap ++ [moved_from <$> t0])))
      with (length (pre ++ [t0]) + length (gap ++ [moved_from <$> t0]))%nat
      by (rewrite !length_app; cbn; lia).
    rewrite IH by (destruct gap; discriminate).
    rewrite <- !app_assoc. cbn [app fmap list_fmap drop]. reflexivity.
Qed.

(** Moving a range onto itself: every element is move-assigned from
    itself. *)
Lemma ranges_move_loop_self (pre tail post : list (@lazy_storage T)) :
  ranges_move_loop moved_from (length tail) (length pre) (length pre)
                   (pre ++ tail ++ post)
  = pre ++ (fmap moved_from <$> tail) ++ post.
Proof.
  revert pre. induction tail as [|t0 tail IH]; intros pre; [reflexivity|].
  cbn [length ranges_move_loop]. unfold move_assign.
  assert (Hsrc : (pre ++ (t0 :: tail) ++ post) !! length pre = Some t0).
  { rewrite lookup_app_r by lia. rewrite Nat.sub_diag. reflexivity. }
  rewrite Hsrc.
  assert (Hst : <[length pre := moved_from <$> t0]>
                  (<[length pre := t0]> (pre ++ (t0 :: tail) ++ post))
                = (pre ++ [moved_from <$> t0]) ++ tail ++ post).
  { rewrite list_insert_insert_eq.
    rewrite (insert_app_r_alt pre) by lia. rewrite Nat.sub_diag.
    cbn [insert list_insert app]. rewrite <- app_assoc. reflexivity. }
  rewrite Hst.
  replace (S (length pre)) with (length (pre ++ [moved_from <$> t0]))
    by (rewrite length_app; cbn; lia).
  rewrite IH, <- !app_assoc. reflexivity.
Qed.

Lemma ranges_move_of_list_gap pre gapv tailv w tr
    (from upto dest : storage_iterator) :
  gapv <> [] -> (length (pre ++ gapv ++ tailv) <= cap)%nat ->
  m_ptr dest = Z.of_nat (length pre) ->
  m_ptr from = Z.of_nat (length pre + length gapv) ->
  m_ptr upto = Z.of_nat (length (pre ++ gapv ++ tailv)) ->
  ranges_move moved_from from upto dest
              (Machine (of_list (pre ++ gapv ++ tailv)) w tr)
  = Machine (of_list (pre ++ tailv
                        ++ drop (length tailv)
                             (gapv ++ (moved_from <$> tailv)))) w tr.
Proof.
  intros Hgap Hcap Hd Hf Hu. unfold ranges_move, distance, with_vec.
  rewrite Hd, Hf, Hu. cbn [vec world trace]. f_equal.
  unfold StaticVector.of_list. cbn [m_size m_storage].
  assert (Hlen : length (pre ++ tailv
                           ++ drop (length tailv)
                                (gapv ++ (moved_from <$> tailv)))
                 = length (pre ++ gapv ++ tailv)).
  { rewrite !length_app, length_drop, length_app, length_fmap. lia. }
  rewrite Hlen. f_equal.
  replace (Z.to_nat (Z.of_nat (length (pre ++ gapv ++ tailv))
                     - Z.of_nat (length pre + length gapv)))
    with (length (Some <$> tailv : list (@lazy_storage T)))
    by (rewrite length_fmap, !length_app; lia).
  replace (Z.to_nat (Z.of_nat (length pre + length gapv)))
    with (length (Some <$> pre : list (@lazy_storage T))
          + length (Some <$> gapv : list (@lazy_storage T)))%nat
    by (rewrite !length_fmap; lia).
  replace (Z.to_nat (Z.of_nat (length pre)))
    with (length (Some <$> pre : list (@lazy_storage T)))
    by (rewrite length_fmap; lia).
  rewrite !fmap_app, <- !app_assoc.
  rewrite ranges_move_loop_gap by (destruct gapv; [congruence|discriminate]).
  do 3 f_equal.
  rewrite fmap_drop, fmap_app, length_fmap. do 2 f_equal.
  rewrite <- !list_fmap_compose. reflexivity.
Qed.

Lemma erase_range_of_list pre gapv tailv w tr (first upto : storage_iterator) :
  gapv <> [] -> (length (pre ++ gapv ++ tailv) <= cap)%nat ->
  m_ptr first = Z.of_nat (length pre) ->
  m_ptr upto = Z.of_nat (length pre + length gapv) ->
  exists tr',
    erase_range moved_from first upto
                (Machine (of_list (pre ++ gapv ++ tailv)) w tr)
    = Some (first, Machine (of_list (pre ++ tailv)) w tr').
Proof.
  intros Hgap Hcap Hf Hu. unfold erase_range.
  rewrite (ranges_move_of_list_gap pre gapv tailv w tr); try assumption.
  2:{ unfold end_, size. cbn [vec m_ptr]. rewrite size_of_list. lia. }
  set (rest := drop (length tailv) (gapv ++ (moved_from <$> tailv))).
  assert (Hrest : length rest = length gapv).
  { unfold rest. rewrite length_drop, length_app, length_fmap. lia. }
  assert (Hcap' : (length (pre ++ tailv ++ rest) <= cap)%nat).
  { rewrite !length_app in *. lia. }
  rewrite shrink_by_pops.
  set (m1 := Machine (of_list (pre ++ tailv ++ rest)) w tr).
  assert (Hk : N.to_nat (N.min (Z.to_N (distance upto first)) (size m1))
               = length gapv).
  { unfold distance, m1, size. cbn [vec]. rewrite size_of_list, Hf, Hu.
    rewrite !length_app. lia. }
  rewrite Hk.
  destruct (pops_of_list StaticSize (length gapv) (pre ++ tailv ++ rest) w tr
              Hcap') as [Hv Hw].
  fold m1 in Hv, Hw.
  exists (trace (pops (length gapv) m1)). do 2 f_equal.
  destruct (pops (length gapv) m1) as [v' w'' tr'']. cbn [vec world trace] in *.
  subst v' w''. do 2 f_equal.
  rewrite !length_app, Hrest.
  replace (length pre + (length tailv + length gapv) - length gapv)%nat
    with (length (pre ++ tailv)) by (rewrite length_app; lia).
  rewrite app_assoc. apply take_app_length.
Qed.

(** X11 — for [first < last] inside the container,
    [erase (first, last)] removes exactly the elements of
    [\[first, last)], keeps the others in their order, returns [first]
    and leaves the container in its invariant, whatever move assignment
    leaves in its source. *)
Theorem erase_range_removes_exactly_the_range (first upto : storage_iterator) m :
  wf (vec m) ->
  m_ptr (begin_ m) <= m_ptr first < m_ptr upto ->
  m_ptr upto <= m_ptr (end_ m) ->
  exists m',
    erase_range moved_from first upto m = Some (first, m')
    /\ elements (vec m')
       = take (Z.to_nat (m_ptr first)) (elements (vec m))
           ++ drop (Z.to_nat (m_ptr upto)) (elements (vec m))
    /\ Z.of_N (size m') = Z.of_N (size m) - (m_ptr upto - m_ptr first)
    /\ world m' = world m
    /\ wf (vec m').
Proof.
  intros (xs & Hle & Hv) Hf Hu. destruct m as [v w tr].
  cbn [vec] in Hv. subst v.
  unfold begin_, end_, size in *. cbn [vec m_ptr world] in *.
  rewrite size_of_list in *.
  set (f := Z.to_nat (m_ptr first)). set (u := Z.to_nat (m_ptr upto)).
  assert (Hsplit : xs = take f xs ++ take (u - f) (drop f xs) ++ drop u xs).
  { rewrite <- (take_drop f xs) at 1. f_equal.
    rewrite <- (take_drop (u - f) (drop f xs)) at 1. f_equal.
    rewrite drop_drop. f_equal. lia. }
  assert (Hlf : length (take f xs) = f) by (rewrite length_take; lia).
  assert (Hlg : length (take (u - f) (drop f xs)) = (u - f)%nat)
    by (rewrite length_take, length_drop; lia).
  destruct (erase_range_of_list (take f xs) (take (u - f) (drop f xs))
              (drop u xs) w tr first upto) as (tr' & Hrun).
  - intros Hnil. rewrite Hnil in Hlg. cbn in Hlg. lia.
  - rewrite <- Hsplit. exact Hle.
  - lia.
  - lia.
  - rewrite <- Hsplit in Hrun. eexists. split; [exact Hrun|].
    cbn [vec world]. rewrite !elements_of_list, size_of_list.
    repeat split.
    + rewrite length_app, length_take, length_drop. lia.
    + apply wf_of_list. rewrite length_app, length_take, length_drop. lia.
Qed.

(* ---------------------------------------------------------------------- *)
(** ** Appending with constructors that are known to succeed *)

Lemma emplace_back_constructs args x xs w tr :
  constructs args x -> (length xs < cap)%nat ->
  exists w',
    emplace_back args (Machine (of_list xs) w tr)
    = (Return (N.of_nat (length xs)),
       Machine (of_list (xs ++ [x])) w'
               (tr ++ [EvConstruct (N.of_nat (length xs)) false])).
Proof.
  intros Hc Hlt. destruct (Hc w) as (w' & Hw). exists w'.
  rewrite (emplace_back_of_list StaticSize construct_at) by lia.
  replace (length xs =? cap)%nat with false
    by (symmetry; apply Nat.eqb_neq; lia).
  rewrite Hw. reflexivity.
Qed.

Lemma emplace_back_range_loop_constructs (input : list Args) zs xs w tr :
  Forall2 constructs input zs -> (length xs + length zs <= cap)%nat ->
  exists w' tr',
    emplace_back_range_loop StaticSize construct_at input
                            (Machine (of_list xs) w tr)
    = (Return (), Machine (of_list (xs ++ zs)) w' tr').
Proof.
  intros Hall. revert xs w tr.
  induction Hall as [|a z input zs Ha Hall IH]; intros xs w tr Hfit.
  - exists w, tr. rewrite app_nil_r. reflexivity.
  - cbn [length] in Hfit. cbn [emplace_back_range_loop].
    destruct (emplace_back_constructs a z xs w tr Ha) as (w1 & ->); [lia|].
    destruct (IH (xs ++ [z]) w1
                 (tr ++ [EvConstruct (N.of_nat (length xs)) false]))
      as (w' & tr' & ->).
    { rewrite length_app. cbn [length]. lia. }
    exists w', tr'. rewrite <- app_assoc. reflexivity.
Qed.

Lemma emplace_back_range_loop_overflows (input : list Args) zs xs w tr :
  Forall2 constructs input zs ->
  (length xs <= cap)%nat -> (cap < length xs + length zs)%nat ->
  fst (emplace_back_range_loop StaticSize construct_at input
                               (Machine (of_list xs) w tr))
  = Throw (logic_error Messages.emplace_back_on_full).
Proof.
  intros Hall. revert xs w tr.
  induction Hall as [|a z input zs Ha Hall IH]; intros xs w tr Hle Hover.
  - cbn [length] in Hover. lia.
  - cbn [length] in Hover. cbn [emplace_back_range_loop].
    destruct (Nat.eq_dec (length xs) cap) as [Heq|Hne].
    + rewrite (emplace_back_of_list StaticSize construct_at) by lia.
      replace (length xs =? cap)%nat with true
        by (symmetry; apply Nat.eqb_eq; exact Heq).
      reflexivity.
    + destruct (emplace_back_constructs a z xs w tr Ha) as (w1 & ->); [lia|].
      apply IH; rewrite length_app; cbn [length]; lia.
Qed.

(** The loop of [emplace_back_many] is the loop of [emplace_back_range]
    over [count] times the same arguments. *)
Lemma emplace_back_many_loop_as_range fuel (i : N) (count : Z) args m :
  (size m <= StaticSize)%N ->
  (S (N.to_nat (StaticSize - size m)) < fuel)%nat ->
  emplace_back_many_loop StaticSize construct_at fuel i count args m
  = Some (emplace_back_range_loop StaticSize construct_at
            (replicate (Z.to_nat (count - Z.of_N i)) args) m).
Proof.
  revert i m. induction fuel as [|fuel IH]; intros i m Hle Hfuel; [lia|].
  cbn [emplace_back_many_loop]. unfold cmp_less.
  destruct (Z.ltb_spec (Z.of_N i) count) as [Hlt|Hge].
  - replace (Z.to_nat (count - Z.of_N i))
      with (S (Z.to_nat (count - Z.of_N (i + 1)))) by lia.
    cbn [replicate emplace_back_range_loop].
    pose proof (emplace_back_grows StaticSize construct_at args m Hle) as Hg.
    destruct (emplace_back args m) as [[j|e] m1]; [|reflexivity].
    destruct Hg as (((Hlo & Hhi) & Hret & _) & _). cbn [fst snd] in *.
    specialize (Hret eq_refl). apply IH; lia.
  - replace (Z.to_nat (count - Z.of_N i)) with O by lia. reflexivity.
Qed.

Lemma emplace_back_many_as_range (count : Z) args m :
  (size m <= StaticSize)%N ->
  emplace_back_many StaticSize construct_at count args m
  = match emplace_back_range_loop StaticSize construct_at
            (replicate (Z.to_nat count) args) m with
    | (Return _, m') => Some (Return (), m')
    | (Throw e, m') => rollback (size m) e m'
    end.
Proof.
  intros Hle. unfold emplace_back_many.
  rewrite emplace_back_many_loop_as_range by (unfold bulk_fuel; lia).
  replace (count - Z.of_N 0) with count by lia.
  destruct (emplace_back_range_loop StaticSize construct_at
              (replicate (Z.to_nat count) args) m) as [[[]|e] m'];
    reflexivity.
Qed.

(** Appending the values [zs], built from [input], to a container in
    its invariant: either they fit and are appended in order, or the
    loop throws [std::logic_error] and the handler gives every slot
    back. *)
Lemma bulk_append_constructs (input : list Args) zs m :
  wf (vec m) -> Forall2 constructs input zs ->
  match emplace_back_range_loop StaticSize construct_at input m with
  | (Return _, m') =>
      (length (elements (vec m)) + length zs <= cap)%nat
      /\ vec m' = of_list (elements (vec m) ++ zs)
  | (Throw e, m1) =>
      (cap < length (elements (vec m)) + length zs)%nat
      /\ e = logic_error Messages.emplace_back_on_full
      /\ exists m',
          rollback (A:=unit) (size m) e m1 = Some (Throw e, m')
          /\ rollback (A:=N) (size m) e m1 = Some (Throw e, m')
          /\ vec m' = vec m
  end.
Proof.
  intros Hwf Hall.
  pose proof (emplace_back_range_loop_extends StaticSize construct_at input m
                Hwf) as Hext.
  destruct Hwf as (xs & Hle & Hv). destruct m as [v w tr].
  cbn [vec] in Hv. subst v. cbn [vec]. rewrite elements_of_list.
  destruct (Nat.le_gt_cases (length xs + length zs) cap) as [Hfit|Hover].
  - destruct (emplace_back_range_loop_constructs input zs xs w tr Hall Hfit)
      as (w' & tr' & ->).
    split; [exact Hfit|reflexivity].
  - pose proof (emplace_back_range_loop_overflows input zs xs w tr Hall Hle
                  Hover) as Hthrow.
    destruct (emplace_back_range_loop StaticSize construct_at input
                (Machine (of_list xs) w tr)) as [r m1].
    cbn [fst snd] in *. subst r.
    split; [lia|]. split; [reflexivity|].
    destruct (rollback_restores StaticSize (E:=E) (A:=unit)
                (logic_error Messages.emplace_back_on_full) _ m1 Hext)
      as (m' & Hroll & Hvec).
    exists m'. split; [exact Hroll|]. split; [|exact Hvec].
    rewrite rollback_pops in Hroll. rewrite rollback_pops.
    injection Hroll as Hm. rewrite Hm. reflexivity.
Qed.

Lemma Forall2_constructs_replicate (n : nat) args x :
  constructs args x -> Forall2 constructs (replicate n args) (replicate n x).
Proof. intros Hc. induction n; cbn; constructor; assumption. Qed.

Lemma wf_empty_vector : wf (empty_vector StaticSize).
Proof. rewrite <- of_list_nil. apply wf_of_list. cbn. lia. Qed.

Lemma elements_empty_vector : elements (empty_vector (T:=T) StaticSize) = [].
Proof. rewrite <- of_list_nil. apply elements_of_list. Qed.

Lemma length_elements_wf m :
  wf (vec m) -> length (elements (vec m)) = N.to_nat (size m).
Proof.
  intros (xs & Hle & Hv). unfold size. rewrite Hv, elements_of_list.
  cbn. lia.
Qed.

Lemma emplace_back_many_spec (count : Z) args x m :
  wf (vec m) -> constructs args x ->
  match emplace_back_many StaticSize construct_at count args m with
  | Some (Return _, m') =>
      Z.of_N (size m) + Z.max 0 count <= Z.of_N StaticSize
      /\ elements (vec m') = elements (vec m) ++ replicate (Z.to_nat count) x
      /\ wf (vec m')
  | Some (Throw e, m') =>
      Z.of_N StaticSize < Z.of_N (size m) + count
      /\ e = logic_error Messages.emplace_back_on_full
      /\ vec m' = vec m
  | None => False
  end.
Proof.
  intros Hwf Hc.
  rewrite emplace_back_many_as_range by (apply wf_size; exact Hwf).
  pose proof (bulk_append_constructs (replicate (Z.to_nat count) args)
                (replicate (Z.to_nat count) x) m Hwf
                (Forall2_constructs_replicate _ args x Hc)) as Hb.
  pose proof (length_elements_wf m Hwf) as Hlen.
  pose proof (wf_size StaticSize m Hwf) as Hle.
  rewrite length_replicate in Hb.
  destruct (emplace_back_range_loop StaticSize construct_at
              (replicate (Z.to_nat count) args) m) as [[[]|e] m1].
  - destruct Hb as (Hfit & Hv). split; [lia|]. rewrite Hv, elements_of_list.
    split; [reflexivity|]. apply wf_of_list.
    rewrite length_app, length_replicate. lia.
  - destruct Hb as (Hover & -> & m' & Hroll & _ & Hv). rewrite Hroll.
    split; [lia|]. split; [reflexivity|exact Hv].
Qed.

Lemma emplace_back_range_spec (input : list Args) zs m :
  wf (vec m) -> Z.of_N StaticSize < size_max ->
  Forall2 constructs input zs ->
  match emplace_back_range StaticSize construct_at input m with
  | Some (Return n, m') =>
      Z.of_N (size m) + Z.of_nat (length zs) <= Z.of_N StaticSize
      /\ n = N.of_nat (length zs)
      /\ elements (vec m') = elements (vec m) ++ zs
      /\ wf (vec m')
  | Some (Throw e, m') =>
      Z.of_N StaticSize < Z.of_N (size m) + Z.of_nat (length zs)
      /\ e = logic_error Messages.emplace_back_on_full
      /\ vec m' = vec m
  | None => False
  end.
Proof.
  intros Hwf H64 Hall. unfold emplace_back_range.
  pose proof (bulk_append_constructs input zs m Hwf Hall) as Hb.
  pose proof (length_elements_wf m Hwf) as Hlen.
  destruct (emplace_back_range_loop StaticSize construct_at input m)
    as [[[]|e] m1].
  - destruct Hb as (Hfit & Hv). split; [lia|].
    assert (Hsz : size m1 = N.of_nat (length (elements (vec m) ++ zs)))
      by (unfold size; rewrite Hv; reflexivity).
    rewrite Hv, elements_of_list. split; [|split; [reflexivity|]].
    + unfold to_size_type. rewrite Hsz, length_app, Z.mod_small by lia. lia.
    + apply wf_of_list. rewrite length_app. lia.
  - destruct Hb as (Hover & -> & m' & _ & Hroll & Hv). rewrite Hroll.
    split; [lia|]. split; [reflexivity|exact Hv].
Qed.

(** X12 — [emplace_back_many (count, args...)] with arguments from
    which construction succeeds with value [x]: the call returns exactly
    when [size () + max (count, 0)] is within the capacity, and then has
    appended [count] elements of value [x] after the old ones; otherwise
    it throws [std::logic_error], the check being made slot by slot, and
    the handler leaves every slot and the size as they were at entry. *)
Theorem emplace_back_many_appends_or_restores (count : Z) args x m :
  wf (vec m) -> constructs args x ->
  match emplace_back_many StaticSize construct_at count args m with
  | Some (Return _, m') =>
      Z.of_N (size m) + Z.max 0 count <= Z.of_N StaticSize
      /\ elements (vec m') = elements (vec m) ++ replicate (Z.to_nat count) x
      /\ wf (vec m')
  | Some (Throw e, m') =>
      Z.of_N StaticSize < Z.of_N (size m) + count
      /\ e = logic_error Messages.emplace_back_on_full
      /\ vec m' = vec m
  | None => False
  end.
Proof. apply emplace_back_many_spec. Qed.

(** X13 — [emplace_back_range (first, last)] over a range whose
    elements construct the values [zs]: it returns exactly when they
    fit, with the number of elements appended, [zs] then following the
    old elements in the order of the range; otherwise it throws
    [std::logic_error] and leaves every slot and the size as they were
    at entry. *)
Theorem emplace_back_range_appends_in_order_or_restores
    (input : list Args) zs m :
  wf (vec m) -> Z.of_N StaticSize < size_max ->
  Forall2 constructs input zs ->
  match emplace_back_range StaticSize construct_at input m with
  | Some (Return n, m') =>
      Z.of_N (size m) + Z.of_nat (length zs) <= Z.of_N StaticSize
      /\ n = N.of_nat (length zs)
      /\ elements (vec m') = elements (vec m) ++ zs
      /\ wf (vec m')
  | Some (Throw e, m') =>
      Z.of_N StaticSize < Z.of_N (size m) + Z.of_nat (length zs)
      /\ e = logic_error Messages.emplace_back_on_full
      /\ vec m' = vec m
  | None => False
  end.
Proof. apply emplace_back_range_spec. Qed.

(** X14 — whatever the element constructors do, a bulk append that
    throws, be it for lack of room or because a constructor threw part
    of the way, leaves not only the size but every slot as it was at
    entry; one that returns leaves the container in its invariant; and
    both always come back. *)
Theorem bulk_append_that_throws_restores_every_slot
    (count : Z) args (input : list Args) m :
  wf (vec m) ->
  match emplace_back_many StaticSize construct_at count args m with
  | Some (r, m') => wf (vec m') /\ (is_throw r = true -> vec m' = vec m)
  | None => False
  end
  /\ match emplace_back_range StaticSize construct_at input m with
     | Some (r, m') => wf (vec m') /\ (is_throw r = true -> vec m' = vec m)
     | None => False
     end.
Proof.
  intros Hwf. pose proof (wf_size StaticSize m Hwf) as Hle. split.
  - destruct (emplace_back_many_grows StaticSize construct_at count args m Hle)
      as ([r m'] & Hrun & _).
    rewrite Hrun.
    exact (emplace_back_many_restores StaticSize construct_at count args m r m'
             Hwf Hrun).
  - destruct (emplace_back_range_grows StaticSize construct_at input m Hle)
      as ([r m'] & Hrun & _).
    rewrite Hrun.
    exact (emplace_back_range_restores StaticSize construct_at input m r m'
             Hwf Hrun).
Qed.

(* ---------------------------------------------------------------------- *)
(** ** Constructors and the two-argument resize *)

Local Abbreviation fresh := (@fresh T World StaticSize).

Lemma wf_fresh w : wf (vec (fresh w)).
Proof. apply wf_empty_vector. Qed.

Lemma wf_of_elements (v : @static_vector T) : wf v -> v = of_list (elements v).
Proof. intros (xs & _ & ->). rewrite elements_of_list. reflexivity. Qed.

Lemma clear_spec m :
  wf (vec m) ->
  exists m', clear m = Some m' /\ vec m' = empty_vector StaticSize.
Proof.
  intros (xs & Hle & Hv). destruct m as [v w tr]. cbn [vec] in Hv. subst v.
  unfold clear. rewrite shrink_to_pops by lia. eexists.
  split; [reflexivity|].
  destruct (pops_of_list StaticSize
              (N.to_nat (size (Machine (of_list xs) w tr) - Z.to_N 0))
              xs w tr Hle) as [Hv _].
  rewrite Hv.
  replace (length xs
           - N.to_nat (size (Machine (of_list xs) w tr) - Z.to_N 0))%nat
    with O by (unfold size; cbn [vec]; rewrite size_of_list; lia).
  apply of_list_nil.
Qed.

Lemma catch_clear_spec {A} (r : outcome E A) m :
  wf (vec m) ->
  exists m',
    catch_clear (r, m) = Some (forget r, m')
    /\ (is_throw r = false -> m' = m)
    /\ (is_throw r = true -> vec m' = empty_vector StaticSize).
Proof.
  intros Hwf. destruct r as [a|e]; cbn [catch_clear forget is_throw].
  - exists m. repeat split. discriminate.
  - destruct (clear_spec m Hwf) as (m' & -> & Hv). exists m'.
    repeat split; [discriminate|intros _; exact Hv].
Qed.

(** X15 — the size constructor and the size-and-value constructor, for
    an element type whose default construction gives [d] and whose copy
    of [init] gives [init]: for [0 <= count <= capacity ()], the capacity
    itself included, they build [count] elements of that value; for a
    larger [count] they throw [std::logic_error] and what is left is the
    empty container. *)
Theorem size_constructors_build_count_elements (count : Z) init d w :
  constructs default_init d -> constructs (copy_init init) init ->
  match ctor_count StaticSize construct_at default_init count w with
  | Some (Return _, m) =>
      count <= Z.of_N StaticSize
      /\ elements (vec m) = replicate (Z.to_nat count) d
  | Some (Throw e, m) =>
      Z.of_N StaticSize < count
      /\ e = logic_error Messages.emplace_back_on_full
      /\ vec m = empty_vector StaticSize
  | None => False
  end
  /\ match ctor_count_init StaticSize construct_at copy_init count init w with
     | Some (Return _, m) =>
         count <= Z.of_N StaticSize
         /\ elements (vec m) = replicate (Z.to_nat count) init
     | Some (Throw e, m) =>
         Z.of_N StaticSize < count
         /\ e = logic_error Messages.emplace_back_on_full
         /\ vec m = empty_vector StaticSize
     | None => False
     end.
Proof.
  intros Hd Hc. unfold ctor_count, ctor_count_init. split.
  - pose proof (emplace_back_many_spec count default_init d (fresh w)
                  (wf_fresh w) Hd) as Hs.
    destruct (emplace_back_many StaticSize construct_at count default_init
                (fresh w)) as [[[[]|e] m]|]; [| |exact Hs].
    + destruct Hs as (Hfit & Hel & _). cbn [vec StaticVector.fresh] in Hel.
      rewrite elements_empty_vector in Hel.
      split; [change (size (fresh w)) with 0%N in Hfit; lia|exact Hel].
    + destruct Hs as (Hover & -> & Hv).
      split; [change (size (fresh w)) with 0%N in Hover; lia|].
      split; [reflexivity|exact Hv].
  - pose proof (emplace_back_many_spec count (copy_init init) init (fresh w)
                  (wf_fresh w) Hc) as Hs.
    destruct (emplace_back_many StaticSize construct_at count (copy_init init)
                (fresh w)) as [[[[]|e] m]|]; [| |exact Hs].
    + destruct Hs as (Hfit & Hel & _). cbn [vec StaticVector.fresh] in Hel.
      rewrite elements_empty_vector in Hel.
      split; [change (size (fresh w)) with 0%N in Hfit; lia|exact Hel].
    + destruct Hs as (Hover & -> & Hv).
      split; [change (size (fresh w)) with 0%N in Hover; lia|].
      split; [reflexivity|exact Hv].
Qed.

(** X16 — the two-argument [resize (count, init)], for [count] not
    negative and a copy of [init] that gives [init]: for [count] within
    the capacity it returns with exactly [count] elements, the first
    [min (count, size ())] old ones followed by copies of [init]; for a
    larger [count] it throws [std::logic_error] and changes no slot. *)
Theorem resize_with_value_reaches_count (count : Z) init m :
  wf (vec m) -> constructs (copy_init init) init ->
  0 <= count < size_max ->
  match resize_init StaticSize construct_at copy_init count init m with
  | Some (Return _, m') =>
      count <= Z.of_N StaticSize
      /\ Z.of_N (size m') = count
      /\ elements (vec m')
         = take (Z.to_nat count) (elements (vec m))
             ++ replicate (Z.to_nat count - length (elements (vec m))) init
  | Some (Throw e, m') =>
      Z.of_N StaticSize < count
      /\ e = logic_error Messages.emplace_back_on_full
      /\ vec m' = vec m
  | None => False
  end.
Proof.
  intros Hwf Hc Hcount. pose proof (wf_size StaticSize m Hwf) as Hle.
  pose proof (length_elements_wf m Hwf) as Hlen.
  unfold resize_init, cmp_less_equal.
  destruct (Z.leb_spec count (Z.of_N (size m))) as [Hsmall|Hbig].
  - destruct (shrink_to_returns StaticSize count m Hwf (proj1 Hcount))
      as (m' & -> & Hsize & Hel & _).
    split; [lia|]. split; [lia|].
    rewrite Hel.
    replace (Z.to_nat count - length (elements (vec m)))%nat with O by lia.
    rewrite app_nil_r. f_equal. lia.
  - unfold to_size_type. rewrite (Z.mod_small count) by lia.
    rewrite Z2N.id by lia. rewrite Z.mod_small by lia.
    pose proof (emplace_back_many_spec (count - Z.of_N (size m))
                  (copy_init init) init m Hwf Hc) as Hs.
    destruct (emplace_back_many StaticSize construct_at
                (count - Z.of_N (size m)) (copy_init init) m)
      as [[[[]|e] m']|]; [| |exact Hs].
    + destruct Hs as (Hfit & Hel & Hwf'). split; [lia|].
      pose proof (length_elements_wf m' Hwf') as Hlen'.
      rewrite Hel, length_app, length_replicate in Hlen'.
      split; [lia|]. rewrite Hel.
      rewrite take_ge by lia. f_equal. f_equal. lia.
    + destruct Hs as (Hover & -> & Hv). split; [lia|].
      split; [reflexivity|exact Hv].
Qed.

Lemma range_loop_on_fresh (input : list Args) zs w :
  Forall2 constructs input zs ->
  match catch_clear (emplace_back_range_loop StaticSize construct_at input
                                             (fresh w)) with
  | Some (Return _, m) =>
      (length zs <= cap)%nat /\ vec m = of_list zs
      /\ emplace_back_range_loop StaticSize construct_at input (fresh w)
         = (Return (), m)
  | Some (Throw e, m) =>
      (cap < length zs)%nat
      /\ e = logic_error Messages.emplace_back_on_full
      /\ vec m = empty_vector StaticSize
  | None => False
  end.
Proof.
  intros Hall.
  pose proof (bulk_append_constructs input zs (fresh w) (wf_fresh w) Hall)
    as Hb.
  pose proof (emplace_back_range_loop_extends StaticSize construct_at input
                (fresh w) (wf_fresh w)) as Hext.
  apply extends_wf in Hext.
  cbn [vec StaticVector.fresh] in Hb. rewrite elements_empty_vector in Hb.
  cbn [length app Nat.add] in Hb.
  destruct (emplace_back_range_loop StaticSize construct_at input (fresh w))
    as [[[]|e] m1]; cbn [snd] in Hext.
  - cbn [catch_clear]. destruct Hb as (Hfit & Hv).
    split; [exact Hfit|]. split; [exact Hv|reflexivity].
  - destruct (catch_clear_spec (A:=unit) (Throw e) m1 Hext)
      as (m' & -> & _ & Hv).
    cbn [forget]. destruct Hb as (Hover & -> & _).
    split; [exact Hover|]. split; [reflexivity|apply Hv; reflexivity].
Qed.

(** X17 — the iterator-range constructor, to which the range and the
    array constructors delegate, and the variadic constructor, over
    arguments that construct the values [zs]: when there are at most
    [capacity ()] of them the container holds exactly [zs], in order;
    when there are more, the constructor throws [std::logic_error] and
    what is left is the empty container. The variadic constructor does
    the same; its [noexcept] variant agrees whenever the arguments fit. *)
Theorem range_constructor_builds_the_elements_in_order
    (input : list Args) zs w :
  Forall2 constructs input zs ->
  match ctor_range StaticSize construct_at input w with
  | Some (Return _, m) =>
      (length zs <= cap)%nat /\ vec m = of_list zs /\ elements (vec m) = zs
  | Some (Throw e, m) =>
      (cap < length zs)%nat
      /\ e = logic_error Messages.emplace_back_on_full
      /\ vec m = empty_vector StaticSize
  | None => False
  end
  /\ ctor_in_place StaticSize construct_at false input w
     = ctor_range StaticSize construct_at input w
  /\ ((length zs <= cap)%nat ->
      ctor_in_place StaticSize construct_at true input w
      = ctor_range StaticSize construct_at input w).
Proof.
  intros Hall. pose proof (range_loop_on_fresh input zs w Hall) as Hr.
  unfold ctor_range, ctor_in_place. split; [|split; [reflexivity|]].
  - destruct (catch_clear
                (emplace_back_range_loop StaticSize construct_at input
                                         (fresh w)))
      as [[[[]|e] m]|]; [| |exact Hr].
    + destruct Hr as (Hfit & Hv & _). split; [exact Hfit|].
      split; [exact Hv|]. rewrite Hv. apply elements_of_list.
    + exact Hr.
  - intros Hfit.
    destruct (catch_clear
                (emplace_back_range_loop StaticSize construct_at input
                                         (fresh w)))
      as [[[[]|e] m]|] eqn:Hcc; [| |contradiction].
    + destruct Hr as (_ & _ & ->). reflexivity.
    + destruct Hr as (Hover & _). lia.
Qed.

(** X18 — the variadic constructor with a target size, over at most
    [capacity ()] arguments that construct the values [zs] and with
    default construction giving [d]: for [count] within the capacity
    the container holds [zs] followed by default-constructed elements up
    to [count] elements, hence [max (count, number of arguments)]
    elements in all, a [count] smaller than the number of arguments
    removing nothing; for a larger [count] the constructor throws
    [std::logic_error] and what is left is the empty container. *)
Theorem sized_variadic_constructor_pads_with_defaults
    (count : Z) (args : list Args) zs d w :
  Forall2 constructs args zs -> constructs default_init d ->
  (length zs <= cap)%nat -> count < size_max ->
  match ctor_count_in_place StaticSize construct_at default_init count args w
  with
  | Some (Return _, m) =>
      count <= Z.of_N StaticSize
      /\ elements (vec m) = zs ++ replicate (Z.to_nat count - length zs) d
      /\ Z.of_nat (length (elements (vec m)))
         = Z.max count (Z.of_nat (length zs))
  | Some (Throw e, m) =>
      Z.of_N StaticSize < count
      /\ e = logic_error Messages.emplace_back_on_full
      /\ vec m = empty_vector StaticSize
  | None => False
  end.
Proof.
  intros Hall Hd Hfit Hcount.
  pose proof (range_loop_on_fresh args zs w Hall) as Hr.
  unfold ctor_count_in_place.
  pose proof (Forall2_length _ _ _ Hall) as Hlen.
  destruct (emplace_back_range_loop StaticSize construct_at args (fresh w))
    as [[[]|e] m1] eqn:Hloop; cbn [catch_clear] in Hr.
  2:{ destruct (clear m1) as [m'|]; [|contradiction].
      destruct Hr as (Hover & _). lia. }
  destruct Hr as (_ & Hv1 & _).
  assert (Hwf1 : wf (vec m1)) by (rewrite Hv1; apply wf_of_list; exact Hfit).
  assert (Hsz1 : size m1 = N.of_nat (length zs))
    by (unfold size; rewrite Hv1; reflexivity).
  assert (Hel1 : elements (vec m1) = zs)
    by (rewrite Hv1; apply elements_of_list).
  unfold cmp_less. rewrite Hlen.
  destruct (Z.ltb_spec (Z.of_nat (length zs)) count) as [Hlt|Hge].
  - unfold to_size_type. rewrite (Z.mod_small count) by lia.
    rewrite Z2N.id by lia. rewrite Z.mod_small by lia.
    pose proof (emplace_back_many_spec (count - Z.of_nat (length zs))
                  default_init d m1 Hwf1 Hd) as Hs.
    destruct (emplace_back_many StaticSize construct_at
                (count - Z.of_nat (length zs)) default_init m1)
      as [[[[]|e] m2]|]; [| |exact Hs].
    + cbn [catch_clear]. destruct Hs as (Hroom & Hel & _).
      rewrite Hsz1 in Hroom. rewrite Hel, Hel1.
      split; [lia|].
      replace (Z.to_nat (count - Z.of_nat (length zs)))
        with (Z.to_nat count - length zs)%nat by lia.
      split; [reflexivity|]. rewrite length_app, length_replicate. lia.
    + destruct Hs as (Hover & -> & Hv2).
      assert (Hwf2 : wf (vec m2)) by (rewrite Hv2; exact Hwf1).
      destruct (catch_clear_spec (A:=unit)
                  (Throw (logic_error Messages.emplace_back_on_full)) m2 Hwf2)
        as (m' & -> & _ & Hv).
      cbn [forget]. rewrite Hsz1 in Hover.
      split; [lia|]. split; [reflexivity|apply Hv; reflexivity].
  - rewrite Hel1.
    replace (Z.to_nat count - length zs)%nat with O by lia.
    cbn [replicate]. rewrite app_nil_r.
    split; [lia|]. split; [reflexivity|lia].
Qed.

(* ---------------------------------------------------------------------- *)
(** ** Insertion *)

Local Abbreviation insert := (insert StaticSize construct_at copy_init).
Local Abbreviation insert_move :=
  (insert_move StaticSize construct_at move_init).

Lemma lookup_inserted xs (p : nat) ys :
  (p <= length xs)%nat ->
  forall i y, ys !! i = Some y ->
    (take p xs ++ ys ++ drop p xs) !! (p + i)%nat = Some y.
Proof.
  intros Hp i y Hy.
  rewrite lookup_app_r by (rewrite length_take; lia).
  rewrite length_take, Nat.min_l by exact Hp.
  replace (p + i - p)%nat with i by lia.
  rewrite lookup_app_l by (eapply lookup_lt_Some; exact Hy). exact Hy.
Qed.

(** X19 — [insert (pos, value_type&&)] at a position of the container:
    on a full container it throws [std::logic_error] and changes
    nothing, as the copying overload does; otherwise, when the move
    constructor returns [x], it returns [pos], [x] is the element at
    [pos], the elements that were before [pos] are untouched and those
    from [pos] on follow [x] in their order; and when the constructor
    throws, no slot has changed. *)
Theorem insert_puts_the_new_element_at_pos pos init m :
  wf (vec m) -> valid_pos pos m ->
  (full m = true ->
   insert pos init m
   = (Throw (logic_error Messages.emplace_back_on_full), m)
   /\ insert_move pos init m
      = (Throw (logic_error Messages.emplace_back_on_full), m))
  /\ (full m = false ->
      match construct_at (move_init init) (world m) with
      | (inr x, w') =>
          fst (insert_move pos init m) = Return pos
          /\ elements (vec (snd (insert_move pos init m)))
             = take (Z.to_nat (m_ptr pos)) (elements (vec m))
                 ++ x :: drop (Z.to_nat (m_ptr pos)) (elements (vec m))
          /\ deref pos (snd (insert_move pos init m)) = Some x
          /\ size (snd (insert_move pos init m)) = (size m + 1)%N
          /\ wf (vec (snd (insert_move pos init m)))
      | (inl e, w') =>
          fst (insert_move pos init m) = Throw (element_error e)
          /\ vec (snd (insert_move pos init m)) = vec m
      end).
Proof.
  intros (xs & Hle & Hv) Hpos. destruct m as [v w tr].
  cbn [vec world] in *. subst v.
  unfold valid_pos, begin_, end_, size in Hpos. cbn [vec m_ptr] in Hpos.
  rewrite size_of_list in Hpos.
  unfold StaticVector.full, max_size, size. cbn [vec].
  rewrite size_of_list.
  destruct (N.eqb_spec (N.of_nat (length xs)) StaticSize) as [Heq|Hne];
    (split; [intros Hf|intros Hf]); try discriminate.
  - unfold StaticVector.insert, StaticVector.insert_move.
    rewrite !(emplace_back_of_list StaticSize construct_at) by exact Hle.
    replace (length xs =? cap)%nat with true
      by (symmetry; apply Nat.eqb_eq; lia).
    split; reflexivity.
  - unfold StaticVector.insert_move.
    rewrite (append_and_rotate StaticSize construct_at (move_init init) xs
               (Z.to_nat (m_ptr pos)) w tr pos) by lia.
    destruct (construct_at (move_init init) w) as [[e|x] w'];
      cbn [fst snd vec].
    + split; reflexivity.
    + rewrite !elements_of_list.
      assert (Hlen : length (take (Z.to_nat (m_ptr pos)) xs
                               ++ x :: drop (Z.to_nat (m_ptr pos)) xs)
                     = S (length xs)).
      { rewrite length_app, length_take. cbn [length].
        rewrite length_drop. lia. }
      split; [reflexivity|]. split; [reflexivity|]. split.
      * unfold deref, slot_at, value. cbn [vec].
        destruct (Z.ltb_spec (m_ptr pos) 0); [lia|].
        rewrite Z_N_nat.
        rewrite (lookup_of_list_live StaticSize _ (Z.to_nat (m_ptr pos)) x);
          [reflexivity|].
        pose proof (lookup_inserted xs (Z.to_nat (m_ptr pos)) [x]) as Hl.
        assert (Hp : (Z.to_nat (m_ptr pos) <= length xs)%nat) by lia.
        specialize (Hl Hp 0%nat x eq_refl).
        rewrite Nat.add_0_r in Hl. exact Hl.
      * split; [|apply wf_of_list; rewrite Hlen; lia].
        unfold size. cbn [vec]. rewrite !size_of_list.
        change (take (Z.to_nat (m_ptr pos)) xs
                  ++ [x] ++ drop (Z.to_nat (m_ptr pos)) xs)
          with (take (Z.to_nat (m_ptr pos)) xs
                  ++ x :: drop (Z.to_nat (m_ptr pos)) xs).
        rewrite Hlen. lia.
Qed.

(** X20 — [insert (pos, count, init)] at a position of the container,
    for [count] not negative and a copy of [init] that gives [init]:
    when [size () + count] is within the capacity it returns [pos], and
    the container holds the elements that were before [pos], then
    [count] copies of [init], then the elements that were at and after
    [pos]; otherwise it throws [std::logic_error] and changes no slot. *)
Theorem insert_count_puts_copies_at_pos pos (count : Z) init m :
  wf (vec m) -> valid_pos pos m -> 0 <= count ->
  constructs (copy_init init) init ->
  match insert_count StaticSize construct_at copy_init pos count init m with
  | Some (Return it, m') =>
      it = pos
      /\ Z.of_N (size m) + count <= Z.of_N StaticSize
      /\ elements (vec m')
         = take (Z.to_nat (m_ptr pos)) (elements (vec m))
             ++ replicate (Z.to_nat count) init
             ++ drop (Z.to_nat (m_ptr pos)) (elements (vec m))
      /\ wf (vec m')
  | Some (Throw e, m') =>
      Z.of_N StaticSize < Z.of_N (size m) + count
      /\ e = logic_error Messages.emplace_back_on_full
      /\ vec m' = vec m
  | None => False
  end.
Proof.
  intros Hwf Hpos Hcount Hc. unfold insert_count.
  pose proof (emplace_back_many_spec count (copy_init init) init m Hwf Hc)
    as Hs.
  pose proof (length_elements_wf m Hwf) as Hlen.
  unfold valid_pos, begin_, end_ in Hpos. cbn [m_ptr] in Hpos.
  destruct (emplace_back_many StaticSize construct_at count (copy_init init) m)
    as [[[[]|e] m1]|]; [|exact Hs|exact Hs].
  destruct Hs as (Hfit & Hel & Hwf1).
  split; [reflexivity|]. split; [lia|].
  destruct m1 as [v1 w1 tr1]. cbn [vec] in *.
  rewrite (wf_of_elements v1 Hwf1), Hel.
  rewrite (ranges_rotate_of_list StaticSize (elements (vec m))
             (replicate (Z.to_nat count) init) (Z.to_nat (m_ptr pos)) w1 tr1).
  - cbn [vec]. rewrite elements_of_list. split; [reflexivity|].
    apply wf_of_list.
    rewrite !length_app, length_take, length_replicate, length_drop. lia.
  - lia.
  - rewrite length_app, length_replicate. lia.
  - lia.
  - unfold minus, sub_assign, end_, size. cbn [snd m_ptr vec].
    rewrite size_of_list, length_app, length_replicate. lia.
  - unfold end_, size. cbn [m_ptr vec]. rewrite size_of_list. lia.
Qed.

(** X21 — [insert (pos, first, last)] at a position of the container,
    over a range whose elements construct the values [zs]: when they fit
    it returns [pos], and the container holds the elements that were
    before [pos], then [zs] in the order of the range, then the elements
    that were at and after [pos]; otherwise it throws [std::logic_error]
    and changes no slot. *)
Theorem insert_range_puts_the_range_at_pos pos (input : list Args) zs m :
  wf (vec m) -> Z.of_N StaticSize < size_max -> valid_pos pos m ->
  Forall2 constructs input zs ->
  match insert_range StaticSize construct_at pos input m with
  | Some (Return it, m') =>
      it = pos
      /\ Z.of_N (size m) + Z.of_nat (length zs) <= Z.of_N StaticSize
      /\ elements (vec m')
         = take (Z.to_nat (m_ptr pos)) (elements (vec m))
             ++ zs ++ drop (Z.to_nat (m_ptr pos)) (elements (vec m))
      /\ wf (vec m')
  | Some (Throw e, m') =>
      Z.of_N StaticSize < Z.of_N (size m) + Z.of_nat (length zs)
      /\ e = logic_error Messages.emplace_back_on_full
      /\ vec m' = vec m
  | None => False
  end.
Proof.
  intros Hwf H64 Hpos Hall. unfold insert_range.
  pose proof (emplace_back_range_spec input zs m Hwf H64 Hall) as Hs.
  pose proof (length_elements_wf m Hwf) as Hlen.
  unfold valid_pos, begin_, end_ in Hpos. cbn [m_ptr] in Hpos.
  destruct (emplace_back_range StaticSize construct_at input m)
    as [[[n|e] m1]|]; [|exact Hs|exact Hs].
  destruct Hs as (Hfit & -> & Hel & Hwf1).
  split; [reflexivity|]. split; [lia|].
  destruct m1 as [v1 w1 tr1]. cbn [vec] in *.
  rewrite (wf_of_elements v1 Hwf1), Hel.
  rewrite (ranges_rotate_of_list StaticSize (elements (vec m)) zs
             (Z.to_nat (m_ptr pos)) w1 tr1).
  - cbn [vec]. rewrite elements_of_list. split; [reflexivity|].
    apply wf_of_list. rewrite !length_app, length_take, length_drop. lia.
  - lia.
  - rewrite length_app. lia.
  - lia.
  - unfold minus, sub_assign, end_, size. cbn [snd m_ptr vec].
    rewrite size_of_list, length_app. lia.
  - unfold end_, size. cbn [m_ptr vec]. rewrite size_of_list. lia.
Qed.

(* ---------------------------------------------------------------------- *)
(** ** Copying and moving whole containers *)

Lemma ranges_copy_loop_over (ys : list T) :
  forall (pre mid post : list (@lazy_storage T)),
    length mid = length ys ->
    ranges_copy_loop ys (length pre) (pre ++ mid ++ post)
    = pre ++ (Some <$> ys) ++ post.
Proof.
  induction ys as [|y ys IH]; intros pre mid post Hlen.
  - destruct mid; [reflexivity|discriminate].
  - destruct mid as [|s mid]; [discriminate|]. cbn [ranges_copy_loop].
    unfold copy_assign.
    assert (Hins : <[length pre := Some y]> (pre ++ (s :: mid) ++ post)
                   = (pre ++ [Some y]) ++ mid ++ post).
    { rewrite insert_app_r_alt by apply Nat.le_refl. rewrite Nat.sub_diag.
      rewrite <- app_assoc. reflexivity. }
    rewrite Hins.
    assert (Hl : S (length pre) = length (pre ++ [Some y]))
      by (rewrite length_app; cbn [length]; lia).
    rewrite Hl, IH by (cbn [length] in Hlen; lia).
    rewrite <- app_assoc. reflexivity.
Qed.

Lemma ranges_copy_of_list (ys xs : list T) w tr :
  (length ys <= length xs)%nat -> (length xs <= cap)%nat ->
  ranges_copy ys (begin_ (Machine (of_list xs) w tr))
              (Machine (of_list xs) w tr)
  = Machine (of_list (ys ++ drop (length ys) xs)) w tr.
Proof.
  intros Hys Hxs. unfold ranges_copy, with_vec, begin_. cbn [vec m_ptr].
  unfold StaticVector.of_list. cbn [m_size m_storage Z.to_nat].
  assert (Hlen : length (ys ++ drop (length ys) xs) = length xs)
    by (rewrite length_app, length_drop; lia).
  rewrite Hlen. do 2 f_equal.
  rewrite <- (take_drop (length ys) xs) at 1.
  rewrite fmap_app, <- app_assoc.
  pose proof (ranges_copy_loop_over ys [] (Some <$> take (length ys) xs)
                ((Some <$> drop (length ys) xs)
                   ++ replicate (cap - length xs) uninit)) as Hover.
  cbn [length app] in Hover. unfold lazy_storage in *.
  change (Z.to_nat 0) with 0%nat.
  rewrite Hover by (rewrite length_fmap, length_take; lia).
  rewrite fmap_app, <- app_assoc. reflexivity.
Qed.

Lemma Forall2_constructs_fmap (f : T -> Args) (xs : list T) :
  (forall x, constructs (f x) x) -> Forall2 constructs (f <$> xs) xs.
Proof.
  intros Hf. induction xs as [|x xs IH]; constructor; [apply Hf|exact IH].
Qed.

(** Assignment from a container that is not shorter: the elements in
    place are assigned, the others appended. *)
Lemma assign_growing (f : T -> Args) (os xs : list T) w tr :
  (forall x, constructs (f x) x) -> Z.of_N StaticSize < size_max ->
  (length xs <= length os)%nat -> (length os <= cap)%nat ->
  exists n m',
    emplace_back_range StaticSize construct_at (f <$> drop (length xs) os)
      (ranges_copy (take (length xs) os) (begin_ (Machine (of_list xs) w tr))
                   (Machine (of_list xs) w tr))
    = Some (Return n, m')
    /\ vec m' = of_list os.
Proof.
  intros Hf H64 Hle Hcap.
  rewrite ranges_copy_of_list by (rewrite ?length_take; lia).
  rewrite length_take, Nat.min_l by exact Hle.
  rewrite drop_all, app_nil_r.
  pose proof (emplace_back_range_spec (f <$> drop (length xs) os)
                (drop (length xs) os)
                (Machine (of_list (take (length xs) os)) w tr)) as Hs.
  cbn [vec] in Hs.
  assert (Hwf : wf (of_list (take (length xs) os)))
    by (apply wf_of_list; rewrite length_take; lia).
  specialize (Hs Hwf H64 (Forall2_constructs_fmap f _ Hf)).
  unfold size in Hs. cbn [vec] in Hs.
  rewrite size_of_list, length_take, length_drop, elements_of_list,
    take_drop in Hs.
  destruct (emplace_back_range StaticSize construct_at
              (f <$> drop (length xs) os)
              (Machine (of_list (take (length xs) os)) w tr))
    as [[[n|e] m1]|]; [|exfalso; lia|contradiction].
  destruct Hs as (_ & _ & Hel & Hwf1).
  exists n, m1. split; [reflexivity|].
  rewrite (wf_of_elements _ Hwf1), Hel. reflexivity.
Qed.

(** Assignment from a shorter container: the elements are assigned over
    the first ones, the others popped. *)
Lemma assign_shrinking (os xs : list T) w tr :
  (length os < length xs)%nat -> (length xs <= cap)%nat ->
  exists m',
    shrink_to (Z.of_N (m_size (of_list os)))
      (ranges_copy os (begin_ (Machine (of_list xs) w tr))
                   (Machine (of_list xs) w tr))
    = Some m'
    /\ vec m' = of_list os.
Proof.
  intros Hlt Hcap.
  rewrite ranges_copy_of_list by lia.
  assert (Hlen : length (os ++ drop (length os) xs) = length xs)
    by (rewrite length_app, length_drop; lia).
  assert (Hwf : wf (vec (Machine (of_list (os ++ drop (length os) xs)) w tr)))
    by (apply wf_of_list; lia).
  destruct (shrink_to_returns StaticSize (Z.of_N (m_size (of_list os))) _ Hwf)
    as (m' & Hrun & Hsize & Hel & Hwf'); [lia|].
  exists m'. split; [exact Hrun|].
  rewrite (wf_of_elements _ Hwf'), Hel. cbn [vec].
  rewrite elements_of_list.
  unfold size in Hsize. cbn [vec] in Hsize.
  rewrite !size_of_list, Hlen in Hsize.
  assert (Hn : N.to_nat (size m') = length os) by (unfold size; lia).
  rewrite Hn, take_app_length. reflexivity.
Qed.

(** X22 — when copying or moving an element gives an equal element, the
    copy constructor and the move constructor of a container in its
    invariant return, and the new container has the size and the
    elements of the other, in order. *)
Theorem copy_and_move_constructors_rebuild_the_other
    (other : @static_vector T) w :
  wf other ->
  (forall x, constructs (copy_init x) x) ->
  (forall x, constructs (move_init x) x) ->
  exists mc mm,
    ctor_copy StaticSize construct_at copy_init other w
    = Some (Return (), mc)
    /\ ctor_move StaticSize construct_at move_init other w
       = Some (Return (), mm)
    /\ vec mc = other /\ vec mm = other.
Proof.
  intros (os & Hle & ->) Hc Hm.
  unfold ctor_copy, ctor_move, ctor_range. rewrite elements_of_list.
  pose proof (range_loop_on_fresh (copy_init <$> os) os w
                (Forall2_constructs_fmap copy_init os Hc)) as H1.
  pose proof (range_loop_on_fresh (move_init <$> os) os w
                (Forall2_constructs_fmap move_init os Hm)) as H2.
  destruct (catch_clear
              (emplace_back_range_loop StaticSize construct_at
                 (copy_init <$> os) (fresh w)))
    as [[[[]|e1] mc]|]; [|exfalso; lia|contradiction].
  destruct (catch_clear
              (emplace_back_range_loop StaticSize construct_at
                 (move_init <$> os) (fresh w)))
    as [[[[]|e2] mm]|]; [|exfalso; lia|contradiction].
  exists mc, mm. destruct H1 as (_ & H1 & _). destruct H2 as (_ & H2 & _).
  repeat split; assumption.
Qed.

(** X23 — when copying or moving an element gives an equal element,
    copy assignment and move assignment from a container in its
    invariant return and leave the assigned container equal to the other
    one, whether it was shorter or longer before. *)
Theorem assignment_makes_the_container_equal_to_the_other
    (other : @static_vector T) m :
  wf (vec m) -> wf other -> Z.of_N StaticSize < size_max ->
  (forall x, constructs (copy_init x) x) ->
  (forall x, constructs (move_init x) x) ->
  exists mc mm,
    copy_assignment StaticSize construct_at copy_init other m
    = Some (Return (), mc)
    /\ move_assignment StaticSize construct_at move_init other m
       = Some (Return (), mm)
    /\ vec mc = other /\ vec mm = other.
Proof.
  intros (xs & Hle & Hv) (os & Hole & ->) H64 Hc Hm.
  destruct m as [v w tr]. cbn [vec] in Hv. subst v.
  unfold copy_assignment, move_assignment, size. cbn [vec].
  rewrite elements_of_list, !size_of_list, Nat2N.id.
  destruct (N.leb_spec (N.of_nat (length xs)) (N.of_nat (length os)))
    as [Hcmp|Hcmp].
  - destruct (assign_growing copy_init os xs w tr Hc H64)
      as (n1 & m1 & -> & Hv1); [lia|exact Hole|].
    destruct (assign_growing move_init os xs w tr Hm H64)
      as (n2 & m2 & -> & Hv2); [lia|exact Hole|].
    exists m1, m2. repeat split; assumption.
  - destruct (assign_shrinking os xs w tr) as (m1 & Hrun & Hv1);
      [lia|exact Hle|].
    rewrite size_of_list in Hrun. rewrite Hrun.
    exists m1, m1. repeat split; assumption.
Qed.

(* ---------------------------------------------------------------------- *)
(** ** The representation invariant, call by call *)

Local Abbreviation run_op :=
  (run_op StaticSize construct_at default_init copy_init move_init moved_from).
Local Abbreviation run_ctor :=
  (run_ctor StaticSize construct_at default_init copy_init move_init).
Local Abbreviation valid_ctor := (@valid_ctor T Args StaticSize).

Lemma wf_pops k m : wf (vec m) -> wf (vec (pops k m)).
Proof.
  intros (xs & Hle & Hv). destruct m as [v w tr]. cbn [vec] in Hv. subst v.
  destruct (pops_of_list StaticSize k xs w tr Hle) as [-> _].
  apply wf_of_list. rewrite length_take. lia.
Qed.

Lemma shrink_to_wf count m :
  wf (vec m) ->
  match shrink_to count m with
  | Some m' => wf (vec m')
  | None => count < 0
  end.
Proof.
  intros Hwf. destruct (Z.ltb_spec count 0) as [Hneg|Hc].
  - rewrite shrink_to_negative by exact Hneg. exact Hneg.
  - destruct (shrink_to_returns StaticSize count m Hwf Hc)
      as (m' & -> & _ & _ & Hwf').
    exact Hwf'.
Qed.

(** The bulk appends always come back, with the elements found at entry
    still in front. *)
Lemma emplace_back_many_total count args m :
  wf (vec m) ->
  exists r m',
    emplace_back_many StaticSize construct_at count args m = Some (r, m')
    /\ extends m m'
    /\ (is_throw r = false ->
        Z.of_N (size m') = Z.of_N (size m) + Z.max 0 count).
Proof.
  intros Hwf. pose proof (wf_size StaticSize m Hwf) as Hle.
  destruct (emplace_back_many_grows StaticSize construct_at count args m Hle)
    as ([r m'] & Hrun & (_ & Hret & _) & _).
  exists r, m'. split; [exact Hrun|]. split; [|exact Hret].
  unfold emplace_back_many in Hrun.
  destruct (emplace_back_many_loop StaticSize construct_at
              (bulk_fuel StaticSize m) 0 count args m)
    as [[[[]|e] m1]|] eqn:Hloop; [| |discriminate].
  - injection Hrun as <- <-.
    eapply emplace_back_many_loop_extends; eassumption.
  - destruct (rollback_restores StaticSize (E:=E) (A:=unit) e m m1)
      as (m2 & Hroll & Hv).
    { eapply emplace_back_many_loop_extends; eassumption. }
    rewrite Hroll in Hrun. injection Hrun as <- <-.
    destruct Hwf as (xs & Hxs & Hm). exists xs, []. rewrite app_nil_r.
    repeat split; [exact Hxs|exact Hm|rewrite Hv; exact Hm].
Qed.

Lemma emplace_back_range_total (input : list Args) m :
  wf (vec m) ->
  exists r m',
    emplace_back_range StaticSize construct_at input m = Some (r, m')
    /\ extends m m'
    /\ (forall n, r = Return n ->
        Z.of_N n = Z.of_nat (length input) mod size_max
        /\ Z.of_N (size m') = Z.of_N (size m) + Z.of_nat (length input)).
Proof.
  intros Hwf. pose proof (wf_size StaticSize m Hwf) as Hle.
  destruct (emplace_back_range_grows StaticSize construct_at input m Hle)
    as ([r m'] & Hrun & _).
  exists r, m'. split; [exact Hrun|]. split.
  - unfold emplace_back_range in Hrun.
    pose proof (emplace_back_range_loop_extends StaticSize construct_at input
                  m Hwf) as Hext.
    destruct (emplace_back_range_loop StaticSize construct_at input m)
      as [[[]|e] m1]; cbn [snd] in Hext.
    + injection Hrun as <- <-. exact Hext.
    + destruct (rollback_restores StaticSize (E:=E) (A:=N) e m m1 Hext)
        as (m2 & Hroll & Hv).
      rewrite Hroll in Hrun. injection Hrun as <- <-.
      destruct Hwf as (xs & Hxs & Hm). exists xs, []. rewrite app_nil_r.
      repeat split; [exact Hxs|exact Hm|rewrite Hv; exact Hm].
  - intros n ->.
    exact (emplace_back_range_returns StaticSize construct_at input m n m'
             Hle Hrun).
Qed.

(** Rotating what has just been appended down to a position of the
    container keeps the invariant. *)
Lemma wf_rotate_after_append m m1 pos (k : Z) :
  extends m m1 -> valid_pos pos m ->
  Z.of_N (size m1) = Z.of_N (size m) + k ->
  wf (vec (ranges_rotate pos (minus (end_ m1) k) (end_ m1) m1)).
Proof.
  intros (xs & ys & Hle & Hv & Hv1) Hpos Hk.
  destruct m1 as [v1 w1 tr1]. cbn [vec] in Hv1. subst v1.
  unfold valid_pos, begin_, end_, size in Hpos. rewrite Hv in Hpos.
  cbn [m_ptr] in Hpos. rewrite size_of_list in Hpos.
  unfold size in Hk. rewrite Hv in Hk. cbn [vec] in Hk.
  rewrite !size_of_list, length_app in Hk.
  rewrite (ranges_rotate_of_list StaticSize xs ys (Z.to_nat (m_ptr pos))
             w1 tr1).
  - cbn [vec]. apply wf_of_list.
    rewrite !length_app, length_take, length_drop.
    rewrite length_app in Hle. lia.
  - lia.
  - exact Hle.
  - lia.
  - unfold minus, sub_assign, end_, size. cbn [snd m_ptr vec].
    rewrite size_of_list, length_app. lia.
  - unfold end_, size. cbn [m_ptr vec]. rewrite size_of_list. lia.
Qed.

Lemma wf_insert_body args pos m :
  wf (vec m) -> valid_pos pos m ->
  wf (vec (snd (match emplace_back args m with
                | (Throw e, m1) => (Throw e, m1)
                | (Return _, m1) =>
                    (Return pos,
                     ranges_rotate pos (minus (end_ m1) 1) (end_ m1) m1)
                end))).
Proof.
  intros (xs & Hle & Hv) Hpos. destruct m as [v w tr].
  cbn [vec] in Hv. subst v.
  unfold valid_pos, begin_, end_, size in Hpos. cbn [vec m_ptr] in Hpos.
  rewrite size_of_list in Hpos.
  destruct (Nat.eqb_spec (length xs) cap) as [Heq|Hne].
  - rewrite (emplace_back_of_list StaticSize construct_at) by exact Hle.
    replace (length xs =? cap)%nat with true
      by (symmetry; apply Nat.eqb_eq; exact Heq).
    cbn [snd vec]. apply wf_of_list. exact Hle.
  - rewrite (append_and_rotate StaticSize construct_at args xs
               (Z.to_nat (m_ptr pos)) w tr pos) by lia.
    destruct (construct_at args w) as [[e|x] w']; cbn [snd vec];
      apply wf_of_list; [exact Hle|].
    rewrite length_app, length_take. cbn [length]. rewrite length_drop. lia.
Qed.

(** Moving a range onto itself leaves each element as a move assignment
    from itself leaves it. *)
Lemma ranges_move_of_list_self pre tailv w tr
    (from upto dest : storage_iterator) :
  m_ptr dest = Z.of_nat (length pre) ->
  m_ptr from = Z.of_nat (length pre) ->
  m_ptr upto = Z.of_nat (length (pre ++ tailv)) ->
  ranges_move moved_from from upto dest
              (Machine (of_list (pre ++ tailv)) w tr)
  = Machine (of_list (pre ++ (moved_from <$> tailv))) w tr.
Proof.
  intros Hd Hf Hu. unfold ranges_move, distance, with_vec.
  rewrite Hd, Hf, Hu. cbn [vec world trace]. f_equal.
  unfold StaticVector.of_list. cbn [m_size m_storage].
  assert (Hlen : length (pre ++ (moved_from <$> tailv))
                 = length (pre ++ tailv))
    by (rewrite !length_app, length_fmap; reflexivity).
  rewrite Hlen. f_equal.
  replace (Z.to_nat (Z.of_nat (length (pre ++ tailv))
                     - Z.of_nat (length pre)))
    with (length (Some <$> tailv : list (@lazy_storage T)))
    by (rewrite length_fmap, !length_app; lia).
  replace (Z.to_nat (Z.of_nat (length pre)))
    with (length (Some <$> pre : list (@lazy_storage T)))
    by (rewrite length_fmap; lia).
  rewrite !fmap_app, <- !app_assoc.
  rewrite ranges_move_loop_self. do 2 f_equal.
  rewrite <- !list_fmap_compose. reflexivity.
Qed.

Lemma erase_range_wf (first upto : storage_iterator) m :
  wf (vec m) -> valid_pos first m -> valid_pos upto m ->
  m_ptr first <= m_ptr upto ->
  exists m',
    erase_range moved_from first upto m = Some (first, m') /\ wf (vec m').
Proof.
  intros (xs & Hle & Hv) Hf Hu Hfu. destruct m as [v w tr].
  cbn [vec] in Hv. subst v.
  unfold valid_pos, begin_, end_, size in Hf, Hu. cbn [vec m_ptr] in Hf, Hu.
  rewrite size_of_list in Hf, Hu.
  set (f := Z.to_nat (m_ptr first)). set (u := Z.to_nat (m_ptr upto)).
  assert (Hlf : length (take f xs) = f) by (rewrite length_take; lia).
  destruct (Z.eq_dec (m_ptr first) (m_ptr upto)) as [Heq|Hne].
  - exists (Machine (of_list (take f xs ++ (moved_from <$> drop f xs))) w tr).
    split.
    + rewrite <- (take_drop f xs) at 1. unfold erase_range.
      rewrite (ranges_move_of_list_self (take f xs) (drop f xs) w tr).
      * rewrite shrink_by_pops. unfold distance.
        rewrite Heq, Z.sub_diag. change (Z.to_N 0) with 0%N.
        rewrite N.min_0_l. reflexivity.
      * lia.
      * lia.
      * unfold end_, size. cbn [vec m_ptr].
        rewrite size_of_list. lia.
    + apply wf_of_list.
      rewrite length_app, length_take, length_fmap, length_drop. lia.
  - assert (Hsplit : xs = take f xs ++ take (u - f) (drop f xs) ++ drop u xs).
    { rewrite <- (take_drop f xs) at 1. f_equal.
      rewrite <- (take_drop (u - f) (drop f xs)) at 1. f_equal.
      rewrite drop_drop. f_equal. lia. }
    assert (Hlg : length (take (u - f) (drop f xs)) = (u - f)%nat)
      by (rewrite length_take, length_drop; lia).
    destruct (erase_range_of_list (take f xs) (take (u - f) (drop f xs))
                (drop u xs) w tr first upto) as (tr' & Hrun).
    + intros Hnil. rewrite Hnil in Hlg. cbn in Hlg. lia.
    + rewrite <- Hsplit. exact Hle.
    + lia.
    + lia.
    + rewrite <- Hsplit in Hrun. eexists. split; [exact Hrun|].
      apply wf_of_list. rewrite length_app, length_take, length_drop. lia.
Qed.

(** Assignment keeps the invariant whatever the element constructors
    do; [f] builds the constructor arguments from an element of the
    other container. *)
Lemma copy_assignment_wf (f : T -> Args) (other : @static_vector T) m :
  wf (vec m) -> wf other ->
  exists r m',
    copy_assignment StaticSize construct_at f other m = Some (r, m')
    /\ wf (vec m').
Proof.
  intros (xs & Hle & Hv) (os & Hole & ->).
  destruct m as [v w tr]. cbn [vec] in Hv. subst v.
  unfold copy_assignment, size. cbn [vec].
  rewrite elements_of_list, !size_of_list, Nat2N.id.
  destruct (N.leb_spec (N.of_nat (length xs)) (N.of_nat (length os)))
    as [Hcmp|Hcmp].
  - rewrite ranges_copy_of_list by (rewrite ?length_take; lia).
    rewrite length_take, Nat.min_l by lia.
    rewrite drop_all, app_nil_r.
    assert (Hwf1 : wf (vec (Machine (of_list (take (length xs) os)) w tr)))
      by (apply wf_of_list; rewrite length_take; lia).
    destruct (emplace_back_range_total (f <$> drop (length xs) os) _ Hwf1)
      as (r & m2 & -> & Hext & _).
    apply extends_wf in Hext.
    destruct r; eexists _, m2; (split; [reflexivity|exact Hext]).
  - destruct (assign_shrinking os xs w tr) as (m1 & Hrun & Hv1);
      [lia|exact Hle|].
    rewrite size_of_list in Hrun. rewrite Hrun.
    exists (Return ()), m1. split; [reflexivity|].
    rewrite Hv1. apply wf_of_list. exact Hole.
Qed.

Lemma catch_clear_wf {A} (res : outcome E A * machine) :
  wf (vec (snd res)) ->
  exists r m', catch_clear res = Some (r, m') /\ wf (vec m').
Proof.
  destruct res as [r m]. cbn [snd]. intros Hwf.
  destruct (catch_clear_spec r m Hwf) as (m' & -> & Hkeep & Hclear).
  exists (forget r), m'. split; [reflexivity|].
  destruct r as [a|e]; cbn [is_throw] in *.
  - rewrite Hkeep by reflexivity. exact Hwf.
  - rewrite Hclear by reflexivity. apply wf_empty_vector.
Qed.

(** X24 — every member function keeps the representation invariant
    (the first [size ()] slots live, the others not, and
    [size () <= capacity ()]) when it is called within its requirements
    ([valid_op]) on a container in its invariant: with positions of that
    container, for [erase (pos)] a position before [end ()], ranges the
    right way round, a count to insert that is not negative, and for
    copy assignment an element type whose copies do not throw. This
    holds whether the call returns or throws, and whatever the other
    element constructors do. Of these calls the only ones that do not
    come back are those that reach [shrink_to] with a negative target. *)
Theorem operations_keep_the_representation_invariant (o : op) m :
  wf (vec m) -> Z.of_N StaticSize < size_max ->
  valid_op StaticSize construct_at copy_init o m ->
  match run_op o m with
  | Some (r, m') => wf (vec m')
  | None => hangs o = true
  end.
Proof.
  intros Hwf H64 Hvalid.
  destruct o;
    cbn [StaticVector.run_op total returning forgetting hangs
         StaticVector.valid_op fst snd] in *.
  - rewrite at_unchanged. exact Hwf.
  - unfold front. rewrite at_unchanged. exact Hwf.
  - unfold back. rewrite at_unchanged. exact Hwf.
  - apply (extends_wf StaticSize m). apply emplace_back_extends. exact Hwf.
  - apply (extends_wf StaticSize m). apply emplace_back_extends. exact Hwf.
  - apply (extends_wf StaticSize m). apply emplace_back_extends. exact Hwf.
  - exact (wf_pops 1 m Hwf).
  - apply wf_insert_body; assumption.
  - apply wf_insert_body; assumption.
  - destruct (erase_before_end StaticSize moved_from pos m Hwf Hvalid)
      as (-> & _ & Hwf' & _).
    exact Hwf'.
  - destruct (clear_spec m Hwf) as (m' & -> & Hv).
    cbn [returning]. rewrite Hv. apply wf_empty_vector.
  - destruct (shrink_by_returns StaticSize count m Hwf)
      as (m' & -> & _ & _ & Hwf').
    exact Hwf'.
  - pose proof (shrink_to_wf count m Hwf) as Hs.
    destruct (shrink_to count m); [exact Hs|apply Z.ltb_lt; exact Hs].
  - unfold StaticVector.resize.
    destruct (cmp_less_equal count (Z.of_N (size m))).
    + pose proof (shrink_to_wf count m Hwf) as Hs.
      destruct (shrink_to count m); [exact Hs|apply Z.ltb_lt; exact Hs].
    + destruct (emplace_back_many_total count default_init m Hwf)
        as (r & m' & -> & Hext & _).
      eapply extends_wf. exact Hext.
  - unfold StaticVector.resize_init.
    destruct (cmp_less_equal count (Z.of_N (size m))).
    + pose proof (shrink_to_wf count m Hwf) as Hs.
      destruct (shrink_to count m); [exact Hs|apply Z.ltb_lt; exact Hs].
    + match goal with
      | |- context [StaticVector.emplace_back_many _ _ ?c ?a m] =>
          destruct (emplace_back_many_total c a m Hwf)
            as (r & m' & -> & Hext & _)
      end.
      eapply extends_wf. exact Hext.
  - destruct Hvalid as (Hf & Hu & Hfu).
    destruct (erase_range_wf _ _ m Hwf Hf Hu Hfu) as (m' & -> & Hwf').
    exact Hwf'.
  - destruct Hvalid as (Hpos & Hcount). unfold insert_count.
    destruct (emplace_back_many_total count (copy_init init) m Hwf)
      as (r & m1 & -> & Hext & Hsize).
    destruct r as [[]|e]; cbn [forgetting].
    + apply (wf_rotate_after_append m m1 pos count Hext Hpos).
      rewrite Hsize by reflexivity. lia.
    + eapply extends_wf. exact Hext.
  - unfold insert_range.
    destruct (emplace_back_range_total input m Hwf)
      as (r & m1 & -> & Hext & Hsize).
    destruct r as [n|e]; cbn [forgetting].
    + destruct (Hsize n eq_refl) as (Hn & Hsz).
      apply (wf_rotate_after_append m m1 pos (Z.of_N n) Hext Hvalid).
      rewrite Hsz, Hn. pose proof (wf_size StaticSize m1 (extends_wf StaticSize m m1 Hext)) as Hcap.
      rewrite Z.mod_small by lia. reflexivity.
    + eapply extends_wf. exact Hext.
  - destruct (emplace_back_many_total count args m Hwf)
      as (r & m' & -> & Hext & _).
    eapply extends_wf. exact Hext.
  - destruct (emplace_back_range_total input m Hwf)
      as (r & m' & -> & Hext & _).
    cbn [forgetting]. eapply extends_wf. exact Hext.
  - destruct Hvalid as (Hother & _).
    destruct (copy_assignment_wf copy_init other m Hwf Hother)
      as (r & m' & -> & Hwf').
    exact Hwf'.
  - change (StaticVector.move_assignment StaticSize construct_at move_init
              other m)
      with (copy_assignment StaticSize construct_at move_init other m).
    destruct (copy_assignment_wf move_init other m Hwf Hvalid)
      as (r & m' & -> & Hwf').
    exact Hwf'.
Qed.

(** When the loop of [emplace_back] throws, either an element
    constructor threw, or the container was full with arguments left. *)
Lemma emplace_back_range_loop_throws (input : list Args) m e :
  fst (emplace_back_range_loop StaticSize construct_at input m) = Throw e ->
  (exists err, e = element_error err)
  \/ (e = logic_error Messages.emplace_back_on_full
      /\ Z.of_N StaticSize < Z.of_N (size m) + Z.of_nat (length input)).
Proof.
  revert m. induction input as [|a input IH]; intros m Hthrow;
    [discriminate|].
  cbn [emplace_back_range_loop] in Hthrow.
  destruct (emplace_back_cases StaticSize construct_at a m)
    as [(Hfull & Heq)|[(Hfull & x & w' & _ & Heq)|(Hfull & err & w' & _ & Heq)]];
    rewrite Heq in Hthrow.
  - cbn [fst] in Hthrow. injection Hthrow as <-. right.
    split; [reflexivity|].
    unfold StaticVector.full, max_size in Hfull. apply N.eqb_eq in Hfull.
    cbn [length]. lia.
  - apply IH in Hthrow. destruct Hthrow as [Hel|(He & Hlt)];
      [left; exact Hel|right].
    split; [exact He|].
    unfold size in Hlt. cbn [vec m_size] in Hlt. cbn [length].
    unfold size. lia.
  - cbn [fst] in Hthrow. injection Hthrow as <-. left. exists err.
    reflexivity.
Qed.

(** X25 — every constructor called within its requirements
    ([valid_ctor]) leaves the container in its representation
    invariant, whether it returns or throws and whatever the element
    constructors do. The only construction that does not come back is
    the variant of the variadic constructor declared [noexcept], when an
    exception reaches its boundary: the container's own
    [std::logic_error] because there are more arguments than
    [capacity ()], or the exception of an element constructor. With
    element constructors that do not throw and at most [capacity ()]
    arguments that variant returns. *)
Theorem constructors_establish_the_representation_invariant (c : ctor) w :
  valid_ctor c ->
  match run_ctor c w with
  | Some (r, m) => wf (vec m)
  | None =>
      exists args,
        c = CtorInPlace true args
        /\ ((cap < length args)%nat
            \/ exists err,
                 fst (emplace_back_range_loop StaticSize construct_at args
                                              (fresh w))
                 = Throw (element_error err))
  end
  /\ (forall args,
         nothrow_constructible construct_at -> (length args <= cap)%nat ->
         exists m,
           run_ctor (CtorInPlace true args) w = Some (Return (), m)
           /\ wf (vec m)).
Proof.
  intros _. pose proof (wf_fresh w) as Hwf. split.
  2:{ intros args Hnothrow Hfit. cbn [StaticVector.run_ctor].
      unfold ctor_in_place.
      pose proof (emplace_back_range_loop_extends StaticSize construct_at args
                    (fresh w) Hwf) as Hext.
      apply extends_wf in Hext.
      pose proof (emplace_back_range_loop_advances StaticSize construct_at
                    args (fresh w) (wf_size StaticSize _ Hwf))
        as (_ & _ & Hbenign & _).
      specialize (Hbenign Hnothrow).
      pose proof (emplace_back_range_loop_throws args (fresh w)) as Hthrows.
      destruct (emplace_back_range_loop StaticSize construct_at args (fresh w))
        as [[[]|e] m1]; cbn [fst snd] in *.
      - exists m1. split; [reflexivity|exact Hext].
      - exfalso. destruct (Hthrows e eq_refl) as [(err & ->)|(_ & Hlt)].
        + discriminate Hbenign.
        + change (Z.of_N (size (fresh w))) with 0 in Hlt. lia. }
  destruct c; cbn [StaticVector.run_ctor].
  - exact Hwf.
  - unfold ctor_count.
    destruct (emplace_back_many_total count default_init (fresh w) Hwf)
      as (r & m' & -> & Hext & _).
    eapply extends_wf. exact Hext.
  - unfold ctor_count_init.
    destruct (emplace_back_many_total count (copy_init init) (fresh w) Hwf)
      as (r & m' & -> & Hext & _).
    eapply extends_wf. exact Hext.
  - unfold ctor_in_place.
    pose proof (emplace_back_range_loop_extends StaticSize construct_at args
                  (fresh w) Hwf) as Hext.
    apply extends_wf in Hext.
    destruct is_noexcept.
    + pose proof (emplace_back_range_loop_throws args (fresh w)) as Hthrows.
      destruct (emplace_back_range_loop StaticSize construct_at args (fresh w))
        as [[[]|e] m1] eqn:Hloop; [exact Hext|].
      exists args. split; [reflexivity|].
      destruct (Hthrows e eq_refl) as [(err & ->)|(_ & Hlt)].
      * right. exists err. rewrite Hloop. reflexivity.
      * left. change (Z.of_N (size (fresh w))) with 0 in Hlt. lia.
    + destruct (catch_clear_wf _ Hext) as (r & m' & -> & Hwf').
      exact Hwf'.
  - unfold ctor_count_in_place.
    pose proof (emplace_back_range_loop_extends StaticSize construct_at args
                  (fresh w) Hwf) as Hext.
    apply extends_wf in Hext.
    destruct (emplace_back_range_loop StaticSize construct_at args (fresh w))
      as [[[]|e] m1]; cbn [snd] in Hext.
    + destruct (cmp_less (Z.of_nat (length args)) count); [|exact Hext].
      match goal with
      | |- context [StaticVector.emplace_back_many _ _ ?k ?a m1] =>
          destruct (emplace_back_many_total k a m1 Hext)
            as (r & m2 & -> & Hext2 & _)
      end.
      apply extends_wf in Hext2.
      destruct (catch_clear_wf (r, m2) Hext2) as (r' & m' & -> & Hwf').
      exact Hwf'.
    + destruct (catch_clear_wf (Throw (A:=unit) e, m1) Hext)
        as (r' & m' & -> & Hwf').
      exact Hwf'.
  - unfold ctor_range.
    pose proof (emplace_back_range_loop_extends StaticSize construct_at input
                  (fresh w) Hwf) as Hext.
    apply extends_wf in Hext.
    destruct (catch_clear_wf _ Hext) as (r & m' & -> & Hwf'). exact Hwf'.
  - unfold ctor_copy, ctor_range.
    pose proof (emplace_back_range_loop_extends StaticSize construct_at
                  (copy_init <$> elements other) (fresh w) Hwf) as Hext.
    apply extends_wf in Hext.
    destruct (catch_clear_wf _ Hext) as (r & m' & -> & Hwf'). exact Hwf'.
  - unfold ctor_move, ctor_range.
    pose proof (emplace_back_range_loop_extends StaticSize construct_at
                  (move_init <$> elements other) (fresh w) Hwf) as Hext.
    apply extends_wf in Hext.
    destruct (catch_clear_wf _ Hext) as (r & m' & -> & Hwf'). exact Hwf'.
Qed.
End Further.

(* ---------------------------------------------------------------------- *)
(** ** Instances of the further properties at [static_vector<int, 5>] *)

Section FurtherInstances.

Local Abbreviation five := Sample.StaticSize.
Local Abbreviation always := Sample.construct_always.
Local Abbreviation h789 := (Sample.holding [7; 8; 9] 0).

Local Ltac holds := eexists; split; [|reflexivity]; vm_compute; lia.
Local Ltac succeeds := intros ?; eexists; reflexivity.
Local Ltac all_succeed :=
  repeat first [constructor; [succeeds|] | constructor].
Local Ltac position := unfold valid_pos; simpl; lia.

(** In [{10, 20, 30}], [begin () + 1] designates 20 and has index 1. *)
Lemma iterators_designate_the_elements_witness :
  wf five (vec (Sample.holding [10; 20; 30] 0))
  /\ deref (plus (begin_ (Sample.holding [10; 20; 30] 0)) 1)
           (Sample.holding [10; 20; 30] 0) = Some 20
  /\ index_of (plus (cbegin (Sample.holding [10; 20; 30] 0)) 1)
              (Sample.holding [10; 20; 30] 0) = 1%N.
Proof.
  assert (Hwf : wf five (vec (Sample.holding [10; 20; 30] 0))) by holds.
  assert (H64 : Z.of_N five < size_max) by reflexivity.
  assert (Hi : 0 <= 1 < Z.of_N (size (Sample.holding [10; 20; 30] 0)))
    by (simpl; lia).
  destruct (iterators_designate_the_elements (E:=unit) five 1
              (Sample.holding [10; 20; 30] 0) Hwf H64 Hi)
    as (_ & Hd & _ & Hidx & _).
  split; [exact Hwf|]. split; [exact Hd|exact Hidx].
Defined.

(** [pop_back] on [{7, 8, 9}] leaves [{7, 8}]. *)
Lemma pop_back_removes_the_last_element_witness :
  wf five (vec h789) /\ elements (vec (pop_back h789)) = [7; 8].
Proof.
  assert (Hwf : wf five (vec h789)) by holds.
  destruct (pop_back_removes_the_last_element five h789 Hwf)
    as (_ & Hne & _).
  destruct Hne as [Hel _]; [vm_compute; discriminate|].
  split; [exact Hwf|exact Hel].
Defined.

(** [emplace_back (4)] on [{7, 8, 9}] gives [{7, 8, 9, 4}], and
    [pop_back] then gives [{7, 8, 9}] back. *)
Lemma emplace_back_appends_and_pop_back_undoes_witness :
  wf five (vec h789)
  /\ full five h789 = false
  /\ elements (vec (snd (emplace_back five always (Some 4) h789)))
     = [7; 8; 9; 4]
  /\ vec (pop_back (snd (emplace_back five always (Some 4) h789)))
     = vec h789.
Proof.
  assert (Hwf : wf five (vec h789)) by holds.
  assert (Hfull : full five h789 = false) by reflexivity.
  destruct (emplace_back_appends_and_pop_back_undoes five always (Some 4) 4
              1%nat h789 Hwf Hfull eq_refl)
    as (_ & Hel & _ & _ & _ & _ & Hback).
  split; [exact Hwf|]. split; [exact Hfull|]. split; [exact Hel|exact Hback].
Defined.

(** [clear] on [{7, 8, 9}] destroys the slots 2, 1 and 0, in this
    order. *)
Lemma clear_destroys_every_element_once_witness :
  wf five (vec h789)
  /\ exists m',
       clear h789 = Some m'
       /\ size m' = 0%N
       /\ trace m' = [EvDestroy 2 true; EvDestroy 1 true; EvDestroy 0 true].
Proof.
  assert (Hwf : wf five (vec h789)) by holds.
  destruct (clear_destroys_every_element_once five h789 Hwf)
    as (m' & Hrun & _ & Hsize & _ & Htr & _).
  split; [exact Hwf|]. exists m'.
  split; [exact Hrun|]. split; [exact Hsize|exact Htr].
Defined.

(** [shrink_by (2)] on [{7, 8, 9}] leaves [{7}]. *)
Lemma shrink_by_leaves_a_prefix_witness :
  wf five (vec h789)
  /\ exists m', shrink_by 2 h789 = Some m' /\ elements (vec m') = [7].
Proof.
  assert (Hwf : wf five (vec h789)) by holds.
  destruct (shrink_by_leaves_a_prefix five 2 h789 Hwf)
    as (m' & Hrun & Hsize & Hel & _).
  split; [exact Hwf|]. exists m'. split; [exact Hrun|].
  change (Z.of_N (size h789)) with 3 in Hsize.
  assert (Hs : size m' = 1%N) by lia.
  rewrite Hel, Hs. reflexivity.
Defined.

(** [shrink_to (1)] on [{7, 8, 9}] leaves [{7}]. *)
Lemma shrink_to_leaves_a_prefix_witness :
  wf five (vec h789) /\ 0 <= 1
  /\ exists m', shrink_to 1 h789 = Some m' /\ elements (vec m') = [7].
Proof.
  assert (Hwf : wf five (vec h789)) by holds.
  assert (Hc : 0 <= 1) by lia.
  destruct (shrink_to_leaves_a_prefix five 1 h789 Hwf Hc)
    as (m' & Hrun & Hsize & Hel & _).
  split; [exact Hwf|]. split; [exact Hc|]. exists m'. split; [exact Hrun|].
  change (Z.of_N (size h789)) with 3 in Hsize.
  assert (Hs : size m' = 1%N) by lia.
  rewrite Hel, Hs. reflexivity.
Defined.

(** Erasing at position 1 of [{7, 8, 9}] leaves [{7, 9}]. *)
Lemma erase_removes_the_element_at_pos_witness :
  wf five (vec h789)
  /\ m_ptr (begin_ h789) <= m_ptr (Iter 1) < m_ptr (end_ h789)
  /\ elements (vec (snd (erase Sample.moved_from (Iter 1) h789))) = [7; 9].
Proof.
  assert (Hwf : wf five (vec h789)) by holds.
  assert (Hpos : m_ptr (begin_ h789) <= m_ptr (Iter 1) < m_ptr (end_ h789))
    by (simpl; lia).
  destruct (erase_removes_the_element_at_pos five Sample.moved_from (Iter 1)
              h789 Hwf Hpos) as (_ & Hel & _).
  split; [exact Hwf|]. split; [exact Hpos|exact Hel].
Defined.

(** Erasing the positions 1 and 2 of [{1, 2, 3, 4, 5}] leaves
    [{1, 4, 5}]. *)
Lemma erase_range_removes_exactly_the_range_witness :
  wf five (vec (Sample.holding [1; 2; 3; 4; 5] 0))
  /\ exists m',
       erase_range Sample.moved_from (Iter 1) (Iter 3)
                   (Sample.holding [1; 2; 3; 4; 5] 0)
       = Some (Iter 1, m')
       /\ elements (vec m') = [1; 4; 5].
Proof.
  assert (Hwf : wf five (vec (Sample.holding [1; 2; 3; 4; 5] 0))) by holds.
  destruct (erase_range_removes_exactly_the_range five Sample.moved_from
              (Iter 1) (Iter 3) (Sample.holding [1; 2; 3; 4; 5] 0) Hwf)
    as (m' & Hrun & Hel & _); [simpl; lia|simpl; lia|].
  split; [exact Hwf|]. exists m'. split; [exact Hrun|exact Hel].
Defined.

(** [emplace_back_many (2, 9)] on [{7, 8, 9}] gives [{7, 8, 9, 9, 9}]. *)
Lemma emplace_back_many_appends_or_restores_witness :
  wf five (vec h789) /\ constructs always (Some 9) 9
  /\ match emplace_back_many five always 2 (Some 9) h789 with
     | Some (Return _, m') => elements (vec m') = [7; 8; 9; 9; 9]
     | Some (Throw _, _) | None => False
     end.
Proof.
  assert (Hwf : wf five (vec h789)) by holds.
  assert (Hc : constructs always (Some 9) 9) by succeeds.
  split; [exact Hwf|]. split; [exact Hc|].
  pose proof (emplace_back_many_appends_or_restores five always 2 (Some 9) 9
                h789 Hwf Hc) as W.
  revert W.
  destruct (emplace_back_many five always 2 (Some 9) h789)
    as [[[[]|e] m']|]; intros W.
  - destruct W as (_ & Hel & _). exact Hel.
  - destruct W as (Hlt & _). vm_compute in Hlt. discriminate Hlt.
  - exact W.
Defined.

(** [emplace_back_range] of one copied and one value-initialised element
    on [{7, 8, 9}] gives [{7, 8, 9, 1, 0}] and returns 2. *)
Lemma emplace_back_range_appends_in_order_or_restores_witness :
  wf five (vec h789) /\ Forall2 (constructs always) [Some 1; None] [1; 0]
  /\ match emplace_back_range five always [Some 1; None] h789 with
     | Some (Return n, m') => n = 2%N /\ elements (vec m') = [7; 8; 9; 1; 0]
     | Some (Throw _, _) | None => False
     end.
Proof.
  assert (Hwf : wf five (vec h789)) by holds.
  assert (H64 : Z.of_N five < size_max) by reflexivity.
  assert (Hall : Forall2 (constructs always) [Some 1; None] [1; 0])
    by all_succeed.
  split; [exact Hwf|]. split; [exact Hall|].
  pose proof (emplace_back_range_appends_in_order_or_restores five always
                [Some 1; None] [1; 0] h789 Hwf H64 Hall) as W.
  revert W.
  destruct (emplace_back_range five always [Some 1; None] h789)
    as [[[n|e] m']|]; intros W.
  - destruct W as (_ & Hn & Hel & _). split; [exact Hn|exact Hel].
  - destruct W as (Hlt & _). vm_compute in Hlt. discriminate Hlt.
  - exact W.
Defined.

(** With an element type whose second construction throws,
    [emplace_back_many (2, 1)] on [{7, 8, 9}] throws and leaves every
    slot as it was. *)
Lemma bulk_append_that_throws_restores_every_slot_witness :
  wf five (vec (Sample.holding [7; 8; 9] 1))
  /\ exists e m',
       emplace_back_many five Sample.construct_at 2 (Some 1)
                         (Sample.holding [7; 8; 9] 1)
       = Some (Throw e, m')
       /\ vec m' = vec (Sample.holding [7; 8; 9] 1).
Proof.
  assert (Hwf : wf five (vec (Sample.holding [7; 8; 9] 1))) by holds.
  split; [exact Hwf|].
  destruct (bulk_append_that_throws_restores_every_slot five
              Sample.construct_at 2 (Some 1) []
              (Sample.holding [7; 8; 9] 1) Hwf) as [W _].
  revert W.
  destruct (emplace_back_many five Sample.construct_at 2 (Some 1)
                              (Sample.holding [7; 8; 9] 1))
    as [[[[]|e] m']|] eqn:Hrun; intros W.
  - vm_compute in Hrun. discriminate Hrun.
  - exists e, m'. split; [reflexivity|]. apply (proj2 W). reflexivity.
  - contradiction.
Defined.

(** [static_vector (3, 7)] holds [{7, 7, 7}]. *)
Lemma size_constructors_build_count_elements_witness :
  constructs always Sample.default_init 0
  /\ constructs always (Sample.copy_init 7) 7
  /\ match ctor_count_init five always Sample.copy_init 3 7 0%nat with
     | Some (Return _, m) => elements (vec m) = [7; 7; 7]
     | Some (Throw _, _) | None => False
     end.
Proof.
  assert (Hd : constructs always Sample.default_init 0) by succeeds.
  assert (Hc : constructs always (Sample.copy_init 7) 7) by succeeds.
  split; [exact Hd|]. split; [exact Hc|].
  destruct (size_constructors_build_count_elements five always
              Sample.default_init Sample.copy_init 3 7 0 0%nat Hd Hc)
    as [_ W].
  revert W.
  destruct (ctor_count_init five always Sample.copy_init 3 7 0%nat)
    as [[[[]|e] m]|]; intros W.
  - destruct W as (_ & Hel). exact Hel.
  - destruct W as (Hlt & _). vm_compute in Hlt. discriminate Hlt.
  - exact W.
Defined.

(** [resize (5, 1)] on [{7, 8, 9}] gives [{7, 8, 9, 1, 1}]. *)
Lemma resize_with_value_reaches_count_witness :
  wf five (vec h789) /\ constructs always (Sample.copy_init 1) 1
  /\ 0 <= 5 < size_max
  /\ match resize_init five always Sample.copy_init 5 1 h789 with
     | Some (Return _, m') => elements (vec m') = [7; 8; 9; 1; 1]
     | Some (Throw _, _) | None => False
     end.
Proof.
  assert (Hwf : wf five (vec h789)) by holds.
  assert (Hc : constructs always (Sample.copy_init 1) 1) by succeeds.
  assert (Hcount : 0 <= 5 < size_max) by (split; [lia|reflexivity]).
  split; [exact Hwf|]. split; [exact Hc|]. split; [exact Hcount|].
  pose proof (resize_with_value_reaches_count five always Sample.copy_init
                5 1 h789 Hwf Hc Hcount) as W.
  revert W.
  destruct (resize_init five always Sample.copy_init 5 1 h789)
    as [[[[]|e] m']|]; intros W.
  - destruct W as (_ & _ & Hel). exact Hel.
  - destruct W as (Hlt & _). vm_compute in Hlt. discriminate Hlt.
  - exact W.
Defined.

(** The range constructor over three elements builds them in order. *)
Lemma range_constructor_builds_the_elements_in_order_witness :
  Forall2 (constructs always) [Some 1; Some 2; None] [1; 2; 0]
  /\ match ctor_range five always [Some 1; Some 2; None] 0%nat with
     | Some (Return _, m) => elements (vec m) = [1; 2; 0]
     | Some (Throw _, _) | None => False
     end.
Proof.
  assert (Hall : Forall2 (constructs always) [Some 1; Some 2; None] [1; 2; 0])
    by all_succeed.
  split; [exact Hall|].
  destruct (range_constructor_builds_the_elements_in_order five always
              [Some 1; Some 2; None] [1; 2; 0] 0%nat Hall) as [W _].
  revert W.
  destruct (ctor_range five always [Some 1; Some 2; None] 0%nat)
    as [[[[]|e] m]|]; intros W.
  - destruct W as (_ & _ & Hel). exact Hel.
  - destruct W as (Hlt & _). vm_compute in Hlt. lia.
  - exact W.
Defined.

(** [static_vector (4, std::in_place, 1, 2)] holds [{1, 2, 0, 0}]. *)
Lemma sized_variadic_constructor_pads_with_defaults_witness :
  Forall2 (constructs always) [Some 1; Some 2] [1; 2]
  /\ constructs always Sample.default_init 0
  /\ match ctor_count_in_place five always Sample.default_init 4
                               [Some 1; Some 2] 0%nat with
     | Some (Return _, m) => elements (vec m) = [1; 2; 0; 0]
     | Some (Throw _, _) | None => False
     end.
Proof.
  assert (Hall : Forall2 (constructs always) [Some 1; Some 2] [1; 2])
    by all_succeed.
  assert (Hd : constructs always Sample.default_init 0) by succeeds.
  assert (Hfit : (length [1; 2] <= N.to_nat five)%nat) by (vm_compute; lia).
  assert (Hcount : 4 < size_max) by reflexivity.
  split; [exact Hall|]. split; [exact Hd|].
  pose proof (sized_variadic_constructor_pads_with_defaults five always
                Sample.default_init 4 [Some 1; Some 2] [1; 2] 0 0%nat
                Hall Hd Hfit Hcount) as W.
  revert W.
  destruct (ctor_count_in_place five always Sample.default_init 4
                                [Some 1; Some 2] 0%nat)
    as [[[[]|e] m]|]; intros W.
  - destruct W as (_ & Hel & _). exact Hel.
  - destruct W as (Hlt & _). vm_compute in Hlt. discriminate Hlt.
  - exact W.
Defined.

(** Inserting 42 at position 1 of [{7, 8, 9}] gives [{7, 42, 8, 9}],
    with 42 at position 1. *)
Lemma insert_puts_the_new_element_at_pos_witness :
  wf five (vec h789) /\ valid_pos (Iter 1) h789
  /\ elements (vec (snd (insert_move five always Sample.move_init (Iter 1) 42
                                     h789)))
     = [7; 42; 8; 9]
  /\ deref (Iter 1)
           (snd (insert_move five always Sample.move_init (Iter 1) 42 h789))
     = Some 42.
Proof.
  assert (Hwf : wf five (vec h789)) by holds.
  assert (Hpos : valid_pos (Iter 1) h789) by position.
  destruct (insert_puts_the_new_element_at_pos five always Sample.copy_init
              Sample.move_init (Iter 1) 42 h789 Hwf Hpos) as [_ W].
  specialize (W eq_refl). hnf in W. destruct W as (_ & Hel & Hd & _).
  split; [exact Hwf|]. split; [exact Hpos|]. split; [exact Hel|exact Hd].
Defined.

(** Inserting two copies of 0 at position 1 of [{7, 8, 9}] gives
    [{7, 0, 0, 8, 9}]. *)
Lemma insert_count_puts_copies_at_pos_witness :
  wf five (vec h789) /\ valid_pos (Iter 1) h789 /\ 0 <= 2
  /\ constructs always (Sample.copy_init 0) 0
  /\ match insert_count five always Sample.copy_init (Iter 1) 2 0 h789 with
     | Some (Return it, m') =>
         it = Iter 1 /\ elements (vec m') = [7; 0; 0; 8; 9]
     | Some (Throw _, _) | None => False
     end.
Proof.
  assert (Hwf : wf five (vec h789)) by holds.
  assert (Hpos : valid_pos (Iter 1) h789) by position.
  assert (Hcount : 0 <= 2) by lia.
  assert (Hc : constructs always (Sample.copy_init 0) 0) by succeeds.
  split; [exact Hwf|]. split; [exact Hpos|]. split; [exact Hcount|].
  split; [exact Hc|].
  pose proof (insert_count_puts_copies_at_pos five always Sample.copy_init
                (Iter 1) 2 0 h789 Hwf Hpos Hcount Hc) as W.
  revert W.
  destruct (insert_count five always Sample.copy_init (Iter 1) 2 0 h789)
    as [[[it|e] m']|]; intros W.
  - destruct W as (Hit & _ & Hel & _). split; [exact Hit|exact Hel].
  - destruct W as (Hlt & _). vm_compute in Hlt. discriminate Hlt.
  - exact W.
Defined.

(** Inserting the range [{1, 2}] at the front of [{7, 8, 9}] gives
    [{1, 2, 7, 8, 9}]. *)
Lemma insert_range_puts_the_range_at_pos_witness :
  wf five (vec h789) /\ valid_pos (Iter 0) h789
  /\ Forall2 (constructs always) [Some 1; Some 2] [1; 2]
  /\ match insert_range five always (Iter 0) [Some 1; Some 2] h789 with
     | Some (Return it, m') =>
         it = Iter 0 /\ elements (vec m') = [1; 2; 7; 8; 9]
     | Some (Throw _, _) | None => False
     end.
Proof.
  assert (Hwf : wf five (vec h789)) by holds.
  assert (H64 : Z.of_N five < size_max) by reflexivity.
  assert (Hpos : valid_pos (Iter 0) h789) by position.
  assert (Hall : Forall2 (constructs always) [Some 1; Some 2] [1; 2])
    by all_succeed.
  split; [exact Hwf|]. split; [exact Hpos|]. split; [exact Hall|].
  pose proof (insert_range_puts_the_range_at_pos five always (Iter 0)
                [Some 1; Some 2] [1; 2] h789 Hwf H64 Hpos Hall) as W.
  revert W.
  destruct (insert_range five always (Iter 0) [Some 1; Some 2] h789)
    as [[[it|e] m']|]; intros W.
  - destruct W as (Hit & _ & Hel & _). split; [exact Hit|exact Hel].
  - destruct W as (Hlt & _). vm_compute in Hlt. discriminate Hlt.
  - exact W.
Defined.

(** The copy of [{7, 8, 9}] is [{7, 8, 9}]. *)
Lemma copy_and_move_constructors_rebuild_the_other_witness :
  wf five (of_list five [7; 8; 9])
  /\ exists mc,
       ctor_copy five always Sample.copy_init (of_list five [7; 8; 9]) 0%nat
       = Some (Return (), mc)
       /\ vec mc = of_list five [7; 8; 9].
Proof.
  assert (Hwf : wf five (of_list five [7; 8; 9])) by holds.
  destruct (copy_and_move_constructors_rebuild_the_other five always
              Sample.copy_init Sample.move_init (of_list five [7; 8; 9])
              0%nat Hwf)
    as (mc & mm & Hc & _ & Hvc & _); [succeeds|succeeds|].
  split; [exact Hwf|]. exists mc. split; [exact Hc|exact Hvc].
Defined.

(** Assigning [{1, 2}] to [{7, 8, 9}] leaves [{1, 2}]. *)
Lemma assignment_makes_the_container_equal_to_the_other_witness :
  wf five (vec h789) /\ wf five (of_list five [1; 2])
  /\ exists mc,
       copy_assignment five always Sample.copy_init (of_list five [1; 2]) h789
       = Some (Return (), mc)
       /\ vec mc = of_list five [1; 2].
Proof.
  assert (Hwf : wf five (vec h789)) by holds.
  assert (Hother : wf five (of_list five [1; 2])) by holds.
  assert (H64 : Z.of_N five < size_max) by reflexivity.
  destruct (assignment_makes_the_container_equal_to_the_other five always
              Sample.copy_init Sample.move_init (of_list five [1; 2]) h789
              Hwf Hother H64)
    as (mc & mm & Hc & _ & Hvc & _); [succeeds|succeeds|].
  split; [exact Hwf|]. split; [exact Hother|].
  exists mc. split; [exact Hc|exact Hvc].
Defined.

(** With an element type whose second construction throws, inserting
    two elements in the middle of [{7, 8, 9}] comes back with the
    container in its invariant. *)
Lemma operations_keep_the_representation_invariant_witness :
  wf five (vec (Sample.holding [7; 8; 9] 1))
  /\ valid_op five Sample.construct_at Sample.copy_init
              (OpInsertCount (Iter 1) 2 0) (Sample.holding [7; 8; 9] 1)
  /\ match run_op five Sample.construct_at Sample.default_init
                  Sample.copy_init Sample.move_init Sample.moved_from
                  (OpInsertCount (Iter 1) 2 0) (Sample.holding [7; 8; 9] 1)
     with
     | Some (_, m') => wf five (vec m')
     | None => False
     end.
Proof.
  assert (Hwf : wf five (vec (Sample.holding [7; 8; 9] 1))) by holds.
  assert (H64 : Z.of_N five < size_max) by reflexivity.
  assert (Hvalid : valid_op five Sample.construct_at Sample.copy_init
                            (OpInsertCount (Iter 1) 2 0)
                            (Sample.holding [7; 8; 9] 1))
    by (split; [position|lia]).
  split; [exact Hwf|]. split; [exact Hvalid|].
  pose proof (operations_keep_the_representation_invariant five
                Sample.construct_at Sample.default_init Sample.copy_init
                Sample.move_init Sample.moved_from
                (OpInsertCount (Iter 1) 2 0) (Sample.holding [7; 8; 9] 1)
                Hwf H64 Hvalid) as W.
  revert W.
  destruct (run_op five Sample.construct_at Sample.default_init
                   Sample.copy_init Sample.move_init Sample.moved_from
                   (OpInsertCount (Iter 1) 2 0) (Sample.holding [7; 8; 9] 1))
    as [[r m']|]; intros W.
  - exact W.
  - discriminate W.
Defined.

(** With an element type whose fourth construction throws,
    [static_vector (4, std::in_place, 1, 2)] throws and leaves the
    container in its invariant. *)
Lemma constructors_establish_the_representation_invariant_witness :
  valid_ctor five (CtorCountInPlace (T:=Z) 4 [Some 1; Some 2])
  /\ match run_ctor five Sample.construct_at Sample.default_init
                    Sample.copy_init Sample.move_init
                    (CtorCountInPlace 4 [Some 1; Some 2]) 3%nat with
     | Some (r, m) => is_throw r = true /\ wf five (vec m)
     | None => False
     end.
Proof.
  assert (Hvalid : valid_ctor five (CtorCountInPlace (T:=Z) 4 [Some 1; Some 2]))
    by (vm_compute; lia).
  split; [exact Hvalid|].
  destruct (constructors_establish_the_representation_invariant five
              Sample.construct_at Sample.default_init Sample.copy_init
              Sample.move_init (CtorCountInPlace 4 [Some 1; Some 2]) 3%nat
              Hvalid) as [W _].
  revert W.
  destruct (run_ctor five Sample.construct_at Sample.default_init
                     Sample.copy_init Sample.move_init
                     (CtorCountInPlace 4 [Some 1; Some 2]) 3%nat)
    as [[r m]|] eqn:Hrun; intros W.
  - split; [|exact W]. vm_compute in Hrun. injection Hrun as <- _.
    reflexivity.
  - destruct W as (args & Hc & _). discriminate Hc.
Defined.

End FurtherInstances.
